(** * cortex/mapper.py: volume-to-surface projection operators

    A shallow embedding of [cortex/mapper.py].  Each hemisphere operator is a
    scipy CSR matrix (one row per vertex, one column per voxel); the kernels
    ([Nearest], [Trilinear], [Lanczos], [Polyhedral]) build it from vertex
    coordinates, [Mapper] caches the pair in an [.npz] archive and applies it.

    Numbers.  Vertex coordinates and modification times are finite floats,
    embedded as rationals ([Q]); rounding of the arithmetic is not modelled.
    The Lanczos and polyhedral weights go through [sin], [pi] and divisions by
    zero, so they live in [fl]: a real number or one of the IEEE specials. *)

From Stdlib Require Import ZArith QArith Qround Qabs Qminmax Reals Qreals.
From Stdlib Require Import Lra Lia Lqa List.
From Stdlib Require Import String Ascii DecimalString.
From Stdlib Require Import Sorting.Permutation.
From stdpp Require Import gmap strings.
Import ListNotations.

(** ** Python exceptions and results *)

Inductive exn : Set :=
| IOError | KeyError | ValueError | IndexError
| NameError | TypeError | ImportError | NotImplementedError.

Inductive result (A : Type) : Type :=
| Ok (a : A)
| Raise (e : exn).
Arguments Ok {A} a.
Arguments Raise {A} e.

#[global] Instance result_ret : MRet result := fun A a => Ok a.
#[global] Instance result_bind : MBind result := fun A B k r =>
  match r with
  | Ok a => k a
  | Raise e => Raise e
  end.

(** What a call does besides returning: the modules it imports, the
    debugger it enters, the lines it prints. *)
Inductive event : Set :=
| Import (module : string)
| SetTrace
| Print (line : string).

(** [str(n)] and [%d] of an integer. *)
Definition str_Z (n : Z) : string := NilZero.string_of_int (Z.to_int n).

(** A grid shape is [self.shape]: the voxel counts in (Z, Y, X) order.  A
    vertex coordinate is a row of the coordinate array: (x, y, z). *)
Definition grid : Type := (Z * Z * Z)%type.
Definition point : Type := (Q * Q * Q)%type.
Definition face : Type := (Z * Z * Z)%type.

(** ** The numpy operations the module uses *)

Module np.

Definition ltb (a b : Q) : bool := negb (Qle_bool b a).

(** [np.mod(x, m)]: the remainder carries the sign of the divisor. *)
Definition remainder (x m : Q) : Q := (x - m * inject_Z (Qfloor (x / m)))%Q.

Definition ceil (x : Q) : Z := Qceiling x.

(** [np.around]: to the nearest integer, halves to the even neighbour. *)
Definition around (x : Q) : Z :=
  let f := Qfloor x in
  let r := (x - inject_Z f)%Q in
  if ltb r (1 # 2) then f
  else if ltb (1 # 2) r then (f + 1)%Z
  else if Z.even f then f else (f + 1)%Z.

(** [np.modf]: fractional and integral part, both with the sign of [x]. *)
Definition trunc (x : Q) : Z :=
  if Qle_bool 0 x then Qfloor x else Qceiling x.
Definition modf (x : Q) : Q * Z := ((x - inject_Z (trunc x))%Q, trunc x).

Definition prod (shape : grid) : Z :=
  let '(n0, n1, n2) := shape in (n0 * n1 * n2)%Z.

(** One axis of [ravel_multi_index(..., mode='clip')]. *)
Definition clip (n i : Z) : Z :=
  if (i <? 0)%Z then 0%Z else if (n <=? i)%Z then (n - 1)%Z else i.

Definition ravel (idx : Z * Z * Z) (dims : grid) : Z :=
  let '(i0, i1, i2) := idx in
  let '(_, n1, n2) := dims in
  ((i0 * n1 + i1) * n2 + i2)%Z.

Definition ravel_multi_index_clip (idx : Z * Z * Z) (dims : grid) : Z :=
  let '(i0, i1, i2) := idx in
  let '(n0, n1, n2) := dims in
  ravel (clip n0 i0, clip n1 i1, clip n2 i2) dims.

Definition in_axis (n i : Z) : bool := ((0 <=? i) && (i <? n))%Z.

(** [ravel_multi_index] in its default mode raises on an index outside
    the grid. *)
Definition ravel_multi_index (idx : Z * Z * Z) (dims : grid) : result Z :=
  let '(i0, i1, i2) := idx in
  let '(n0, n1, n2) := dims in
  if in_axis n0 i0 && in_axis n1 i1 && in_axis n2 i2
  then Ok (ravel idx dims) else Raise ValueError.

(** [np.nonzero(mask)[0]] and the boolean selection [a[mask]]. *)
Fixpoint nonzero_from (i : nat) (mask : list bool) : list nat :=
  match mask with
  | [] => []
  | b :: rest => if b then i :: nonzero_from (S i) rest
                 else nonzero_from (S i) rest
  end.
Definition nonzero (mask : list bool) : list nat := nonzero_from 0 mask.

Fixpoint compress {A} (mask : list bool) (a : list A) : list A :=
  match mask, a with
  | b :: mask', x :: a' => if b then x :: compress mask' a' else compress mask' a'
  | _, _ => []
  end.

(** [np.arange(n)] *)
Definition arange (n : Z) : list Z := map Z.of_nat (seq 0 (Z.to_nat n)).

End np.

(** ** scipy.sparse: compressed sparse rows *)

Module sparse.

Record csr_matrix (V : Type) : Type := mk_csr {
  data : list V;
  indices : list Z;
  indptr : list Z;
  shape : Z * Z
}.
Arguments mk_csr {V} _ _ _ _.
Arguments data {V} _.
Arguments indices {V} _.
Arguments indptr {V} _.
Arguments shape {V} _.

Definition slice {A} (l : list A) (s e : Z) : list A :=
  firstn (Z.to_nat (e - s)) (skipn (Z.to_nat s) l).

(** The stored entries of row [i]: [indices] and [data] between
    [indptr[i]] and [indptr[i+1]]. *)
Definition getrow {V} (m : csr_matrix V) (i : nat) : list (Z * V) :=
  let s := nth i (indptr m) 0%Z in
  let e := nth (S i) (indptr m) 0%Z in
  combine (slice (indices m) s e) (slice (data m) s e).

Fixpoint row_ptrs {V} (start : Z) (rows : list (list (Z * V))) : list Z :=
  match rows with
  | [] => [start]
  | r :: rest => start :: row_ptrs (start + Z.of_nat (length r))%Z rest
  end.

(** The CSR arrays of a matrix given row by row. *)
Definition of_rows {V} (shp : Z * Z) (rows : list (list (Z * V))) : csr_matrix V :=
  mk_csr (concat (map (map snd) rows)) (concat (map (map fst) rows))
         (row_ptrs 0 rows) shp.

Section Coo.
Context {V : Type}.
Variable zero : V.
Variable add : V -> V -> V.

(** Entry [(j, d)] added to a row kept sorted by column. *)
Fixpoint accumulate (j : Z) (d : V) (row : list (Z * V)) : list (Z * V) :=
  match row with
  | [] => [(j, d)]
  | (j', d') :: rest =>
      if (j <? j')%Z then (j, d) :: row
      else if (j =? j')%Z then (j', add d' d) :: rest
      else (j', d') :: accumulate j d rest
  end.

(** scipy sums the entries of a COO triple that fall on one cell. *)
Definition sum_duplicates (entries : list (Z * V)) : list (Z * V) :=
  fold_left (fun row e => accumulate (fst e) (snd e) row) entries [].

Definition coo_row (r : nat) (entries : list (nat * Z * V)) : list (Z * V) :=
  map (fun e => (snd (fst e), snd e))
      (List.filter (fun e => Nat.eqb (fst (fst e)) r) entries).

(** [csr_matrix((data, (i, j)), shape=shp)] *)
Definition of_coo (shp : Z * Z) (d : list V) (ij : list nat * list Z)
  : csr_matrix V :=
  let entries := combine (combine (fst ij) (snd ij)) d in
  of_rows shp (map (fun r => sum_duplicates (coo_row r entries))
                   (seq 0 (Z.to_nat (fst shp)))).

(** The value at cell [(i, j)] and the sum of a row (the dense view). *)
Definition total (vals : list V) : V := fold_left add vals zero.

Definition get (m : csr_matrix V) (i : nat) (j : Z) : V :=
  total (map snd (List.filter (fun e => (fst e =? j)%Z) (getrow m i))).

Definition row_sum (m : csr_matrix V) (i : nat) : V :=
  total (map snd (getrow m i)).
End Coo.

End sparse.

(** ** Nearest-neighbour kernel *)

Module Nearest.

(** Line 175: ceiling where [np.mod(c, 2) == 0.5], [np.around] elsewhere. *)
Definition round_coord (c : Q) : Z :=
  if Qeq_bool (np.remainder c 2) (1 # 2) then np.ceil c else np.around c.

Definition round_point (p : point) : Z * Z * Z :=
  let '(x, y, z) := p in (round_coord x, round_coord y, round_coord z).

Definition valid_point (shape : grid) (c : Z * Z * Z) : bool :=
  let '(x, y, z) := c in
  let '(n0, n1, n2) := shape in
  let d1 := ((0 <=? x) && (x <? n2))%Z in
  let d2 := ((0 <=? y) && (y <? n1))%Z in
  let d3 := ((0 <=? z) && (z <? n0))%Z in
  (true && d1) && (d2 && d3).

Definition ravelidx (shape : grid) (c : Z * Z * Z) : Z :=
  let '(x, y, z) := c in np.ravel_multi_index_clip (z, y, x) shape.

Definition _getmask (shape : grid) (coords : list point) (polys : list face)
  : sparse.csr_matrix bool :=
  let coords' := map round_point coords in
  let valid := map (valid_point shape) coords' in
  let ravel := map (ravelidx shape) coords' in
  let ij := (np.nonzero valid, np.compress valid ravel) in
  let data := repeat true (length (fst ij)) in
  let csrshape := (Z.of_nat (length coords), np.prod shape) in
  sparse.of_coo orb csrshape data ij.

End Nearest.

(** ** Trilinear kernel *)

Module Trilinear.

(** Lines 191-196 on one axis: the fractional part, negative ones set to
    zero, and the integral part. *)
Definition split_axis (c : Q) : Q * Z :=
  let '(f, i) := np.modf c in
  ((if np.ltb f 0 then 0%Q else f), i).

(** Lines 198-205, in the order of line 217. *)
Definition corners (shape : grid) (p : point) : list Z :=
  let '(x, y, z) := p in
  let f0 := snd (split_axis x) in
  let f1 := snd (split_axis y) in
  let f2 := snd (split_axis z) in
  let c0 := (f0 + 1)%Z in
  let c1 := (f1 + 1)%Z in
  let c2 := (f2 + 1)%Z in
  let i000 := np.ravel_multi_index_clip (f2, f1, f0) shape in
  let i100 := np.ravel_multi_index_clip (f2, f1, c0) shape in
  let i010 := np.ravel_multi_index_clip (f2, c1, f0) shape in
  let i001 := np.ravel_multi_index_clip (c2, f1, f0) shape in
  let i101 := np.ravel_multi_index_clip (c2, f1, c0) shape in
  let i011 := np.ravel_multi_index_clip (c2, c1, f0) shape in
  let i110 := np.ravel_multi_index_clip (f2, c1, c0) shape in
  let i111 := np.ravel_multi_index_clip (c2, c1, c0) shape in
  [i000; i100; i010; i001; i101; i011; i110; i111].

(** Lines 207-214, in the order of line 218. *)
Definition weights (p : point) : list Q :=
  let '(x, y, z) := p in
  let x := fst (split_axis x) in
  let y := fst (split_axis y) in
  let z := fst (split_axis z) in
  let v000 := ((1 - x) * (1 - y) * (1 - z))%Q in
  let v100 := (x * (1 - y) * (1 - z))%Q in
  let v010 := ((1 - x) * y * (1 - z))%Q in
  let v110 := (x * y * (1 - z))%Q in
  let v001 := ((1 - x) * (1 - y) * z)%Q in
  let v101 := (x * (1 - y) * z)%Q in
  let v011 := ((1 - x) * y * z)%Q in
  let v111 := (x * y * z)%Q in
  [v000; v100; v010; v001; v101; v011; v110; v111].

Definition _getmask (shape : grid) (coords : list point) (polys : list face)
  : sparse.csr_matrix Q :=
  let i := flat_map (fun v => repeat v 8) (seq 0 (length coords)) in
  let j := flat_map (corners shape) coords in
  let data := flat_map weights coords in
  let csrshape := (Z.of_nat (length coords), np.prod shape) in
  sparse.of_coo Qplus csrshape data (i, j).

End Trilinear.

(** ** Floating-point values

    A weight is a real number or one of the IEEE specials.  Zero is the
    positive zero; overflow, underflow and rounding are not modelled. *)

Inductive fl : Type :=
| Fin (r : R)
| PInf
| NInf
| NaN.

Module Fl.

Definition sign_inf (r : R) (pos neg : fl) : fl :=
  if Req_dec_T r 0 then NaN else if Rlt_dec 0 r then pos else neg.

Definition add (a b : fl) : fl :=
  match a, b with
  | NaN, _ | _, NaN => NaN
  | Fin x, Fin y => Fin (x + y)
  | PInf, NInf | NInf, PInf => NaN
  | PInf, _ | _, PInf => PInf
  | NInf, _ | _, NInf => NInf
  end.

Definition mul (a b : fl) : fl :=
  match a, b with
  | NaN, _ | _, NaN => NaN
  | Fin x, Fin y => Fin (x * y)
  | Fin x, PInf | PInf, Fin x => sign_inf x PInf NInf
  | Fin x, NInf | NInf, Fin x => sign_inf x NInf PInf
  | PInf, PInf | NInf, NInf => PInf
  | PInf, NInf | NInf, PInf => NInf
  end.

Definition div (a b : fl) : fl :=
  match a, b with
  | NaN, _ | _, NaN => NaN
  | Fin x, Fin y => if Req_dec_T y 0 then sign_inf x PInf NInf else Fin (x / y)
  | Fin _, (PInf | NInf) => Fin 0
  | PInf, Fin y => if Rlt_dec y 0 then NInf else PInf
  | NInf, Fin y => if Rlt_dec y 0 then PInf else NInf
  | (PInf | NInf), (PInf | NInf) => NaN
  end.

Definition sin (a : fl) : fl :=
  match a with
  | Fin x => Fin (Rtrigo_def.sin x)
  | _ => NaN
  end.

(** [a != 0], the test of [np.nonzero] and of a sparse store. *)
Definition nonzero (a : fl) : bool :=
  match a with
  | Fin x => if Req_dec_T x 0 then false else true
  | _ => true
  end.

(** [a.sum()] *)
Definition sum (vals : list fl) : fl := fold_left add vals (Fin 0).

Definition finite (a : fl) : Prop :=
  match a with
  | Fin _ => True
  | _ => False
  end.

End Fl.

(** ** Lanczos kernel *)

Module Lanczos.

(** Lines 229-234 on one offset. *)
Definition lanczos (window : Q) (x : Q) : fl :=
  if np.ltb (Qabs x) window then
    let selx := Fin (Q2R x) in
    let w := Fin (Q2R window) in
    let pi := Fin PI in
    Fl.mul (Fl.mul (Fl.sin (Fl.mul pi selx))
                   (Fl.sin (Fl.div (Fl.mul pi selx) w)))
           (Fl.div w (Fl.mul (Fl.mul pi pi) (Fl.mul selx selx)))
  else Fin 0.

(** One column of [Lx], [Ly] or [Lz] (lines 225-238): the kernel at the
    offsets of the coordinate [c] from the [n] voxel centres of the axis. *)
Definition axis (window : Q) (n : Z) (c : Q) : list fl :=
  map (fun k => lanczos window (c - inject_Z k)) (np.arange n).

(** Lines 245-251: the voxels of an axis with a nonzero weight, and the
    weights. *)
Definition support (L : list fl) : list Z :=
  map Z.of_nat (np.nonzero (map Fl.nonzero L)).
Definition support_vals (L : list fl) : list fl :=
  np.compress (map Fl.nonzero L) L.

(** [itertools.product(a, b, c)] *)
Definition product {A} (a b c : list A) : list (A * A * A) :=
  flat_map (fun x => flat_map (fun y => map (fun z => (x, y, z)) c) b) a.

(** Line 253.  An empty product is not a sequence of three index arrays:
    [ravel_multi_index] raises [ValueError]. *)
Definition ravel_all (idx : list (Z * Z * Z)) (shape : grid) : result (list Z) :=
  match idx with
  | [] => Raise ValueError
  | _ => mapM (fun i => np.ravel_multi_index i shape) idx
  end.

(** Line 256: [vals /= vals.sum()] *)
Definition renorm_vals (vals : list fl) : list fl :=
  map (fun v => Fl.div v (Fl.sum vals)) vals.

(** [mask[v, inds] = vals] on a [lil_matrix] row: zeros are not stored. *)
Definition lil_set (inds : list Z) (vals : list fl) : list (Z * fl) :=
  List.filter (fun e => Fl.nonzero (snd e)) (combine inds vals).

(** The body of the loop (lines 245-259) for the vertex [p]. *)
Definition row (shape : grid) (window : Q) (renorm : bool) (p : point)
  : list (Z * fl) :=
  let '(nZ, nY, nX) := shape in
  let '(x, y, z) := p in
  let Lx := axis window nX x in
  let Ly := axis window nY y in
  let Lz := axis window nZ z in
  let ix := support Lx in
  let iy := support Ly in
  let iz := support Lz in
  let vx := support_vals Lx in
  let vy := support_vals Ly in
  let vz := support_vals Lz in
  match ravel_all (product iz iy ix) shape with
  | Ok inds =>
      let vals := map (fun t => Fl.mul (Fl.mul (fst (fst t)) (snd (fst t))) (snd t))
                      (product vz vy vx) in
      let vals := if renorm then renorm_vals vals else vals in
      lil_set inds vals
  | Raise _ => []
  end.

(** Lines 261-262 *)
Definition progress (n : nat) : list event :=
  flat_map (fun v => if (Z.of_nat v mod 1000 =? 0)%Z
                     then [Print (str_Z (Z.of_nat v))] else [])
           (seq 0 n).

(** [_getmask]; [ipdb_installed] tells whether line 240 finds the module. *)
Definition _getmask (ipdb_installed : bool) (shape : grid)
           (coords : list point) (polys : list face)
           (window : Q) (renorm : bool)
  : list event * result (sparse.csr_matrix fl) :=
  if ipdb_installed then
    let mask := sparse.of_rows (Z.of_nat (length coords), np.prod shape)
                               (map (row shape window renorm) coords) in
    ([Import "ipdb"; SetTrace] ++ progress (length coords), Ok mask)
  else ([], Raise ImportError).

End Lanczos.

(** ** Polyhedral kernel *)

Module Polyhedral.

(** What a name of the frame of [_getmask] can be bound to. *)
Inductive pyobj : Type :=
| Instance
| Points (pts : list point)
| Faces (polys : list face)
| Global (name : string).

(** The names the module binds (lines 1-13 and its classes). *)
Definition module_globals : list string :=
  ["os"; "warnings"; "product"; "Counter"; "nibabel"; "np"; "sparse";
   "spatial"; "polyutils"; "surfs"; "Mapper"; "ThickMapper"; "Nearest";
   "Trilinear"; "Lanczos"; "Gaussian"; "Polyhedral"; "ConvexPolyhedra";
   "ConvexNN"; "ConvexTrilin"; "ConvexLanczos"]%string.

(** Reading a name: the locals of the frame, then the module. *)
Definition load_name (locals : list (string * pyobj)) (name : string)
  : result pyobj :=
  match List.find (fun b => String.eqb (fst b) name) locals with
  | Some b => Ok (snd b)
  | None => if existsb (String.eqb name) module_globals
            then Ok (Global name) else Raise NameError
  end.

Definition len (o : pyobj) : result Z :=
  match o with
  | Points pts => Ok (Z.of_nat (length pts))
  | Faces polys => Ok (Z.of_nat (length polys))
  | _ => Raise TypeError
  end.

(** A clipping plane: normal and origin. *)
Definition plane : Type := ((Q * Q * Q) * (Q * Q * Q))%type.

(** Lines 279-280 and 301-302: the normals are the rows of [-eye(3)] and
    [eye(3)], the origins [vox + m] for [m] in [.5, .5, .5, -.5, -.5, -.5]. *)
Definition planes (vox : Z * Z * Z) : list plane :=
  let '(x, y, z) := vox in
  let origin (m : Q) := (inject_Z x + m, inject_Z y + m, inject_Z z + m)%Q in
  combine [(-1, 0, 0); (0, -1, 0); (0, 0, -1); (1, 0, 0); (0, 1, 0); (0, 0, 1)]%Q
          (map origin [1 # 2; 1 # 2; 1 # 2; -1 # 2; -1 # 2; -1 # 2]%Q).

(** [range(lo, hi)] *)
Definition range (lo hi : Z) : list Z :=
  map (fun k => (lo + Z.of_nat k)%Z) (seq 0 (Z.to_nat (hi - lo))).

Definition Qmin_list (d : Q) (l : list Q) : Q := fold_left Qmin l d.
Definition Qmax_list (d : Q) (l : list Q) : Q := fold_left Qmax l d.

(** Lines 295-298: the voxels of the bounding box, first axis slowest. *)
Definition candidates (pts : list point) : list (Z * Z * Z) :=
  match pts with
  | [] => []
  | (x0, y0, z0) :: _ =>
      let xs := map (fun p => fst (fst p)) pts in
      let ys := map (fun p => snd (fst p)) pts in
      let zs := map snd pts in
      let lo (c0 : Q) (cs : list Q) := np.around (Qmin_list c0 cs) in
      let hi (c0 : Q) (cs : list Q) := (np.around (Qmax_list c0 cs) + 1)%Z in
      flat_map (fun x =>
        flat_map (fun y =>
          map (fun z => (x, y, z)) (range (lo z0 zs) (hi z0 zs)))
          (range (lo y0 ys) (hi y0 ys)))
        (range (lo x0 xs) (hi x0 xs))
  end.

(** [mask[i, idx] = value] on the stored entries of row [i]. *)
Fixpoint setitem (idx : Z) (value : fl) (row : list (Z * fl)) : list (Z * fl) :=
  match row with
  | [] => [(idx, value)]
  | (j, d) :: rest =>
      if (idx <? j)%Z then (idx, value) :: row
      else if (idx =? j)%Z then (j, value) :: rest
      else (j, d) :: setitem idx value rest
  end.

(** Line 312: the stored entries of the row divided by their sum. *)
Definition renorm_row (row : list (Z * fl)) : list (Z * fl) :=
  let total := Fl.sum (map snd row) in
  map (fun e => (fst e, Fl.div (snd e) total)) row.

Section Engine.

(** The collaborators: [polyutils.Surface(pia, polys).polyhedra(wm)], and
    tvtk: the volume of a polyhedron, and for a polyhedron clipped by a
    plane collection the number of cells of the result and its volume. *)
Variable polyhedra : list point -> list face -> list point
                     -> list (list point * list face).
Variable volume : list point * list face -> fl.
Variable clip : list point * list face -> list plane -> Z * fl.

(** Lines 299-310 for one candidate voxel of the polyhedron [poly]. *)
Definition visit (shape : grid) (poly : list point * list face)
           (acc : list event * list (Z * fl)) (vox : Z * Z * Z)
  : list event * list (Z * fl) :=
  let '(x, y, z) := vox in
  match np.ravel_multi_index (z, y, x) shape with
  | Ok idx =>
      let '(cells, vol) := clip poly (planes vox) in
      if (2 <? cells)%Z then (fst acc, setitem idx vol (snd acc)) else acc
  | Raise _ =>
      (fst acc ++ [Print ("Voxel not in volume: (" ++ str_Z x ++ ", "
                          ++ str_Z y ++ ", " ++ str_Z z ++ ")")],
       snd acc)
  end.

(** Lines 287-312 for one polyhedron.  [totalvol] is read on line 291 and
    not used afterwards. *)
Definition row (shape : grid) (poly : list point * list face)
  : list event * list (Z * fl) :=
  match fst poly with
  | [] => ([], [])
  | _ =>
      let totalvol := volume poly in
      let '(out, stored) := fold_left (visit shape poly) (candidates (fst poly))
                                      ([], []) in
      (out, renorm_row stored)
  end.

(** Lines 276-314, for a mask of [nrows] rows. *)
Definition body (nrows : Z) (shape : grid)
           (pia wm : list point) (polys : list face)
  : list event * result (sparse.csr_matrix fl) :=
  let rows := map (row shape) (polyhedra pia polys wm) in
  (Import "tvtk.api" :: flat_map fst rows,
   Ok (sparse.of_rows (nrows, np.prod shape) (map snd rows))).

(** [_getmask(self, pia, wm, polys)].  Line 274 reads [wpts]. *)
Definition _getmask (shape : grid) (pia wm : list point) (polys : list face)
  : list event * result (sparse.csr_matrix fl) :=
  let locals := [("self", Instance); ("pia", Points pia); ("wm", Points wm);
                 ("polys", Faces polys)]%string in
  match load_name locals "wpts" ≫= len with
  | Ok nrows => body nrows shape pia wm polys
  | Raise e => ([], Raise e)
  end.

End Engine.

End Polyhedral.

(** ** The mapper: cache key, cache archive, construction, application *)

Module Mapper.

(** The value of a keyword argument, and [str(v)]. *)
Inductive pyval : Set :=
| VInt (n : Z)
| VBool (b : bool)
| VStr (s : string).

Definition str (v : pyval) : string :=
  match v with
  | VInt n => str_Z n
  | VBool true => "True"
  | VBool false => "False"
  | VStr s => s
  end.

Definition lower_ascii (c : ascii) : ascii :=
  let n := nat_of_ascii c in
  if ((65 <=? n) && (n <=? 90))%nat then ascii_of_nat (n + 32) else c.

(** [s.lower()] *)
Fixpoint lower (s : string) : string :=
  match s with
  | EmptyString => EmptyString
  | String c rest => String (lower_ascii c) (lower rest)
  end.

(** Lines 21-24.  [kwargs] lists the keyword arguments in the order of
    [kwargs.items()], the order in which they were supplied. *)
Definition ptype (class_name : string) (kwargs : list (string * pyval)) : string :=
  let ptype := lower class_name in
  let kwds := String.concat "_"
                (map (fun kv => (fst kv ++ str (snd kv))%string) kwargs) in
  if (0 <? String.length kwds)%nat then (ptype ++ "_" ++ kwds)%string else ptype.

(** A path template of [surfs.getFiles], and [template.format] with the
    keyword arguments [args]. *)
Inductive segment : Set :=
| Lit (s : string)
| Field (name : string).

Fixpoint format (template : list segment) (args : list (string * string))
  : result string :=
  match template with
  | [] => Ok EmptyString
  | Lit s :: rest => tail ← format rest args; Ok (s ++ tail)%string
  | Field name :: rest =>
      match List.find (fun a => String.eqb (fst a) name) args with
      | Some a => tail ← format rest args; Ok (snd a ++ tail)%string
      | None => Raise KeyError
      end
  end.

(** Line 25 *)
Definition cachefile_of (projcache : list segment) (xfmname class_name : string)
           (kwargs : list (string * pyval)) : result string :=
  format projcache [("xfmname", xfmname);
                    ("projection", ptype class_name kwargs)]%string.

(** [s.endswith(suffix)] *)
Definition endswith (s suffix : string) : bool :=
  let n := String.length s in
  let k := String.length suffix in
  (k <=? n)%nat && String.eqb (substring (n - k) k s) suffix.

(** [np.savez] appends [.npz] to a file name that does not end with it. *)
Definition npz_path (path : string) : string :=
  if endswith path ".npz" then path else (path ++ ".npz")%string.

(** An N-dimensional array with at least one axis, as the sequence of its
    vectors along the last axis. *)
Record ndarray (A : Type) : Type := mk_ndarray {
  lead : list Z;
  last : Z;
  rows : list (list A)
}.
Arguments mk_ndarray {A} _ _ _.
Arguments lead {A} _.
Arguments last {A} _.
Arguments rows {A} _.

(** [a.shape] *)
Definition nd_shape {A} (a : ndarray A) : list Z := lead a ++ [last a].

(** [a[..., :n]] and [a[..., n:]] for [0 <= n] *)
Definition slice_to {A} (n : Z) (a : ndarray A) : ndarray A :=
  mk_ndarray (lead a) (Z.min n (last a)) (map (firstn (Z.to_nat n)) (rows a)).
Definition slice_from {A} (n : Z) (a : ndarray A) : ndarray A :=
  mk_ndarray (lead a) (Z.max 0 (last a - n)) (map (skipn (Z.to_nat n)) (rows a)).

(** [row[i]] with Python's negative indices *)
Definition getitem {A} (row : list A) (i : Z) : result A :=
  let n := Z.of_nat (length row) in
  if ((- n <=? i) && (i <? n))%Z
  then match row !! Z.to_nat (i mod n) with
       | Some x => Ok x
       | None => Raise IndexError
       end
  else Raise IndexError.

(** [a[..., idx]] *)
Definition take_last {A} (idx : list Z) (a : ndarray A) : result (ndarray A) :=
  rs ← mapM (fun row => mapM (getitem row) idx) (rows a);
  Ok (mk_ndarray (lead a) (Z.of_nat (length idx)) rs).

(** The argument of [backwards]: a one-dimensional array. *)
Inductive array : Type :=
| IntArr (a : list Z)
| FloatArr (a : list Q)
| BoolArr (a : list bool).

Definition Q_of_bool (b : bool) : Q := if b then 1%Q else 0%Q.

Definition values (a : array) : list Q :=
  match a with
  | IntArr l => map inject_Z l
  | FloatArr l => l
  | BoolArr l => map Q_of_bool l
  end.

(** [len(a)] *)
Definition alen (a : array) : Z := Z.of_nat (length (values a)).

(** [a.max()]: numpy raises [ValueError] on an empty array. *)
Definition amax (a : array) : result Q :=
  match values a with
  | [] => Raise ValueError
  | x :: l => Ok (fold_left Qmax l x)
  end.

(** [a[:n]] and [a[n:]] for [0 <= n] *)
Definition ahead (n : Z) (a : array) : array :=
  match a with
  | IntArr l => IntArr (firstn (Z.to_nat n) l)
  | FloatArr l => FloatArr (firstn (Z.to_nat n) l)
  | BoolArr l => BoolArr (firstn (Z.to_nat n) l)
  end.
Definition atail (n : Z) (a : array) : array :=
  match a with
  | IntArr l => IntArr (skipn (Z.to_nat n) l)
  | FloatArr l => FloatArr (skipn (Z.to_nat n) l)
  | BoolArr l => BoolArr (skipn (Z.to_nat n) l)
  end.

(** [a[a < n]] and [a[a >= n] - n] *)
Definition below (n : Z) (a : array) : array :=
  match a with
  | IntArr l => IntArr (List.filter (fun x => (x <? n)%Z) l)
  | FloatArr l => FloatArr (List.filter (fun x => np.ltb x (inject_Z n)) l)
  | BoolArr l => BoolArr (List.filter (fun b => np.ltb (Q_of_bool b) (inject_Z n)) l)
  end.
Definition from_minus (n : Z) (a : array) : array :=
  match a with
  | IntArr l => IntArr (map (fun x => (x - n)%Z) (List.filter (fun x => (n <=? x)%Z) l))
  | FloatArr l =>
      FloatArr (map (fun x => (x - inject_Z n)%Q)
                    (List.filter (fun x => Qle_bool (inject_Z n) x) l))
  | BoolArr l =>
      IntArr (map (fun b : bool => ((if b then 1 else 0) - n)%Z)
                  (List.filter (fun b => Qle_bool (inject_Z n) (Q_of_bool b)) l))
  end.

(** [mask[idx] = True] on a boolean vector: integer indices, negative ones
    counted from the end, or a boolean mask of the same length. *)
Fixpoint set_indices (mask : list bool) (idx : list Z) : result (list bool) :=
  let n := Z.of_nat (length mask) in
  match idx with
  | [] => Ok mask
  | i :: rest =>
      if ((- n <=? i) && (i <? n))%Z
      then set_indices (<[Z.to_nat (i mod n) := true]> mask) rest
      else Raise IndexError
  end.

Definition set_true (mask : list bool) (idx : array) : result (list bool) :=
  match idx with
  | IntArr l => set_indices mask l
  | BoolArr l =>
      if (length l =? length mask)%nat
      then Ok (map (fun p => orb (fst p) (snd p)) (combine mask l))
      else Raise IndexError
  | FloatArr _ => Raise IndexError
  end.

Section Mapper.
Context {V : Type}.

(** *** The cache archive *)

(** An array of an [.npz] archive: operator values or integers. *)
Inductive npy : Type :=
| NData (a : list V)
| NInts (a : list Z).

Record file : Type := mk_file {
  st_mtime : Q;
  npz : gmap string npy
}.

(** Lines 144-152: the keyword arguments of [np.savez]. *)
Definition savez_fields (left right : sparse.csr_matrix V) : gmap string npy :=
  <["left_data" := NData (sparse.data left)]>
  (<["left_indices" := NInts (sparse.indices left)]>
  (<["left_indptr" := NInts (sparse.indptr left)]>
  (<["left_shape" := NInts [fst (sparse.shape left); snd (sparse.shape left)]]>
  (<["right_data" := NData (sparse.data right)]>
  (<["right_indices" := NInts (sparse.indices right)]>
  (<["right_indptr" := NInts (sparse.indptr right)]>
  (<["right_shape" := NInts [fst (sparse.shape right); snd (sparse.shape right)]]>
   ∅))))))).

(** [npz[name]] *)
Definition field (archive : gmap string npy) (name : string) : result npy :=
  match archive !! name with
  | Some a => Ok a
  | None => Raise KeyError
  end.

(** [sparse.csr_matrix((data, indices, indptr), shape=shape)] on arrays of
    an archive.  The three arrays become the arrays of the matrix as they
    are; scipy's checks of their mutual consistency are not modelled. *)
Definition csr_matrix (arrays : npy * npy * npy) (shp : npy)
  : result (sparse.csr_matrix V) :=
  match arrays, shp with
  | (NData d, NInts i, NInts p), NInts [r; c] => Ok (sparse.mk_csr d i p (r, c))
  | _, _ => Raise ValueError
  end.

(** Lines 37-41 *)
Definition load_masks (archive : gmap string npy)
  : result (sparse.csr_matrix V * sparse.csr_matrix V) :=
  ld ← field archive "left_data";
  li ← field archive "left_indices";
  lp ← field archive "left_indptr";
  rd ← field archive "right_data";
  ri ← field archive "right_indices";
  rp ← field archive "right_indptr";
  ls ← field archive "left_shape";
  lsparse ← csr_matrix (ld, li, lp) ls;
  rs ← field archive "right_shape";
  rsparse ← csr_matrix (rd, ri, rp) rs;
  Ok (lsparse, rsparse).

(** *** The mapper object *)

(** The attributes set on lines 18-29, and the finished object. *)
Record base : Type := mk_base {
  idxmap : option (list Z * list Z);
  subject : string;
  xfmname : string;
  cachefile : string;
  shape : grid
}.

Record t : Type := mk_mapper {
  self : base;
  masks : sparse.csr_matrix V * sparse.csr_matrix V;
  nverts : Z
}.

(** [np.load(path)] and [os.stat(path).st_mtime]; a missing file raises
    [IOError] (of which Python 3 makes [OSError] an alias). *)
Definition np_load (fs : gmap string file) (path : string)
  : result (gmap string npy) :=
  match fs !! path with
  | Some f => Ok (npz f)
  | None => Raise IOError
  end.

Definition os_stat (fs : gmap string file) (path : string) : result Q :=
  match fs !! path with
  | Some f => Ok (st_mtime f)
  | None => Raise IOError
  end.

(** Lines 141-152.  The archive is written at time [now]. *)
Definition _savecache (b : base) (fs : gmap string file) (now : Q)
           (left right : sparse.csr_matrix V) : t * gmap string file :=
  (mk_mapper b (left, right) (fst (sparse.shape left) + fst (sparse.shape right))%Z,
   <[npz_path (cachefile b) := mk_file now (savez_fields left right)]> fs).

(** Lines 129-139 and 155-168.  [build] is the list [masks] that the loop
    over the hemispheres computes: the surfaces of [surfs.getVTK] moved by
    [polyutils.transform] and passed to the [_getmask] of the class. *)
Definition _recache (b : base) (fs : gmap string file) (now : Q)
           (build : result (list (sparse.csr_matrix V)))
  : result (t * gmap string file) :=
  built ← build;
  match built with
  | [lmask; rmask] => Ok (_savecache b fs now lmask rmask)
  | _ => Raise TypeError
  end.

(** Lines 33-42: the body of the [try]. *)
Definition load_cache (fs : gmap string file) (cache xfmfile : string)
           (recache : bool)
  : result (sparse.csr_matrix V * sparse.csr_matrix V) :=
  archive ← np_load fs cache;
  stale ← (if recache then Ok true
           else tc ← os_stat fs cache; tx ← os_stat fs xfmfile; Ok (np.ltb tc tx));
  if (stale : bool) then Raise IOError else load_masks archive.

(** Lines 17-44.  [projcache] and [xfms] are the path templates of
    [surfs.getFiles(subject)], [epi_shape] the first three axes of the
    reference volume. *)
Definition __init__ (fs : gmap string file) (now : Q)
           (projcache xfms : list segment) (epi_shape : Z * Z * Z)
           (build : result (list (sparse.csr_matrix V)))
           (class_name subject xfmname : string) (recache : bool)
           (kwargs : list (string * pyval))
  : result (t * gmap string file) :=
  cache ← cachefile_of projcache xfmname class_name kwargs;
  let '(n0, n1, n2) := epi_shape in
  let b := mk_base None subject xfmname cache (n2, n1, n0) in
  xfmfile ← format xfms [("xfmname", xfmname)]%string;
  match load_cache fs cache xfmfile recache with
  | Ok (lsparse, rsparse) =>
      Ok (mk_mapper b (lsparse, rsparse)
                    (fst (sparse.shape lsparse) + fst (sparse.shape rsparse))%Z,
          fs)
  | Raise IOError => _recache b fs now build
  | Raise e => Raise e
  end.

(** *** Application *)

(** The product of a vector with an operator, reshaped to the grid (lines
    124-125), and the projection of a volume (lines 70-90): scipy's. *)
Variable project_back : array -> sparse.csr_matrix V -> grid -> result (ndarray Q).
Variable project_volume : t -> ndarray Q -> result (ndarray Q * ndarray Q).

(** Line 61: [self.nverts in data.shape] *)
Definition is_vertex_space (m : t) (data : ndarray Q) : bool :=
  existsb (Z.eqb (nverts m)) (nd_shape data).

(** [__call__], lines 60-90 *)
Definition __call__ (m : t) (data : ndarray Q) : result (ndarray Q * ndarray Q) :=
  if is_vertex_space m data then
    let llen := fst (sparse.shape (fst (masks m))) in
    let left := slice_to llen data in
    let right := slice_from llen data in
    match idxmap (self m) with
    | Some (il, ir) =>
        l ← take_last il left; r ← take_last ir right; Ok (l, r)
    | None => Ok (left, right)
    end
  else project_volume m data.

(** The argument of [backwards]: one array, or a list or tuple of two. *)
Inductive verts_arg : Type :=
| Single (verts : array)
| Pair (verts0 verts1 : array).

(** Lines 101-120: the vector of each hemisphere. *)
Definition hemisphere_vectors (m : t) (verts : verts_arg) : result (array * array) :=
  let llen := fst (sparse.shape (fst (masks m))) in
  let rlen := fst (sparse.shape (snd (masks m))) in
  let left := repeat false (Z.to_nat llen) in
  let right := repeat false (Z.to_nat rlen) in
  match verts with
  | Pair verts0 verts1 =>
      if (alen verts0 =? llen)%Z then Ok (verts0, verts1)
      else
        top ← amax verts0;
        if np.ltb top (inject_Z llen) then
          l ← set_true left verts0; r ← set_true right verts1;
          Ok (BoolArr l, BoolArr r)
        else Raise ValueError
  | Single verts =>
      if (alen verts =? nverts m)%Z then Ok (ahead llen verts, atail llen verts)
      else
        top ← amax verts;
        if np.ltb top (inject_Z (nverts m)) then
          l ← set_true left (below llen verts);
          r ← set_true right (from_minus llen verts);
          Ok (BoolArr l, BoolArr r)
        else Raise ValueError
  end.

(** [backwards], lines 92-127 *)
Definition backwards (m : t) (verts : verts_arg) : result (list (ndarray Q)) :=
  '(lvec, rvec) ← hemisphere_vectors m verts;
  l ← project_back lvec (fst (masks m)) (shape (self m));
  r ← project_back rvec (snd (masks m)) (shape (self m));
  Ok [l; r].

End Mapper.

(** *** The voxels that the operators read (lines 46-54) *)

Section Masks.
Context {V : Type}.

(** The number that a sum takes for a stored value: the value itself,
    one for [True]. *)
Variable number : V -> Q.

(** [a.reshape(shape)] of an array with [size] elements: whether numpy
    finds the elements to fit the shape. *)
Variable reshapes : Z -> grid -> bool.

(** The values stored for column [j], over the rows of the matrix. *)
Definition column (m : sparse.csr_matrix V) (j : Z) : list V :=
  flat_map (fun i => map snd (List.filter (fun e => (fst e =? j)%Z)
                                          (sparse.getrow m i)))
           (seq 0 (Z.to_nat (fst (sparse.shape m)))).

(** [m.sum(0)]: the sum of every column, a matrix of one row. *)
Definition sum0 (m : sparse.csr_matrix V) : list Q :=
  map (fun j => sparse.total 0%Q Qplus (map number (column m (Z.of_nat j))))
      (seq 0 (Z.to_nat (snd (sparse.shape m)))).

(** The sum of two matrices of one row each (line 48): of two rows of
    different lengths numpy stretches the one of length one, and refuses
    others. *)
Definition add_rows (a b : list Q) : result (list Q) :=
  if (length a =? length b)%nat then Ok (zip_with Qplus a b)
  else match a, b with
       | [x], _ => Ok (map (Qplus x) b)
       | _, [y] => Ok (map (fun x => (x + y)%Q) a)
       | _, _ => Raise ValueError
       end.

(** [(a.squeeze() != 0).reshape(shape)]: the elements in C order. *)
Definition nonzero_grid (a : list Q) (shp : grid) : result (list bool) :=
  if reshapes (Z.of_nat (length a)) shp
  then Ok (map (fun x => negb (Qeq_bool x 0)) a) else Raise ValueError.

(** [mask], lines 46-49 *)
Definition mask (m : @t V) : result (list bool) :=
  total ← add_rows (sum0 (fst (masks m))) (sum0 (snd (masks m)));
  nonzero_grid total (shape (self m)).

(** [hemimasks], lines 51-54 *)
Definition hemimasks (m : @t V) : result (list (list bool)) :=
  mapM (fun h => nonzero_grid (sum0 h) (shape (self m)))
       [fst (masks m); snd (masks m)].

End Masks.

(** *** The operators of a rebuild (lines 130-137) *)

(** A call [f(..., **kwargs)] of a method whose signature names the
    keywords [accepted] and takes no others: a keyword that it does not
    name raises [TypeError] before the body runs. *)
Definition call_with {A} (accepted : list string) (kwargs : list (string * pyval))
           (body : result A) : result A :=
  if forallb (fun kv => existsb (String.eqb (fst kv)) accepted) kwargs
  then body else Raise TypeError.

(** Lines 130-137: [masks] after the loop over the surfaces [fid] of the
    hemispheres; [transform] is [polyutils.transform] with the [coord] of
    the subject, [getmask] the call [self._getmask(coords, polys,
    **kwargs)]. *)
Definition hemisphere_masks {V : Type} (transform : list point -> list point)
           (getmask : list point -> list face -> result (sparse.csr_matrix V))
           (fid : list (list point * list face))
  : result (list (sparse.csr_matrix V)) :=
  mapM (fun h => getmask (transform (fst h)) (snd h)) fid.

(** *** The projection of a vector (line 124) *)

(** [data * mask] for a vector and an operator of numbers: scipy's product
    of the vector, as a row, with the matrix, one number per column.  A
    vector that has not one element per row of the operator raises
    [ValueError]. *)
Definition proj (data : array) (mask : sparse.csr_matrix Q) : result (list Q) :=
  if (alen data =? fst (sparse.shape mask))%Z then
    Ok (map (fun j =>
               sparse.total 0%Q Qplus
                 (map (fun iv => (snd iv * sparse.get 0%Q Qplus mask (fst iv)
                                                      (Z.of_nat j))%Q)
                      (combine (seq 0 (length (values data))) (values data))))
            (seq 0 (Z.to_nat (snd (sparse.shape mask)))))
  else Raise ValueError.

End Mapper.

(** ** The rebuilds of the kernels without parameters *)

Module Rebuild.

(** [Nearest._getmask(self, coords, polys)] and [Trilinear._getmask(self,
    coords, polys)] (lines 172 and 189) name no keyword. *)
Definition nearest (shape : grid) (transform : list point -> list point)
           (kwargs : list (string * Mapper.pyval))
           (fid : list (list point * list face))
  : result (list (sparse.csr_matrix bool)) :=
  Mapper.hemisphere_masks transform
    (fun coords polys =>
       Mapper.call_with [] kwargs (Ok (Nearest._getmask shape coords polys)))
    fid.

Definition trilinear (shape : grid) (transform : list point -> list point)
           (kwargs : list (string * Mapper.pyval))
           (fid : list (list point * list face))
  : result (list (sparse.csr_matrix Q)) :=
  Mapper.hemisphere_masks transform
    (fun coords polys =>
       Mapper.call_with [] kwargs (Ok (Trilinear._getmask shape coords polys)))
    fid.

End Rebuild.

(** ** Gaussian: not implemented *)

Module Gaussian.

(** [_recache(self, subject, xfmname, std=2)], lines 267-268, as the masks
    a rebuild gets: the call [self._recache(subject, xfmname, **kwargs)]
    of line 44 accepts no keyword but [std], and the body raises. *)
Definition _recache {V : Type} (kwargs : list (string * Mapper.pyval))
  : result (list (sparse.csr_matrix V)) :=
  if forallb (fun kv => String.eqb (fst kv) "std") kwargs
  then Raise NotImplementedError else Raise TypeError.

End Gaussian.

(** ** Monte-Carlo kernels on convex polyhedra *)

Module ConvexNN.

(** Line 339: [pts.round().astype(int)[:, ::-1]], the rounded point with
    its axes reversed. *)
Definition round_point (p : point) : Z * Z * Z :=
  let '(x, y, z) := p in (np.around z, np.around y, np.around x).

(** Lines 340-343 *)
Definition valid_point (shape : grid) (c : Z * Z * Z) : bool :=
  let '(c0, c1, c2) := c in
  let '(n0, n1, n2) := shape in
  let d1 := ((0 <=? c0) && (c0 <? n0))%Z in
  let d2 := ((0 <=? c1) && (c1 <? n1))%Z in
  let d3 := ((0 <=? c2) && (c2 <? n2))%Z in
  d1 && (d2 && d3).

(** [Counter(idx).items()]: every distinct value with the number of its
    occurrences, in the order of first occurrence. *)
Fixpoint count_up (k : Z) (counts : list (Z * Z)) : list (Z * Z) :=
  match counts with
  | [] => [(k, 1%Z)]
  | (j, c) :: rest =>
      if (k =? j)%Z then (j, (c + 1)%Z) :: rest else (j, c) :: count_up k rest
  end.

Definition Counter (idx : list Z) : list (Z * Z) :=
  fold_left (fun counts k => count_up k counts) idx [].

(** [_sample], lines 338-347 *)
Definition _sample (shape : grid) (pts : list point)
  : result (option (list (Z * Z))) :=
  let coords := map round_point pts in
  let valid := map (valid_point shape) coords in
  if existsb (fun b : bool => b) valid then
    idx ← mapM (fun c => np.ravel_multi_index c shape) (np.compress valid coords);
    Ok (Some (Counter idx))
  else Ok (Some []).

End ConvexNN.

Module ConvexTrilin.

(** The names bound in the frame of [_sample] when line 376 runs. *)
Definition locals : list string :=
  ["self"; "pts"; "x"; "y"; "z"; "floor"; "ceil";
   "i000"; "i100"; "i010"; "i001"; "i101"; "i011"; "i110"; "i111";
   "v000"; "v100"; "v010"; "v110"; "v001"; "v101"; "v011"; "v111"]%string.

(** [_sample], lines 350-378.  Lines 351-374 compute corners and weights
    and raise nothing; line 376 reads [coords]; the function has no
    [return], so that a call that got to its end would give [None]. *)
Definition _sample (shape : grid) (pts : list point)
  : result (option (list (Z * Z))) :=
  if existsb (String.eqb "coords") (locals ++ Polyhedral.module_globals)
  then Ok None else Raise NameError.

End ConvexTrilin.

Module ConvexLanczos.

(** [_sample], lines 382-383 *)
Definition _sample (shape : grid) (pts : list point)
  : result (option (list (Z * Z))) :=
  Raise NotImplementedError.

End ConvexLanczos.

(** What a call of [ConvexPolyhedra._getmask] can raise: an exception of
    the list above or the [ZeroDivisionError] of line 330. *)
Inductive raised : Set :=
| Exn (e : exn)
| ZeroDivisionError.

Inductive outcome (A : Type) : Type :=
| Done (a : A)
| Failed (r : raised).
Arguments Done {A} a.
Arguments Failed {A} r.

Module ConvexPolyhedra.

(** [mask[i, idx] = value] on the stored entries of row [i]. *)
Fixpoint setitem (idx : Z) (value : Q) (row : list (Z * Q)) : list (Z * Q) :=
  match row with
  | [] => [(idx, value)]
  | (j, d) :: rest =>
      if (idx <? j)%Z then (idx, value) :: row
      else if (idx =? j)%Z then (j, value) :: rest
      else (j, d) :: setitem idx value rest
  end.

Section Kernel.

(** The collaborators: [polyutils.Surface(pia, polys).polyhedra(wm)],
    [polyutils.inside_convex_poly(pts)], the array of [np.random.rand(npts,
    3)], and the [_sample] of the class. *)
Variable polyhedra : list point -> list face -> list point
                     -> list (list point * list face).
Variable inside_convex_poly : list point -> point -> bool.
Variable rand : list point.
Variable _sample : list point -> result (option (list (Z * Z))).

(** Line 325: [rand * (pts.max(0) - pts.min(0)) + pts.min(0)] *)
Definition samples (pts : list point) : list point :=
  match pts with
  | [] => []
  | (x0, y0, z0) :: _ =>
      let xs := map (fun p => fst (fst p)) pts in
      let ys := map (fun p => snd (fst p)) pts in
      let zs := map snd pts in
      let scale (r lo hi : Q) := (r * (hi - lo) + lo)%Q in
      map (fun r => (scale (fst (fst r)) (Polyhedral.Qmin_list x0 xs)
                           (Polyhedral.Qmax_list x0 xs),
                     scale (snd (fst r)) (Polyhedral.Qmin_list y0 ys)
                           (Polyhedral.Qmax_list y0 ys),
                     scale (snd r) (Polyhedral.Qmin_list z0 zs)
                           (Polyhedral.Qmax_list z0 zs)))
          rand
  end.

(** [sum(inside)] *)
Definition count (inside : list bool) : Z :=
  Z.of_nat (length (List.filter (fun b : bool => b) inside)).

(** Line 330 for the items of [_sample], on the row [row] of a mask with
    [nrows] rows and [ncols] columns: an index outside the mask raises
    [IndexError], a negative column counts from the end. *)
Fixpoint assign (i : nat) (nrows ncols : Z) (ninside : Z)
         (items : list (Z * Z)) (row : list (Z * Q)) : outcome (list (Z * Q)) :=
  match items with
  | [] => Done row
  | (idx, value) :: rest =>
      if (ninside =? 0)%Z then Failed ZeroDivisionError
      else if negb (Z.of_nat i <? nrows)%Z then Failed (Exn IndexError)
      else if ((- ncols <=? idx) && (idx <? ncols))%Z
      then assign i nrows ncols ninside rest
                  (setitem (idx mod ncols) (inject_Z value / inject_Z ninside) row)
      else Failed (Exn IndexError)
  end.

(** Lines 323-330 for the polyhedron [i] *)
Definition fill (i : nat) (nrows ncols : Z) (pts : list point)
  : outcome (list (Z * Q)) :=
  match pts with
  | [] => Done []
  | _ =>
      let smp := samples pts in
      let inside := map (inside_convex_poly pts) smp in
      match _sample (np.compress inside smp) with
      | Raise e => Failed (Exn e)
      | Ok None => Failed (Exn TypeError)
      | Ok (Some items) => assign i nrows ncols (count inside) items []
      end
  end.

(** Lines 332-333 *)
Definition progress (i : nat) : list event :=
  if (Z.of_nat i mod 100 =? 0)%Z then [Print (str_Z (Z.of_nat i))] else [].

(** The loop of lines 322-333 from polyhedron [i] on; [rows] are the rows
    of the mask. *)
Fixpoint loop (i : nat) (nrows ncols : Z) (polys : list (list point * list face))
         (out : list event) (rows : list (list (Z * Q)))
  : list event * outcome (list (list (Z * Q))) :=
  match polys with
  | [] => (out, Done rows)
  | (pts, _) :: rest =>
      match fill i nrows ncols pts with
      | Done [] => loop (S i) nrows ncols rest (out ++ progress i) rows
      | Done row => loop (S i) nrows ncols rest (out ++ progress i) (<[i := row]> rows)
      | Failed r => (out, Failed r)
      end
  end.

(** [_getmask(self, pia, wm, polys, npts=1024)], lines 317-335 *)
Definition _getmask (shape : grid) (pia wm : list point) (polys : list face)
  : list event * outcome (sparse.csr_matrix Q) :=
  let nrows := Z.of_nat (length wm) in
  let ncols := np.prod shape in
  match loop 0 nrows ncols (polyhedra pia polys wm) [] (repeat [] (length wm)) with
  | (out, Done rows) => (out, Done (sparse.of_rows (nrows, ncols) rows))
  | (out, Failed r) => (out, Failed r)
  end.

End Kernel.

End ConvexPolyhedra.

(* ================================================================== *)
(** * Vocabulary of the statements *)

(** The integer [n] is a nearest integer of [q], and the ceiling of [q]
    when [q] lies exactly halfway between two integers. *)
Definition rounds_half_up (q : Q) (n : Z) : Prop :=
  (Qabs (q - inject_Z n) <= 1 # 2)%Q /\
  ((q - inject_Z (Qfloor q) == 1 # 2)%Q -> n = Qceiling q).

(** Every axis of the rounded coordinate is inside the grid. *)
Definition in_grid (shape : grid) (c : Z * Z * Z) : Prop :=
  let '(x, y, z) := c in
  let '(n0, n1, n2) := shape in
  (0 <= x < n2 /\ 0 <= y < n1 /\ 0 <= z < n0)%Z.

(** The COO triple of lines 183-184, one entry per valid vertex. *)
Fixpoint nearest_entries (shape : grid) (s : nat) (l : list (Z * Z * Z))
  : list (nat * Z * bool) :=
  match l with
  | [] => []
  | c :: l' =>
      if Nearest.valid_point shape c
      then (s, Nearest.ravelidx shape c, true) :: nearest_entries shape (S s) l'
      else nearest_entries shape (S s) l'
  end.

(** Sum of a list of rationals, and the row total as scipy accumulates it. *)
Definition Qsum (l : list Q) : Q := fold_right Qplus 0%Q l.

(** The entries of the rows [rows], numbered from [s]. *)
Fixpoint rows_entries {V : Type} (s : nat) (rows : list (list (Z * V)))
  : list (nat * Z * V) :=
  match rows with
  | [] => []
  | r :: rest => map (fun e => (s, fst e, snd e)) r ++ rows_entries (S s) rest
  end.

(** Line 233 on a real offset, inside the window. *)
Definition lanczos_kernel (w x : R) : R :=
  (sin (PI * x) * sin (PI * x / w) * (w / (PI * PI * (x * x))))%R.

(** Lines 230-234 on a real offset: the kernel inside the window, zero
    outside. *)
Definition lanczos_windowed (w x : R) : R :=
  if Rlt_dec (- w) x then if Rlt_dec x w then lanczos_kernel w x else 0%R
  else 0%R.

(** The kernel at the distance [y] from the vertex without its factor
    [sin (pi * y)], which changes sign from one voxel to the next. *)
Definition lanczos_envelope (w y : R) : R :=
  if Rlt_dec y w then (sin (PI * y / w) * (w / (PI * PI * (y * y))))%R else 0%R.

(** The sum of a list of real numbers. *)
Definition Rsum (l : list R) : R := fold_right Rplus 0%R l.

(** The weights that line 254 gives the voxels of the vertex [p]: the
    products of the nonzero kernel weights of the three axes.  Line 256
    divides them by their total. *)
Definition lanczos_weights (shape : grid) (window : Q) (p : point) : list fl :=
  let '(nZ, nY, nX) := shape in
  let '(x, y, z) := p in
  map (fun t => Fl.mul (Fl.mul (fst (fst t)) (snd (fst t))) (snd t))
      (Lanczos.product (Lanczos.support_vals (Lanczos.axis window nZ z))
                       (Lanczos.support_vals (Lanczos.axis window nY y))
                       (Lanczos.support_vals (Lanczos.axis window nX x))).

(** The claim of C8: the cache file does not depend on the order in which
    the parameters were supplied. *)
Definition key_ignores_parameter_order : Prop :=
  forall (projcache : list Mapper.segment) (xfmname class_name : string)
         (kw1 kw2 : list (string * Mapper.pyval)),
    Permutation kw1 kw2 ->
    Mapper.cachefile_of projcache xfmname class_name kw1
    = Mapper.cachefile_of projcache xfmname class_name kw2.

(** The text of one parameter in the key: ['%s%s'%(k,str(v))], line 22. *)
Definition parameter_text (kv : string * Mapper.pyval) : string :=
  (fst kv ++ Mapper.str (snd kv))%string.

(** A text with at least one character and without the separator [_] of
    line 22. *)
Definition plain (s : string) : bool :=
  (0 <? String.length s)%nat &&
  forallb (fun c => negb (Ascii.eqb c "_")) (list_ascii_of_string s).

(** The cache file is missing, or older than the transform file. *)
Definition missing_or_stale {V : Type} (fs : gmap string (@Mapper.file V))
           (cache : string) (tx : Q) : Prop :=
  fs !! cache = None \/
  exists f : Mapper.file, fs !! cache = Some f /\ (Mapper.st_mtime f < tx)%Q.

(** The claim of C6 on which inputs count as vertex data: those whose
    last axis has length [nverts], and no other. *)
Definition vertex_space_only_by_last_axis : Prop :=
  forall (m : @Mapper.t bool) (data : Mapper.ndarray Q),
    Mapper.is_vertex_space m data = true -> Mapper.last data = Mapper.nverts m.

(** The encodings that lines 103-120 accept: an array (the first of the
    two, for a pair) that has the length of the vertex set, or whose
    largest value is below it. *)
Definition recognized {V : Type} (m : @Mapper.t V) (verts : Mapper.verts_arg)
  : Prop :=
  let accepted (a : Mapper.array) (n : Z) :=
    Mapper.alen a = n \/
    exists top : Q, Mapper.amax a = Ok top /\ (top < inject_Z n)%Q in
  match verts with
  | Mapper.Single a => accepted a (Mapper.nverts m)
  | Mapper.Pair a _ => accepted a (fst (sparse.shape (fst (Mapper.masks m))))
  end.

(** The row of a vertex of the nearest-neighbour operator. *)
Definition nearest_row (shape : grid) (p : point) : list (Z * bool) :=
  if Nearest.valid_point shape (Nearest.round_point p)
  then [(Nearest.ravelidx shape (Nearest.round_point p), true)] else [].

(** Every voxel centre of an axis of [n] voxels is at least [window] away
    from the coordinate [c]. *)
Definition out_of_reach (window : Q) (n : Z) (c : Q) : Prop :=
  forall k : Z, (0 <= k < n)%Z -> (window <= Qabs (c - inject_Z k))%Q.

(** The object that lines 18-29 set up. *)
Definition base_of (subject xfmname cache : string) (n0 n1 n2 : Z) : Mapper.base :=
  Mapper.mk_base None subject xfmname cache (n2, n1, n0).

(** The arrays that lines 37-39 read before any matrix is made. *)
Definition read_first : list string :=
  ["left_data"; "left_indices"; "left_indptr";
   "right_data"; "right_indices"; "right_indptr"; "left_shape"]%string.

(** The sum of a list of integers. *)
Definition Zsum (l : list Z) : Z := fold_right Z.add 0%Z l.

(** The points that lines 339-343 find inside the grid, rounded. *)
Definition convexnn_valid (shape : grid) (pts : list point) : list (Z * Z * Z) :=
  List.filter (ConvexNN.valid_point shape) (map ConvexNN.round_point pts).

(** The values that line 330 stores for the items of a sampler. *)
Definition fractions (ninside : Z) (items : list (Z * Z)) : list (Z * Q) :=
  map (fun e => (fst e, (inject_Z (snd e) / inject_Z ninside)%Q)) items.

(** The samples of line 325 that line 327 finds inside the polyhedron. *)
Definition inside_samples (inside_convex_poly : list point -> point -> bool)
           (rand pts : list point) : list point :=
  List.filter (inside_convex_poly pts) (ConvexPolyhedra.samples rand pts).

(** For every voxel that a sample rounds into, the share of the samples
    that do. *)
Definition voxel_fractions (shape : grid) (smp : list point) : list (Z * Q) :=
  fractions (Z.of_nat (length smp))
            (ConvexNN.Counter (map (fun c => np.ravel c shape)
                                   (convexnn_valid shape smp))).

(** What a row of sample shares looks like: distinct voxels of the grid,
    positive weights, at most the whole mass. *)
Definition partial_distribution (ncols : Z) (row : list (Z * Q)) : Prop :=
  List.NoDup (map fst row) /\
  Forall (fun e => (0 <= fst e < ncols)%Z /\ (0 < snd e)%Q) row /\
  (Qsum (map snd row) <= 1)%Q.

(** The voxel of a flat index: the index along each axis of the grid, the
    triple that [np.ravel] sends to the flat index. *)
Definition unravel (shape : grid) (j : Z) : Z * Z * Z :=
  let '(_, n1, n2) := shape in ((j / n2) / n1, (j / n2) mod n1, j mod n2)%Z.

(** The mean of [g] over the voxels of a row, each with its weight. *)
Definition weighted (g : Z -> Q) (row : list (Z * Q)) : Q :=
  Qsum (map (fun e => snd e * g (fst e))%Q row).

(** No stored value of the operator counts as a negative number. *)
Definition nonnegative {V : Type} (number : V -> Q) (m : sparse.csr_matrix V) : Prop :=
  Forall (fun d => 0 <= number d)%Q (sparse.data m).

(* ================================================================== *)
(** * Properties *)

(** [lra] decides the goals over [Q]; this one those over [R]. *)
Ltac rlra := Lra.lra.

(** Rewrites to [true] the integer comparisons of the goal that [lia]
    proves from the context. *)
Ltac bounds_hold :=
  repeat match goal with
         | |- context [(?a <=? ?b)%Z] => rewrite (proj2 (Z.leb_le a b)) by lia
         | |- context [(?a <? ?b)%Z] => rewrite (proj2 (Z.ltb_lt a b)) by lia
         end.


Example nearest_round_ties :
  map Nearest.round_coord [1 # 2; 3 # 2; 5 # 2; -1 # 2; -3 # 2; 12 # 5; 13 # 5]%Q
  = [1; 2; 3; 0; -1; 2; 3]%Z.
Proof. reflexivity. Qed.

Example nearest_single_vertex :
  sparse.getrow (Nearest._getmask (10, 10, 10)%Z [(2, 3, 4)%Q] []) 0
  = [(432%Z, true)].
Proof. reflexivity. Qed.


(** ** Rounding *)

Lemma Qfloor_unique (x : Q) (n : Z) :
  (inject_Z n <= x)%Q -> (x < inject_Z (n + 1))%Q -> Qfloor x = n.
Proof.
  intros Hlo Hhi.
  pose proof (Qfloor_le x) as Hf.
  pose proof (Qlt_floor x) as Hc.
  assert (n < Qfloor x + 1)%Z as H1.
  { rewrite Zlt_Qlt. eapply Qle_lt_trans; eauto. }
  assert (Qfloor x < n + 1)%Z as H2.
  { rewrite Zlt_Qlt. eapply Qle_lt_trans; eauto. }
  lia.
Qed.

Lemma Qfloor_bounds (x : Q) :
  (inject_Z (Qfloor x) <= x)%Q /\ (x < inject_Z (Qfloor x) + 1)%Q.
Proof.
  split; [apply Qfloor_le|].
  pose proof (Qlt_floor x) as H. rewrite inject_Z_plus in H. exact H.
Qed.

Lemma Qceiling_unique (x : Q) (n : Z) :
  (inject_Z n - 1 < x)%Q -> (x <= inject_Z n)%Q -> Qceiling x = n.
Proof.
  intros Hlo Hhi. unfold Qceiling.
  rewrite (Qfloor_unique (- x) (- n)); [lia | |].
  - rewrite inject_Z_opp. lra.
  - rewrite inject_Z_plus, inject_Z_opp. change (inject_Z 1) with 1%Q. lra.
Qed.

Lemma ltb_spec (a b : Q) : np.ltb a b = true <-> (a < b)%Q.
Proof.
  unfold np.ltb. rewrite negb_true_iff. split.
  - intros H. apply Qnot_le_lt. intros Hle.
    apply Qle_bool_iff in Hle. congruence.
  - intros H. destruct (Qle_bool b a) eqn:E; [|reflexivity].
    apply Qle_bool_iff in E. lra.
Qed.

Lemma ltb_false (a b : Q) : np.ltb a b = false <-> (b <= a)%Q.
Proof.
  unfold np.ltb. rewrite negb_false_iff. apply Qle_bool_iff.
Qed.

(** Line 175 rounds every coordinate to the nearest integer, halves up. *)
Lemma round_coord_half_up (c : Q) :
  Nearest.round_coord c = Qfloor (c + (1 # 2)).
Proof.
  unfold Nearest.round_coord, np.remainder, np.ceil, np.around.
  destruct (Qfloor_bounds c) as [Hf1 Hf2].
  destruct (Qfloor_bounds (c / 2)) as [Hk1 Hk2].
  set (f := Qfloor c) in *. set (k := Qfloor (c / 2)) in *.
  assert (c / 2 == c * (1 # 2))%Q as Hhalf by (unfold Qdiv; reflexivity).
  rewrite Hhalf in Hk1, Hk2.
  destruct (Qeq_bool _ _) eqn:E.
  - apply Qeq_bool_iff in E.
    assert (c == inject_Z (2 * k + 1) - (1 # 2))%Q as Hc.
    { rewrite inject_Z_plus, inject_Z_mult.
      change (inject_Z 2) with 2%Q. change (inject_Z 1) with 1%Q. lra. }
    rewrite (Qceiling_unique c (2 * k + 1)) by lra.
    symmetry. apply Qfloor_unique.
    + lra.
    + rewrite inject_Z_plus. change (inject_Z 1) with 1%Q. lra.
  - apply Qeq_bool_neq in E.
    destruct (np.ltb (c - inject_Z f) (1 # 2)) eqn:E1.
    { apply ltb_spec in E1. symmetry. apply Qfloor_unique.
      - lra.
      - rewrite inject_Z_plus. change (inject_Z 1) with 1%Q. lra. }
    apply ltb_false in E1.
    destruct (np.ltb (1 # 2) (c - inject_Z f)) eqn:E2.
    { apply ltb_spec in E2. symmetry. apply Qfloor_unique.
      - rewrite inject_Z_plus. change (inject_Z 1) with 1%Q. lra.
      - rewrite !inject_Z_plus. change (inject_Z 1) with 1%Q. lra. }
    apply ltb_false in E2.
    destruct (Z.even f) eqn:Ev.
    + exfalso. apply E.
      apply Z.even_spec in Ev. destruct Ev as [m Hm].
      assert (k = m) as ->.
      { apply Qfloor_unique.
        - rewrite Hhalf. rewrite Hm, inject_Z_mult in Hf1.
          change (inject_Z 2) with 2%Q in Hf1. lra.
        - rewrite Hhalf, inject_Z_plus. change (inject_Z 1) with 1%Q.
          rewrite Hm, inject_Z_mult in E2.
          change (inject_Z 2) with 2%Q in E2. lra. }
      rewrite Hm, inject_Z_mult in E1, E2.
      change (inject_Z 2) with 2%Q in E1, E2. lra.
    + symmetry. apply Qfloor_unique.
      * rewrite inject_Z_plus. change (inject_Z 1) with 1%Q. lra.
      * rewrite !inject_Z_plus. change (inject_Z 1) with 1%Q. lra.
Qed.

(** ** Rows of a CSR matrix *)

Lemma lookup_map {A B} (f : A -> B) (l : list A) (i : nat) (a : A) :
  l !! i = Some a -> map f l !! i = Some (f a).
Proof.
  intros H. change (map f l) with (f <$> l).
  now rewrite list_lookup_fmap, H.
Qed.

Lemma nth_map_seq {A} (f : nat -> A) (n i : nat) (d : A) :
  (i < n)%nat -> nth i (map f (seq 0 n)) d = f i.
Proof.
  intros Hi.
  rewrite (nth_indep _ d (f 0%nat)) by (rewrite length_map, length_seq; exact Hi).
  rewrite (map_nth f (seq 0 n) 0%nat i), seq_nth by exact Hi. reflexivity.
Qed.

Section CsrRows.
Context {V : Type}.

Lemma row_ptrs_head (s : Z) (rows : list (list (Z * V))) :
  nth 0 (sparse.row_ptrs s rows) 0%Z = s.
Proof. destruct rows; reflexivity. Qed.

Lemma slice_app_exact {A} (pre r post : list A) :
  sparse.slice (pre ++ r ++ post) (Z.of_nat (length pre))
               (Z.of_nat (length pre) + Z.of_nat (length r)) = r.
Proof.
  unfold sparse.slice.
  replace (Z.to_nat (Z.of_nat (length pre) + Z.of_nat (length r)
                     - Z.of_nat (length pre))) with (length r) by lia.
  rewrite Nat2Z.id, drop_app_length. apply take_app_length.
Qed.

Lemma getrow_rows_from (rows : list (list (Z * V))) :
  forall (pre_i : list Z) (pre_d : list V) (i : nat),
    length pre_i = length pre_d ->
    (i < length rows)%nat ->
    let ptrs := sparse.row_ptrs (Z.of_nat (length pre_d)) rows in
    combine
      (sparse.slice (pre_i ++ concat (map (map fst) rows))
                    (nth i ptrs 0%Z) (nth (S i) ptrs 0%Z))
      (sparse.slice (pre_d ++ concat (map (map snd) rows))
                    (nth i ptrs 0%Z) (nth (S i) ptrs 0%Z))
    = nth i rows [].
Proof.
  induction rows as [|r rest IH]; intros pre_i pre_d i Hlen Hi; simpl in Hi.
  - lia.
  - destruct i as [|i]; simpl.
    + rewrite row_ptrs_head.
      rewrite <- (length_map snd r) at 2.
      rewrite slice_app_exact.
      rewrite <- Hlen. rewrite <- (length_map fst r).
      rewrite slice_app_exact.
      clear. induction r as [|[j d] r IHr]; simpl; [reflexivity|].
      now rewrite IHr.
    + specialize (IH (pre_i ++ map fst r) (pre_d ++ map snd r) i).
      rewrite !length_app, !length_map in IH.
      rewrite <- !app_assoc in IH.
      rewrite Nat2Z.inj_add in IH.
      apply IH; lia.
Qed.

Lemma getrow_of_rows (shp : Z * Z) (rows : list (list (Z * V))) (i : nat) :
  (i < length rows)%nat -> sparse.getrow (sparse.of_rows shp rows) i = nth i rows [].
Proof.
  intros Hi. unfold sparse.getrow, sparse.of_rows. simpl.
  apply (getrow_rows_from rows [] [] i eq_refl Hi).
Qed.

Lemma getrow_of_coo (add : V -> V -> V) (shp : Z * Z) (d : list V)
      (ij : list nat * list Z) (i : nat) :
  (i < Z.to_nat (fst shp))%nat ->
  sparse.getrow (sparse.of_coo add shp d ij) i
  = sparse.sum_duplicates add
      (sparse.coo_row i (combine (combine (fst ij) (snd ij)) d)).
Proof.
  intros Hi. unfold sparse.of_coo. cbv zeta.
  rewrite getrow_of_rows by (rewrite length_map, length_seq; exact Hi).
  exact (nth_map_seq
           (fun r => sparse.sum_duplicates add
                       (sparse.coo_row r (combine (combine (fst ij) (snd ij)) d)))
           _ i [] Hi).
Qed.

End CsrRows.

(** ** Nearest-neighbour kernel *)

Lemma round_coord_rounds_half_up (q : Q) :
  rounds_half_up q (Nearest.round_coord q).
Proof.
  rewrite round_coord_half_up.
  destruct (Qfloor_bounds (q + (1 # 2))) as [H1 H2].
  destruct (Qfloor_bounds q) as [H3 H4].
  split.
  - apply Qabs_Qle_condition. lra.
  - intros Hhalf.
    assert (Qfloor (q + (1 # 2)) = Qfloor q + 1)%Z as Hup.
    { apply Qfloor_unique; rewrite !inject_Z_plus;
        change (inject_Z 1) with 1%Q; lra. }
    rewrite Hup in *. rewrite inject_Z_plus in H1, H2.
    change (inject_Z 1) with 1%Q in H1, H2.
    symmetry. apply Qceiling_unique; rewrite inject_Z_plus;
      change (inject_Z 1) with 1%Q; lra.
Qed.

Lemma valid_point_spec (shape : grid) (c : Z * Z * Z) :
  Nearest.valid_point shape c = true <-> in_grid shape c.
Proof.
  destruct c as [[x y] z], shape as [[n0 n1] n2].
  unfold Nearest.valid_point, in_grid. simpl.
  rewrite !andb_true_iff, !Z.leb_le, !Z.ltb_lt. tauto.
Qed.

Lemma ravelidx_in_grid (shape : grid) (c : Z * Z * Z) :
  in_grid shape c ->
  Nearest.ravelidx shape c = np.ravel (snd c, snd (fst c), fst (fst c)) shape.
Proof.
  destruct c as [[x y] z], shape as [[n0 n1] n2]. simpl.
  intros (Hx & Hy & Hz). unfold np.clip.
  repeat match goal with
         | |- context [(?a <? ?b)%Z] => destruct (Z.ltb_spec a b); try lia
         | |- context [(?a <=? ?b)%Z] => destruct (Z.leb_spec a b); try lia
         end.
Qed.

Lemma nearest_coo_entries (shape : grid) (l : list (Z * Z * Z)) (s : nat) :
  let valid := map (Nearest.valid_point shape) l in
  let ravel := map (Nearest.ravelidx shape) l in
  combine (combine (np.nonzero_from s valid) (np.compress valid ravel))
          (repeat true (length (np.nonzero_from s valid)))
  = nearest_entries shape s l.
Proof.
  revert s. induction l as [|c l IH]; intros s; simpl; [reflexivity|].
  destruct (Nearest.valid_point shape c); simpl.
  - f_equal. apply IH.
  - apply IH.
Qed.

Lemma coo_row_cons {V} (v i : nat) (j : Z) (d : V) (es : list (nat * Z * V)) :
  sparse.coo_row v ((i, j, d) :: es)
  = if (i =? v)%nat then (j, d) :: sparse.coo_row v es else sparse.coo_row v es.
Proof.
  unfold sparse.coo_row. simpl. destruct (i =? v)%nat; reflexivity.
Qed.

Lemma nearest_entries_row (shape : grid) (l : list (Z * Z * Z)) :
  forall (s v : nat),
    sparse.coo_row v (nearest_entries shape s l)
    = if (s <=? v)%nat
      then match l !! (v - s)%nat with
           | Some c => if Nearest.valid_point shape c
                       then [(Nearest.ravelidx shape c, true)] else []
           | None => []
           end
      else [].
Proof.
  induction l as [|c l IH]; intros s v.
  - simpl. destruct (s <=? v)%nat; reflexivity.
  - assert (sparse.coo_row v
              (if Nearest.valid_point shape c
               then (s, Nearest.ravelidx shape c, true)
                      :: nearest_entries shape (S s) l
               else nearest_entries shape (S s) l)
            = (if (s =? v)%nat && Nearest.valid_point shape c
               then [(Nearest.ravelidx shape c, true)] else [])
              ++ sparse.coo_row v (nearest_entries shape (S s) l)) as Hstep.
    { destruct (Nearest.valid_point shape c).
      - rewrite coo_row_cons. destruct (s =? v)%nat; reflexivity.
      - rewrite andb_false_r. reflexivity. }
    change (nearest_entries shape s (c :: l))
      with (if Nearest.valid_point shape c
            then (s, Nearest.ravelidx shape c, true)
                   :: nearest_entries shape (S s) l
            else nearest_entries shape (S s) l).
    rewrite Hstep, IH. clear Hstep IH.
    destruct (Nat.eqb_spec s v) as [->|Hne].
    + assert ((S v <=? v)%nat = false) as -> by (apply Nat.leb_gt; lia).
      rewrite Nat.leb_refl, Nat.sub_diag, app_nil_r. reflexivity.
    + destruct (Nat.leb_spec s v) as [Hsv|Hsv].
      * assert ((S s <=? v)%nat = true) as -> by (apply Nat.leb_le; lia).
        replace (v - s)%nat with (S (v - S s)) by lia. reflexivity.
      * assert ((S s <=? v)%nat = false) as -> by (apply Nat.leb_gt; lia).
        reflexivity.
Qed.

Lemma nearest_getrow (shape : grid) (coords : list point) (polys : list face)
      (v : nat) (p : point) :
  coords !! v = Some p ->
  sparse.getrow (Nearest._getmask shape coords polys) v
  = if Nearest.valid_point shape (Nearest.round_point p)
    then [(Nearest.ravelidx shape (Nearest.round_point p), true)] else [].
Proof.
  intros Hp. unfold Nearest._getmask. cbv zeta.
  assert (v < length coords)%nat as Hv by (eapply lookup_lt_Some; eauto).
  rewrite getrow_of_coo by (simpl; lia).
  unfold np.nonzero. simpl fst. simpl snd.
  rewrite nearest_coo_entries, nearest_entries_row. simpl.
  rewrite Nat.sub_0_r.
  rewrite (lookup_map _ _ _ _ Hp).
  destruct (Nearest.valid_point shape (Nearest.round_point p)); reflexivity.
Qed.

(** C1.  Nearest-neighbour kernel ([Nearest._getmask], lines 172-186).
    Every component of a vertex coordinate is rounded to a nearest integer,
    a component exactly halfway between two integers to its ceiling.  The
    vertex is valid exactly when every rounded axis lies in [0, extent).  A
    valid vertex has one stored entry in its row, the value [true] at the
    flat index of the reversed coordinate (z, y, x) in the (Z, Y, X) grid,
    and every other cell of the row is [false]; the row of an invalid
    vertex is empty. *)
Theorem nearest_one_true_entry_per_valid_vertex
        (shape : grid) (coords : list point) (polys : list face)
        (v : nat) (x y z : Q) :
  coords !! v = Some (x, y, z) ->
  let rx := Nearest.round_coord x in
  let ry := Nearest.round_coord y in
  let rz := Nearest.round_coord z in
  let m := Nearest._getmask shape coords polys in
  (rounds_half_up x rx /\ rounds_half_up y ry /\ rounds_half_up z rz) /\
  (Nearest.valid_point shape (rx, ry, rz) = true <-> in_grid shape (rx, ry, rz)) /\
  (in_grid shape (rx, ry, rz) ->
   sparse.getrow m v = [(np.ravel (rz, ry, rx) shape, true)] /\
   forall j : Z,
     sparse.get false orb m v j = (j =? np.ravel (rz, ry, rx) shape)%Z) /\
  (~ in_grid shape (rx, ry, rz) ->
   sparse.getrow m v = [] /\
   forall j : Z, sparse.get false orb m v j = false).
Proof.
  intros Hp rx ry rz m.
  pose proof (nearest_getrow shape coords polys v _ Hp) as Hrow.
  fold m in Hrow. simpl Nearest.round_point in Hrow. fold rx ry rz in Hrow.
  split; [|split; [|split]].
  - repeat split; apply round_coord_rounds_half_up.
  - apply valid_point_spec.
  - intros Hin.
    pose proof (proj2 (valid_point_spec shape (rx, ry, rz)) Hin) as Hv.
    rewrite Hv in Hrow.
    rewrite (ravelidx_in_grid _ _ Hin) in Hrow. simpl in Hrow.
    split; [exact Hrow|].
    intros j. unfold sparse.get. rewrite Hrow. simpl.
    rewrite (Z.eqb_sym j). destruct (_ =? j)%Z; reflexivity.
  - intros Hout.
    destruct (Nearest.valid_point shape (rx, ry, rz)) eqn:Hv.
    + exfalso. apply Hout. now apply valid_point_spec.
    + split; [exact Hrow|].
      intros j. unfold sparse.get. rewrite Hrow. reflexivity.
Qed.

Lemma nearest_one_true_entry_witness :
  [(2, 3, 4)%Q] !! 0%nat = Some (2, 3, 4)%Q /\
  sparse.getrow (Nearest._getmask (10, 10, 10)%Z [(2, 3, 4)%Q] []) 0
  = [(np.ravel (4, 3, 2)%Z (10, 10, 10)%Z, true)].
Proof.
  split; [reflexivity|].
  apply (nearest_one_true_entry_per_valid_vertex
           (10, 10, 10)%Z [(2, 3, 4)%Q] [] 0 2 3 4 eq_refl).
  vm_compute. repeat split; discriminate.
Defined.

(** ** Trilinear kernel *)

Example trilinear_inner_vertex :
  map (fun e => (fst e, Qred (snd e)))
      (sparse.getrow (Trilinear._getmask (4, 4, 4)%Z [(3 # 2, 1, 5 # 2)%Q] []) 0)
  = [(37%Z, 1 # 4); (38%Z, 1 # 4); (41%Z, 0); (42%Z, 0);
     (53%Z, 1 # 4); (54%Z, 1 # 4); (57%Z, 0); (58%Z, 0)]%Q.
Proof. reflexivity. Qed.

(** A vertex on the last voxel of every axis: the clipped corners coincide
    and scipy sums their weights into one stored entry. *)
Example trilinear_clipped_vertex :
  map (fun e => (fst e, Qred (snd e)))
      (sparse.getrow (Trilinear._getmask (2, 2, 2)%Z [(1, 1, 3 # 2)%Q] []) 0)
  = [(7%Z, 1%Q)].
Proof. reflexivity. Qed.

Lemma total_Qsum_from (l : list Q) (a : Q) :
  (fold_left Qplus l a == a + Qsum l)%Q.
Proof.
  revert a. induction l as [|q l IH]; intros a; simpl.
  - ring.
  - rewrite IH. ring.
Qed.

Lemma total_Qsum (l : list Q) : (sparse.total 0%Q Qplus l == Qsum l)%Q.
Proof. unfold sparse.total. rewrite total_Qsum_from. ring. Qed.

Lemma Qsum_app (l k : list Q) : (Qsum (l ++ k) == Qsum l + Qsum k)%Q.
Proof.
  induction l as [|q l IH]; simpl.
  - ring.
  - rewrite IH. ring.
Qed.

Lemma accumulate_Qsum (j : Z) (d : Q) (row : list (Z * Q)) :
  (Qsum (map snd (sparse.accumulate Qplus j d row)) == Qsum (map snd row) + d)%Q.
Proof.
  induction row as [|[j' d'] row IH]; simpl.
  - ring.
  - destruct (j <? j')%Z; simpl; [ring|].
    destruct (j =? j')%Z; simpl; [ring|].
    rewrite IH. ring.
Qed.

Lemma sum_duplicates_Qsum (entries : list (Z * Q)) :
  (Qsum (map snd (sparse.sum_duplicates Qplus entries)) == Qsum (map snd entries))%Q.
Proof.
  unfold sparse.sum_duplicates.
  assert (forall acc : list (Z * Q),
             (Qsum (map snd (fold_left
                     (fun row e => sparse.accumulate Qplus (fst e) (snd e) row)
                     entries acc))
              == Qsum (map snd acc) + Qsum (map snd entries))%Q) as H.
  { induction entries as [|e entries IH]; intros acc; simpl.
    - ring.
    - rewrite IH, accumulate_Qsum. ring. }
  rewrite H. simpl. ring.
Qed.

(** ** COO triples listed vertex by vertex *)

Section RowsEntries.
Context {V : Type}.

Lemma coo_row_app (v : nat) (a b : list (nat * Z * V)) :
  sparse.coo_row v (a ++ b) = sparse.coo_row v a ++ sparse.coo_row v b.
Proof. unfold sparse.coo_row. now rewrite List.filter_app, map_app. Qed.

Lemma coo_row_tagged (v s : nat) (r : list (Z * V)) :
  sparse.coo_row v (map (fun e => (s, fst e, snd e)) r)
  = if (s =? v)%nat then r else [].
Proof.
  induction r as [|[j d] r IH]; simpl.
  - now destruct (s =? v)%nat.
  - rewrite coo_row_cons, IH. now destruct (s =? v)%nat.
Qed.

Lemma rows_entries_row (rows : list (list (Z * V))) :
  forall s v : nat,
    sparse.coo_row v (rows_entries s rows)
    = if (s <=? v)%nat then default [] (rows !! (v - s)%nat) else [].
Proof.
  induction rows as [|r rows IH]; intros s v.
  - simpl. now destruct (s <=? v)%nat.
  - simpl rows_entries. rewrite coo_row_app, coo_row_tagged, IH.
    destruct (Nat.eqb_spec s v) as [->|Hne].
    + assert ((S v <=? v)%nat = false) as -> by (apply Nat.leb_gt; lia).
      rewrite Nat.leb_refl, Nat.sub_diag, app_nil_r. reflexivity.
    + destruct (Nat.leb_spec s v) as [Hsv|Hsv].
      * assert ((S s <=? v)%nat = true) as -> by (apply Nat.leb_le; lia).
        replace (v - s)%nat with (S (v - S s)) by lia. reflexivity.
      * assert ((S s <=? v)%nat = false) as -> by (apply Nat.leb_gt; lia).
        reflexivity.
Qed.

End RowsEntries.

Lemma trilinear_coo_entries (shape : grid) (coords : list point) (s : nat) :
  combine (combine (flat_map (fun v => repeat v 8) (seq s (length coords)))
                   (flat_map (Trilinear.corners shape) coords))
          (flat_map Trilinear.weights coords)
  = rows_entries s
      (map (fun p => combine (Trilinear.corners shape p) (Trilinear.weights p))
           coords).
Proof.
  revert s. induction coords as [|[[x y] z] coords IH]; intros s.
  - reflexivity.
  - simpl length. simpl seq. simpl flat_map. simpl map.
    simpl rows_entries. rewrite <- IH. reflexivity.
Qed.

Lemma trilinear_getrow (shape : grid) (coords : list point) (polys : list face)
      (v : nat) (p : point) :
  coords !! v = Some p ->
  sparse.getrow (Trilinear._getmask shape coords polys) v
  = sparse.sum_duplicates Qplus
      (combine (Trilinear.corners shape p) (Trilinear.weights p)).
Proof.
  intros Hp. unfold Trilinear._getmask. cbv zeta.
  assert (v < length coords)%nat as Hv by (eapply lookup_lt_Some; eauto).
  rewrite getrow_of_coo by (simpl; lia).
  simpl fst. simpl snd.
  rewrite trilinear_coo_entries, rows_entries_row. simpl.
  rewrite Nat.sub_0_r.
  rewrite (lookup_map _ _ _ _ Hp). reflexivity.
Qed.

Lemma trilinear_weights_sum (p : point) : (Qsum (Trilinear.weights p) == 1)%Q.
Proof.
  destruct p as [[x y] z]. unfold Trilinear.weights, Qsum. simpl. ring.
Qed.

(** X1.  Every row of the trilinear operator sums to one: the eight corner
    weights are the products of [f] or [1 - f] per axis, and entries that
    clipping sends to one voxel are added up (lines 207-220). *)
Theorem trilinear_row_sums_to_one
        (shape : grid) (coords : list point) (polys : list face)
        (v : nat) (p : point) :
  coords !! v = Some p ->
  (sparse.row_sum 0%Q Qplus (Trilinear._getmask shape coords polys) v == 1)%Q.
Proof.
  intros Hp. unfold sparse.row_sum.
  rewrite total_Qsum, (trilinear_getrow _ _ _ _ _ Hp), sum_duplicates_Qsum.
  assert (map snd (combine (Trilinear.corners shape p) (Trilinear.weights p))
          = Trilinear.weights p) as ->.
  { destruct p as [[x y] z]. reflexivity. }
  apply trilinear_weights_sum.
Qed.

(** ** Lanczos kernel *)

Lemma Q2R_zero : Q2R 0 = 0%R.
Proof. unfold Q2R. simpl. apply Rmult_0_l. Qed.

Lemma Q2R_inject_Z (k : Z) : Q2R (inject_Z k) = IZR k.
Proof. unfold Q2R, inject_Z. simpl. rewrite Rinv_1. apply Rmult_1_r. Qed.

Lemma nonzero_fin_zero (r : R) : r = 0%R -> Fl.nonzero (Fin r) = false.
Proof. intros ->. simpl. destruct (Req_dec_T 0 0); [reflexivity|contradiction]. Qed.

Lemma div_fin (x y : R) : y <> 0%R -> Fl.div (Fin x) (Fin y) = Fin (x / y).
Proof. intros Hy. simpl. destruct (Req_dec_T y 0); [contradiction|reflexivity]. Qed.

Lemma div_pos_by_zero (x y : R) :
  (0 < x)%R -> y = 0%R -> Fl.div (Fin x) (Fin y) = PInf.
Proof.
  intros Hx ->. simpl. unfold Fl.sign_inf.
  destruct (Req_dec_T 0 0) as [_|E]; [|contradiction].
  destruct (Req_dec_T x 0) as [E|_]; [rlra|].
  destruct (Rlt_dec 0 x) as [_|E]; [reflexivity|contradiction].
Qed.

Lemma mul_zero_inf (x : R) : x = 0%R -> Fl.mul (Fin x) PInf = NaN.
Proof.
  intros ->. simpl. unfold Fl.sign_inf.
  destruct (Req_dec_T 0 0) as [_|E]; [reflexivity|contradiction].
Qed.

(** The kernel at offset zero: [0 * 0 * (window / 0)], which is [0 * inf]. *)
Lemma lanczos_at_zero (window x : Q) :
  (0 < window)%Q -> (x == 0)%Q -> Lanczos.lanczos window x = NaN.
Proof.
  intros Hw Hx. unfold Lanczos.lanczos.
  assert (np.ltb (Qabs x) window = true) as ->.
  { apply ltb_spec. rewrite Hx. exact Hw. }
  pose proof (Qeq_eqR _ _ Hx) as HX. rewrite Q2R_zero in HX. rewrite HX.
  assert (0 < Q2R window)%R as HW.
  { rewrite <- Q2R_zero. now apply Qlt_Rlt. }
  cbv zeta. cbn [Fl.mul Fl.sin].
  rewrite div_fin by rlra. cbn [Fl.mul Fl.sin].
  rewrite div_pos_by_zero by (try exact HW; ring).
  apply mul_zero_inf. rewrite Rmult_0_r, sin_0. ring.
Qed.

(** At an integer offset other than zero the real kernel is zero, inside
    the window because [sin (k * pi) = 0]. *)
Lemma lanczos_at_integer (window x : Q) (k : Z) :
  (x == inject_Z k)%Q -> k <> 0%Z ->
  Fl.nonzero (Lanczos.lanczos window x) = false.
Proof.
  intros Hx Hk. unfold Lanczos.lanczos.
  destruct (np.ltb (Qabs x) window) eqn:Hsel.
  2: { apply nonzero_fin_zero. reflexivity. }
  apply ltb_spec in Hsel.
  pose proof (Qeq_eqR _ _ Hx) as HX. rewrite Q2R_inject_Z in HX. rewrite HX.
  assert (0 < Q2R window)%R as HW.
  { rewrite <- Q2R_zero. apply Qlt_Rlt.
    eapply Qle_lt_trans; [apply Qabs_nonneg|exact Hsel]. }
  assert (IZR k <> 0)%R as HK by (now apply not_0_IZR).
  assert (PI * PI * (IZR k * IZR k) <> 0)%R as Hden.
  { assert (PI <> 0)%R as HPI by (apply Rgt_not_eq, PI_RGT_0).
    apply Rmult_integral_contrapositive_currified;
      apply Rmult_integral_contrapositive_currified; assumption. }
  cbv zeta. cbn [Fl.mul Fl.sin].
  rewrite div_fin by rlra. cbn [Fl.mul Fl.sin].
  rewrite div_fin by exact Hden. cbn [Fl.mul].
  apply nonzero_fin_zero.
  rewrite (sin_eq_0_1 (PI * IZR k)) by (exists k; ring). ring.
Qed.

(** A mask over [np.arange] that is true at [i] alone. *)
Lemma nonzero_one_hot (f : Z -> bool) (i : Z) (len : nat) :
  forall s : nat,
    (forall k : Z, (Z.of_nat s <= k < Z.of_nat (s + len))%Z -> f k = (k =? i)%Z) ->
    map Z.of_nat (np.nonzero_from s (map f (map Z.of_nat (seq s len))))
    = if ((Z.of_nat s <=? i) && (i <? Z.of_nat (s + len)))%Z then [i] else [].
Proof.
  induction len as [|len IH]; intros s Hf.
  - simpl. rewrite Nat.add_0_r.
    destruct (Z.leb_spec (Z.of_nat s) i), (Z.ltb_spec i (Z.of_nat s));
      simpl; try reflexivity; lia.
  - simpl seq. simpl map. simpl np.nonzero_from.
    rewrite (Hf (Z.of_nat s)) by lia.
    assert (map Z.of_nat (np.nonzero_from (S s) (map f (map Z.of_nat (seq (S s) len))))
            = if ((Z.of_nat (S s) <=? i) && (i <? Z.of_nat (S s + len)))%Z
              then [i] else []) as Hrest.
    { apply IH. intros k Hk. apply Hf. lia. }
    replace (S s + len)%nat with (s + S len)%nat in Hrest by lia.
    destruct (Z.eqb_spec (Z.of_nat s) i) as [Hi|Hi].
    + simpl map. rewrite Hrest. subst i.
      assert ((Z.of_nat (S s) <=? Z.of_nat s)%Z = false) as ->
          by (apply Z.leb_gt; lia).
      rewrite Z.leb_refl. simpl.
      assert ((Z.of_nat s <? Z.of_nat (s + S len))%Z = true) as ->
          by (apply Z.ltb_lt; lia).
      reflexivity.
    + rewrite Hrest.
      destruct (Z.leb_spec (Z.of_nat (S s)) i), (Z.leb_spec (Z.of_nat s) i);
        simpl; try reflexivity; lia.
Qed.

Lemma compress_one_hot {A} (f : Z -> bool) (g : Z -> A) (i : Z) (len : nat) :
  forall s : nat,
    (forall k : Z, (Z.of_nat s <= k < Z.of_nat (s + len))%Z -> f k = (k =? i)%Z) ->
    np.compress (map f (map Z.of_nat (seq s len))) (map g (map Z.of_nat (seq s len)))
    = if ((Z.of_nat s <=? i) && (i <? Z.of_nat (s + len)))%Z then [g i] else [].
Proof.
  induction len as [|len IH]; intros s Hf.
  - simpl. rewrite Nat.add_0_r.
    destruct (Z.leb_spec (Z.of_nat s) i), (Z.ltb_spec i (Z.of_nat s));
      simpl; try reflexivity; lia.
  - simpl seq. simpl map. simpl np.compress.
    rewrite (Hf (Z.of_nat s)) by lia.
    assert (np.compress (map f (map Z.of_nat (seq (S s) len)))
                        (map g (map Z.of_nat (seq (S s) len)))
            = if ((Z.of_nat (S s) <=? i) && (i <? Z.of_nat (S s + len)))%Z
              then [g i] else []) as Hrest.
    { apply IH. intros k Hk. apply Hf. lia. }
    replace (S s + len)%nat with (s + S len)%nat in Hrest by lia.
    destruct (Z.eqb_spec (Z.of_nat s) i) as [Hi|Hi].
    + rewrite Hrest. subst i.
      assert ((Z.of_nat (S s) <=? Z.of_nat s)%Z = false) as ->
          by (apply Z.leb_gt; lia).
      rewrite Z.leb_refl. simpl.
      assert ((Z.of_nat s <? Z.of_nat (s + S len))%Z = true) as ->
          by (apply Z.ltb_lt; lia).
      reflexivity.
    + rewrite Hrest.
      destruct (Z.leb_spec (Z.of_nat (S s)) i), (Z.leb_spec (Z.of_nat s) i);
        simpl; try reflexivity; lia.
Qed.

(** An axis on which the vertex sits exactly on the voxel centre [i]. *)
Lemma axis_on_voxel_centre (window c : Q) (n i : Z) :
  (0 < window)%Q -> (c == inject_Z i)%Q -> (0 <= i < n)%Z ->
  Lanczos.support (Lanczos.axis window n c) = [i] /\
  Lanczos.support_vals (Lanczos.axis window n c) = [NaN].
Proof.
  intros Hw Hc Hi.
  assert (forall k : Z,
             Fl.nonzero (Lanczos.lanczos window (c - inject_Z k)) = (k =? i)%Z)
    as Hnz.
  { intros k. destruct (Z.eqb_spec k i) as [->|Hne].
    - rewrite lanczos_at_zero; [reflexivity|exact Hw|]. rewrite Hc. ring.
    - apply (lanczos_at_integer _ _ (i - k)); [|lia].
      rewrite Hc. unfold Zminus. rewrite inject_Z_plus, inject_Z_opp. ring. }
  unfold Lanczos.support, Lanczos.support_vals, Lanczos.axis, np.arange, np.nonzero.
  rewrite (map_map (fun k => Lanczos.lanczos window (c - inject_Z k)) Fl.nonzero).
  split.
  - rewrite (nonzero_one_hot _ i) by (intros; apply Hnz).
    simpl. rewrite Z2Nat.id by lia. bounds_hold. reflexivity.
  - rewrite (compress_one_hot _ _ i) by (intros; apply Hnz).
    simpl. rewrite Z2Nat.id by lia. bounds_hold. simpl.
    rewrite lanczos_at_zero; [reflexivity|exact Hw|]. rewrite Hc. ring.
Qed.

Lemma lanczos_row_on_voxel_centre
      (shape : grid) (window : Q) (renorm : bool) (x y z : Q) (i j k : Z) :
  (0 < window)%Q ->
  (x == inject_Z i)%Q -> (y == inject_Z j)%Q -> (z == inject_Z k)%Q ->
  in_grid shape (i, j, k) ->
  Lanczos.row shape window renorm (x, y, z) = [(np.ravel (k, j, i) shape, NaN)].
Proof.
  intros Hw Hx Hy Hz Hin. destruct shape as [[nZ nY] nX].
  destruct Hin as (Hi & Hj & Hk).
  unfold Lanczos.row.
  destruct (axis_on_voxel_centre window x nX i Hw Hx Hi) as [-> ->].
  destruct (axis_on_voxel_centre window y nY j Hw Hy Hj) as [-> ->].
  destruct (axis_on_voxel_centre window z nZ k Hw Hz Hk) as [-> ->].
  assert (Lanczos.ravel_all (Lanczos.product [k] [j] [i]) (nZ, nY, nX)
          = Ok [np.ravel (k, j, i) (nZ, nY, nX)]) as ->.
  { unfold Lanczos.ravel_all, Lanczos.product. simpl.
    unfold np.in_axis. bounds_hold. reflexivity. }
  destruct renorm; reflexivity.
Qed.

(** C2.  The claim is that the rows of the trilinear operator and of the
    renormalised Lanczos operator sum to one for a vertex inside the grid.
    The trilinear rows do ([trilinear_row_sums_to_one]).  The Lanczos row
    of a vertex that sits on a voxel centre does not: the weight of that
    voxel is [0 * 0 * (window / 0)], not a number, and so is the sum of the
    row, with or without renormalisation (lines 233, 256). *)
Theorem lanczos_row_not_a_number_on_voxel_centre
        (shape : grid) (coords : list point) (polys : list face)
        (window : Q) (renorm : bool) (v : nat) (x y z : Q) (i j k : Z) :
  coords !! v = Some (x, y, z) ->
  (0 < window)%Q ->
  (x == inject_Z i)%Q -> (y == inject_Z j)%Q -> (z == inject_Z k)%Q ->
  in_grid shape (i, j, k) ->
  exists m : sparse.csr_matrix fl,
    snd (Lanczos._getmask true shape coords polys window renorm) = Ok m /\
    sparse.get (Fin 0) Fl.add m v (np.ravel (k, j, i) shape) = NaN /\
    sparse.row_sum (Fin 0) Fl.add m v = NaN /\
    sparse.row_sum (Fin 0) Fl.add m v <> Fin 1.
Proof.
  intros Hp Hw Hx Hy Hz Hin.
  eexists. split; [reflexivity|].
  assert (v < length coords)%nat as Hv by (eapply lookup_lt_Some; eauto).
  assert (sparse.getrow
            (sparse.of_rows (Z.of_nat (length coords), np.prod shape)
                            (map (Lanczos.row shape window renorm) coords)) v
          = [(np.ravel (k, j, i) shape, NaN)]) as Hrow.
  { rewrite getrow_of_rows by (rewrite length_map; exact Hv).
    apply nth_lookup_Some.
    rewrite (lookup_map _ _ _ _ Hp). f_equal.
    now apply lanczos_row_on_voxel_centre. }
  unfold sparse.get, sparse.row_sum. rewrite Hrow. simpl.
  rewrite Z.eqb_refl. simpl. repeat split; discriminate.
Qed.

Lemma lanczos_row_not_a_number_witness :
  ([(1, 1, 1)%Q] !! 0%nat = Some (1, 1, 1)%Q /\ (0 < 3)%Q /\
   (1 == inject_Z 1)%Q /\ in_grid (3, 3, 3)%Z (1, 1, 1)%Z) /\
  exists m : sparse.csr_matrix fl,
    snd (Lanczos._getmask true (3, 3, 3)%Z [(1, 1, 1)%Q] [] 3 true) = Ok m /\
    sparse.get (Fin 0) Fl.add m 0 13 = NaN /\
    sparse.row_sum (Fin 0) Fl.add m 0 = NaN /\
    sparse.row_sum (Fin 0) Fl.add m 0 <> Fin 1.
Proof.
  assert ([(1, 1, 1)%Q] !! 0%nat = Some (1, 1, 1)%Q) as H1 by reflexivity.
  assert (0 < 3)%Q as H2 by reflexivity.
  assert (1 == inject_Z 1)%Q as H3 by reflexivity.
  assert (in_grid (3, 3, 3)%Z (1, 1, 1)%Z) as H4 by (simpl; lia).
  split; [exact (conj H1 (conj H2 (conj H3 H4)))|].
  exact (lanczos_row_not_a_number_on_voxel_centre
           (3, 3, 3)%Z [(1, 1, 1)%Q] [] 3 true 0 1 1 1 1 1 1 H1 H2 H3 H3 H3 H4).
Defined.

(** ** The breakpoint of the Lanczos kernel *)

(** C10.  The claim is that no kernel enters an interactive debugger.
    [Lanczos._getmask] does (lines 240-241): where [ipdb] can be imported
    the call imports it and enters [ipdb.set_trace()] before it builds any
    row, for every input; where it cannot, the call raises [ImportError]
    and returns no operator. *)
Theorem lanczos_enters_debugger
        (shape : grid) (coords : list point) (polys : list face)
        (window : Q) (renorm : bool) :
  (exists rest : list event,
      fst (Lanczos._getmask true shape coords polys window renorm)
      = Import "ipdb" :: SetTrace :: rest) /\
  Lanczos._getmask false shape coords polys window renorm
  = ([], Raise ImportError).
Proof.
  split; [|reflexivity].
  eexists. reflexivity.
Qed.

(** ** Renormalisation of a row *)

Lemma sum_fin_from (rs : list R) (a : R) :
  fold_left Fl.add (map Fin rs) (Fin a) = Fin (fold_left Rplus rs a).
Proof.
  revert a. induction rs as [|r rs IH]; intros a; simpl; [reflexivity|].
  apply IH.
Qed.

Lemma fold_left_Rplus_scale (rs : list R) (a s : R) :
  (fold_left Rplus (map (fun r => r / s) rs) (a / s)
   = fold_left Rplus rs a / s)%R.
Proof.
  revert a. induction rs as [|r rs IH]; intros a; simpl; [reflexivity|].
  rewrite <- IH. f_equal. unfold Rdiv. ring.
Qed.

(** X2.  Where the weights are finite and their total is not zero, line 256
    makes them sum to one. *)
Lemma renorm_vals_sums_to_one (rs : list R) :
  fold_left Rplus rs 0%R <> 0%R ->
  Fl.sum (Lanczos.renorm_vals (map Fin rs)) = Fin 1.
Proof.
  intros Hs. unfold Lanczos.renorm_vals, Fl.sum.
  rewrite sum_fin_from.
  set (s := fold_left Rplus rs 0%R) in *.
  rewrite map_map.
  assert (map (fun r => Fl.div (Fin r) (Fin s)) rs
          = map Fin (map (fun r => (r / s)%R) rs)) as ->.
  { rewrite map_map. apply map_ext. intros r. now apply div_fin. }
  rewrite sum_fin_from. f_equal.
  replace 0%R with (0 / s)%R at 1 by (unfold Rdiv; ring).
  rewrite fold_left_Rplus_scale. fold s. now apply Rinv_r.
Qed.

Lemma product_nil_r {A} (a b : list A) : Lanczos.product a b [] = [].
Proof.
  unfold Lanczos.product.
  induction a as [|x a IH]; [reflexivity|].
  cbn [flat_map]. rewrite IH, app_nil_r. clear. now induction b.
Qed.

Lemma product_nil_m {A} (a c : list A) : Lanczos.product a [] c = [].
Proof. unfold Lanczos.product. now induction a. Qed.

Lemma lanczos_outside_window (window x : Q) :
  (window <= Qabs x)%Q -> Lanczos.lanczos window x = Fin 0.
Proof.
  intros H. unfold Lanczos.lanczos.
  assert (np.ltb (Qabs x) window = false) as -> by now apply ltb_false.
  reflexivity.
Qed.

(** A vertex three voxels or more away from the grid along x: no weight
    on that axis is nonzero and its row stays empty. *)
Example lanczos_far_vertex_row_empty :
  Lanczos.row (3, 3, 3)%Z 3 true (10, 1, 1)%Q = [].
Proof.
  assert (Lanczos.support (Lanczos.axis 3 3 10) = []) as Hx.
  { unfold Lanczos.axis. change (np.arange 3) with [0; 1; 2]%Z. cbn [map].
    rewrite !lanczos_outside_window by (vm_compute; discriminate).
    unfold Lanczos.support. cbn [map].
    rewrite (nonzero_fin_zero 0 eq_refl). reflexivity. }
  unfold Lanczos.row. rewrite Hx, product_nil_r. reflexivity.
Qed.

(** ** Lanczos kernel: the total of the weights of a vertex *)

Section KernelOverTheReals.
Local Open Scope R_scope.

Lemma x_cos_lt_sin (u : R) : 0 < u -> u < PI -> u * cos u < sin u.
Proof.
  intros H0 H1.
  destruct (MVT_cor2 (sin - id * cos)%F (fun t => t * sin t) 0 u H0)
    as (c & Hc & Hc0 & Hc1).
  - intros t _.
    replace (t * sin t) with (cos t - (1 * cos t + id t * (- sin t)))
      by (unfold id; ring).
    apply derivable_pt_lim_minus; [apply derivable_pt_lim_sin|].
    apply derivable_pt_lim_mult;
      [apply derivable_pt_lim_id|apply derivable_pt_lim_cos].
  - unfold minus_fct, mult_fct, id in Hc.
    rewrite sin_0, Rmult_0_l, !Rminus_0_r in Hc.
    assert (0 < sin c) by (apply sin_gt_0; rlra).
    assert (0 < c * sin c * u).
    { apply Rmult_lt_0_compat; [apply Rmult_lt_0_compat|]; rlra. }
    rlra.
Qed.

(** [sin t / t^2] decreases over a step of the grid: one voxel further
    from the vertex the kernel is smaller. *)
Lemma kernel_step (th y : R) :
  0 < th -> 0 < y -> th * (y + 1) < PI ->
  y * y * sin (th * (y + 1)) < (y + 1) * (y + 1) * sin (th * y).
Proof.
  intros Hth Hy Hlt.
  set (u := th * y).
  assert (0 < u) as Hu by (apply Rmult_lt_0_compat; rlra).
  assert (th * (y + 1) = u + th) as -> by (unfold u; ring).
  assert (u + th < PI) as Hv by (unfold u; rlra).
  rewrite sin_plus.
  assert (0 < sin u) as Hsu by (apply sin_gt_0; rlra).
  assert (0 < sin th) as Hsth by (apply sin_gt_0; rlra).
  assert (sin th < th) as Hs1 by (apply sin_lt_x; rlra).
  assert (cos th <= 1) as Hc1 by (apply COS_bound).
  assert (y * (cos u * sin th) < sin u) as Hkey.
  { destruct (Rle_dec (cos u) 0) as [Hneg|Hpos].
    - assert (cos u * sin th <= 0).
      { rewrite <- (Rmult_0_l (sin th)). apply Rmult_le_compat_r; rlra. }
      assert (y * (cos u * sin th) <= 0).
      { rewrite <- (Rmult_0_r y). apply Rmult_le_compat_l; rlra. }
      rlra.
    - assert (0 < cos u) as Hcu by rlra.
      assert (cos u * sin th < cos u * th) by (apply Rmult_lt_compat_l; rlra).
      assert (y * (cos u * sin th) < y * (cos u * th))
        by (apply Rmult_lt_compat_l; rlra).
      assert (y * (cos u * th) = u * cos u) as E by (unfold u; ring).
      pose proof (x_cos_lt_sin u Hu ltac:(rlra)). rlra. }
  assert (sin u * cos th <= sin u) as H1.
  { rewrite <- (Rmult_1_r (sin u)) at 2. apply Rmult_le_compat_l; rlra. }
  assert (y * y * (sin u * cos th) <= y * y * sin u) as H2.
  { apply Rmult_le_compat_l; [|exact H1]. apply Rmult_le_pos; rlra. }
  assert (y * (y * (cos u * sin th)) < y * sin u) as H3.
  { apply Rmult_lt_compat_l; rlra. }
  assert (0 < sin u * (y + 1)) by (apply Rmult_lt_0_compat; rlra).
  Lra.nra.
Qed.

Lemma Rsum_app (l k : list R) : Rsum (l ++ k) = Rsum l + Rsum k.
Proof. induction l as [|a l IH]; simpl; [ring|]. rewrite IH. ring. Qed.

Lemma windowed_right (w y : R) :
  0 < y -> lanczos_windowed w y = sin (PI * y) * lanczos_envelope w y.
Proof.
  intros Hy. unfold lanczos_windowed, lanczos_envelope.
  destruct (Rlt_dec y w) as [Hlt|Hge].
  - destruct (Rlt_dec (- w) y) as [_|H]; [|rlra]. unfold lanczos_kernel. ring.
  - destruct (Rlt_dec (- w) y); ring.
Qed.

Lemma windowed_left (w y : R) :
  0 < y -> lanczos_windowed w (- y) = sin (PI * y) * lanczos_envelope w y.
Proof.
  intros Hy. unfold lanczos_windowed, lanczos_envelope.
  destruct (Rlt_dec y w) as [Hlt|Hge].
  - destruct (Rlt_dec (- w) (- y)) as [_|H]; [|rlra].
    destruct (Rlt_dec (- y) w) as [_|H]; [|rlra].
    unfold lanczos_kernel.
    replace (PI * - y) with (- (PI * y)) by ring.
    replace (- (PI * y) / w) with (- (PI * y / w)) by (unfold Rdiv; ring).
    rewrite !sin_neg.
    replace (- y * - y) with (y * y) by ring. ring.
  - destruct (Rlt_dec (- w) (- y)) as [H|_]; [rlra|]. ring.
Qed.

Lemma envelope_pos (w y : R) : 0 < y -> y < w -> 0 < lanczos_envelope w y.
Proof.
  intros Hy Hlt. unfold lanczos_envelope.
  destruct (Rlt_dec y w) as [_|H]; [|rlra].
  assert (0 < w) as Hw by rlra.
  assert (0 < PI) as Hpi by apply PI_RGT_0.
  apply Rmult_lt_0_compat.
  - apply sin_gt_0.
    + unfold Rdiv. apply Rmult_lt_0_compat; [apply Rmult_lt_0_compat; rlra|].
      now apply Rinv_0_lt_compat.
    + apply (Rmult_lt_reg_r w); [exact Hw|].
      unfold Rdiv. rewrite Rmult_assoc, Rinv_l by rlra. rewrite Rmult_1_r.
      apply Rmult_lt_compat_l; rlra.
  - unfold Rdiv. apply Rmult_lt_0_compat; [exact Hw|].
    apply Rinv_0_lt_compat.
    apply Rmult_lt_0_compat; apply Rmult_lt_0_compat; rlra.
Qed.

Lemma envelope_nonneg (w y : R) : 0 < y -> 0 <= lanczos_envelope w y.
Proof.
  intros Hy. destruct (Rlt_dec y w) as [Hlt|Hge].
  - left. now apply envelope_pos.
  - unfold lanczos_envelope. destruct (Rlt_dec y w); [contradiction|rlra].
Qed.

Lemma envelope_zero (w y : R) : 0 < y -> lanczos_envelope w y = 0 -> w <= y.
Proof.
  intros Hy H. destruct (Rlt_dec y w) as [Hlt|Hge]; [|rlra].
  pose proof (envelope_pos w y Hy Hlt). rlra.
Qed.

Lemma envelope_step (w y : R) :
  0 < y ->
  lanczos_envelope w (y + 1) <= lanczos_envelope w y /\
  (0 < lanczos_envelope w y -> lanczos_envelope w (y + 1) < lanczos_envelope w y).
Proof.
  intros Hy.
  destruct (Rlt_dec (y + 1) w) as [Hlt|Hge].
  - assert (lanczos_envelope w (y + 1) < lanczos_envelope w y) as H;
      [|split; [rlra|intros _; exact H]].
    unfold lanczos_envelope.
    destruct (Rlt_dec (y + 1) w) as [_|H]; [|rlra].
    destruct (Rlt_dec y w) as [_|H]; [|rlra].
    assert (0 < w) as Hw by rlra.
    assert (0 < PI) as Hpi by apply PI_RGT_0.
    pose proof (kernel_step (PI / w) y) as Hk.
    assert (0 < PI / w) as Hth.
    { unfold Rdiv. apply Rmult_lt_0_compat; [rlra|now apply Rinv_0_lt_compat]. }
    assert (PI / w * (y + 1) < PI) as Hb.
    { apply (Rmult_lt_reg_r w); [exact Hw|].
      replace (PI / w * (y + 1) * w) with (PI * (y + 1)) by (field; rlra).
      apply Rmult_lt_compat_l; rlra. }
    specialize (Hk Hth Hy Hb).
    replace (PI * (y + 1) / w) with (PI / w * (y + 1)) by (field; rlra).
    replace (PI * y / w) with (PI / w * y) by (field; rlra).
    set (sv := sin (PI / w * (y + 1))) in *.
    set (su := sin (PI / w * y)) in *.
    set (C := w / (PI * PI * (y * y) * ((y + 1) * (y + 1)))).
    assert (0 < C) as HC.
    { unfold C, Rdiv. apply Rmult_lt_0_compat; [exact Hw|].
      apply Rinv_0_lt_compat.
      apply Rmult_lt_0_compat; [apply Rmult_lt_0_compat|];
        apply Rmult_lt_0_compat; rlra. }
    replace (sv * (w / (PI * PI * ((y + 1) * (y + 1)))))
      with (C * (y * y * sv)) by (unfold C; field; rlra).
    replace (su * (w / (PI * PI * (y * y))))
      with (C * ((y + 1) * (y + 1) * su)) by (unfold C; field; rlra).
    apply Rmult_lt_compat_l; assumption.
  - assert (lanczos_envelope w (y + 1) = 0) as E.
    { unfold lanczos_envelope.
      destruct (Rlt_dec (y + 1) w); [contradiction|reflexivity]. }
    rewrite E. split; [now apply envelope_nonneg|intros H; exact H].
Qed.

Lemma sin_pi_succ (y : R) : sin (PI * (y + 1)) = - sin (PI * y).
Proof. replace (PI * (y + 1)) with (PI * y + PI) by ring. apply neg_sin. Qed.

(** The voxels from [s] on, all beyond the vertex: their weights alternate
    in sign and shrink, so their sum has the sign of the first and is no
    larger. *)
Lemma sum_beyond_vertex (w c : R) :
  forall (m s : nat),
    c < INR s ->
    exists A,
      Rsum (map (fun k => lanczos_windowed w (c - INR k)) (seq s m))
      = sin (PI * (INR s - c)) * A /\
      0 <= A <= lanczos_envelope w (INR s - c) /\
      ((1 <= m)%nat -> 0 < lanczos_envelope w (INR s - c) -> 0 < A).
Proof.
  induction m as [|m IH]; intros s Hs.
  - exists 0. simpl. pose proof (envelope_nonneg w (INR s - c) ltac:(rlra)).
    split; [ring|split; [rlra|intros H'; lia]].
  - destruct (IH (S s)) as (A' & Hsum & [HA0 HA1] & _).
    { rewrite S_INR. rlra. }
    rewrite S_INR in Hsum, HA1.
    replace (INR s + 1 - c) with (INR s - c + 1) in Hsum, HA1 by ring.
    rewrite sin_pi_succ in Hsum.
    destruct (envelope_step w (INR s - c) ltac:(rlra)) as [Hle Hlt].
    exists (lanczos_envelope w (INR s - c) - A').
    split; [|split; [rlra|intros _ Hpos; specialize (Hlt Hpos); rlra]].
    cbn [seq map Rsum fold_right]. change (fold_right Rplus 0) with Rsum.
    rewrite Hsum.
    replace (c - INR s) with (- (INR s - c)) by ring.
    rewrite windowed_left by rlra. ring.
Qed.

(** The first [p] voxels, all before the vertex: the same, seen from the
    last of them. *)
Lemma sum_before_vertex (w c : R) :
  forall p : nat,
    INR p < c + 1 ->
    exists B,
      Rsum (map (fun k => lanczos_windowed w (c - INR k)) (seq 0 p))
      = sin (PI * (c - INR p + 1)) * B /\
      0 <= B <= lanczos_envelope w (c - INR p + 1) /\
      ((1 <= p)%nat -> 0 < lanczos_envelope w (c - INR p + 1) -> 0 < B).
Proof.
  induction p as [|p IH]; intros Hp.
  - exists 0. simpl in *. pose proof (envelope_nonneg w (c - 0 + 1) ltac:(rlra)).
    split; [ring|split; [rlra|intros H'; lia]].
  - rewrite S_INR in Hp. destruct (IH ltac:(rlra)) as (B' & Hsum & [HB0 HB1] & _).
    rewrite S_INR.
    replace (c - (INR p + 1) + 1) with (c - INR p) by ring.
    rewrite sin_pi_succ in Hsum.
    destruct (envelope_step w (c - INR p) ltac:(rlra)) as [Hle Hlt].
    exists (lanczos_envelope w (c - INR p) - B').
    split; [|split; [rlra|intros _ Hpos; specialize (Hlt Hpos); rlra]].
    rewrite seq_S, map_app, Rsum_app, Hsum. simpl.
    rewrite windowed_right by rlra. ring.
Qed.

Lemma sin_pi_between (x : R) (f : Z) : IZR f < x < IZR f + 1 -> sin (PI * x) <> 0.
Proof.
  intros [H1 H2] Hs. apply sin_eq_0_0 in Hs. destruct Hs as [k Hk].
  assert (x = IZR k) as ->.
  { pose proof PI_RGT_0. apply (Rmult_eq_reg_l PI); [|rlra]. rewrite Hk. ring. }
  apply lt_IZR in H1. rewrite <- (plus_IZR f 1) in H2. apply lt_IZR in H2. lia.
Qed.

Lemma windowed_far (w y x : R) :
  0 < y -> w <= y -> (y <= x \/ x <= - y) -> lanczos_windowed w x = 0.
Proof.
  intros Hy Hw Hx. unfold lanczos_windowed.
  destruct (Rlt_dec (- w) x); [|reflexivity].
  destruct (Rlt_dec x w); [|reflexivity]. rlra.
Qed.

(** The kernel weights of an axis cannot cancel: for a coordinate that is
    not an integer their sum is zero only where every one of them is. *)
Lemma axis_sum_zero (w c : R) (f : Z) (n : nat) :
  IZR f < c < IZR f + 1 ->
  Rsum (map (fun k => lanczos_windowed w (c - INR k)) (seq 0 n)) = 0 ->
  forall k : nat, (k < n)%nat -> lanczos_windowed w (c - INR k) = 0.
Proof.
  intros Hc Hsum k Hk.
  assert (forall j : nat, INR j = IZR (Z.of_nat j)) as HINR by apply INR_IZR_INZ.
  destruct (Z_lt_le_dec f 0) as [Hneg|Hpos].
  - (* the vertex is before the first voxel *)
    assert (c < 0) as Hc0.
    { assert (IZR f + 1 <= 0); [|rlra].
      rewrite <- (plus_IZR f 1). apply IZR_le. lia. }
    destruct (sum_beyond_vertex w c n 0%nat) as (A & HA & [HA0 HA1] & HApos);
      [simpl; rlra|].
    rewrite Hsum in HA. simpl INR in *.
    assert (sin (PI * (0 - c)) <> 0) as Hs.
    { apply (sin_pi_between _ (- f - 1)).
      rewrite minus_IZR, opp_IZR. rlra. }
    assert (A = 0) as HA'.
    { symmetry in HA. apply Rmult_integral in HA. tauto. }
    assert (lanczos_envelope w (0 - c) = 0) as He.
    { destruct (Rle_lt_or_eq_dec _ _ (envelope_nonneg w (0 - c) ltac:(rlra)))
        as [Hp|E]; [|now symmetry].
      specialize (HApos ltac:(lia) Hp). rlra. }
    apply envelope_zero in He; [|rlra].
    apply (windowed_far w (0 - c)); [rlra|exact He|].
    right. pose proof (pos_INR k). rlra.
  - (* the vertex is after the first voxel *)
    set (q := S (Z.to_nat f)).
    assert (INR q = IZR f + 1) as Hq.
    { unfold q. rewrite S_INR, HINR, Z2Nat.id by lia. reflexivity. }
    destruct (le_lt_dec n q) as [Hle|Hgt].
    + destruct (sum_before_vertex w c n) as (B & HB & [HB0 HB1] & HBpos).
      { apply le_INR in Hle. rlra. }
      rewrite Hsum in HB.
      assert (sin (PI * (c - INR n + 1)) <> 0) as Hs.
      { apply (sin_pi_between _ (f - Z.of_nat n + 1)).
        rewrite plus_IZR, minus_IZR, <- HINR. rlra. }
      assert (B = 0) as HB'.
      { symmetry in HB. apply Rmult_integral in HB. tauto. }
      assert (0 < c - INR n + 1) as HD by (apply le_INR in Hle; rlra).
      assert (lanczos_envelope w (c - INR n + 1) = 0) as He.
      { destruct (Rle_lt_or_eq_dec _ _ (envelope_nonneg w _ HD)) as [Hp|E];
          [|now symmetry].
        specialize (HBpos ltac:(lia) Hp). rlra. }
      apply envelope_zero in He; [|exact HD].
      apply (windowed_far w (c - INR n + 1)); [exact HD|exact He|].
      left. assert (INR k + 1 <= INR n); [|rlra].
      rewrite <- S_INR. apply le_INR. lia.
    + replace n with (q + (n - q))%nat in Hsum by lia.
      rewrite seq_app, map_app, Rsum_app in Hsum. simpl Nat.add in Hsum.
      destruct (sum_before_vertex w c q) as (B & HB & [HB0 HB1] & HBpos); [rlra|].
      destruct (sum_beyond_vertex w c (n - q) q) as (A & HA & [HA0 HA1] & HApos);
        [rlra|].
      rewrite HB, HA in Hsum.
      assert (0 < c - INR q + 1 < 1) as HD by rlra.
      assert (0 < INR q - c < 1) as HE by rlra.
      assert (0 < PI) as Hpi by apply PI_RGT_0.
      assert (0 < sin (PI * (c - INR q + 1))) as Hs1.
      { apply sin_gt_0; [apply Rmult_lt_0_compat; rlra|].
        rewrite <- (Rmult_1_r PI) at 2. apply Rmult_lt_compat_l; rlra. }
      assert (0 < sin (PI * (INR q - c))) as Hs2.
      { apply sin_gt_0; [apply Rmult_lt_0_compat; rlra|].
        rewrite <- (Rmult_1_r PI) at 2. apply Rmult_lt_compat_l; rlra. }
      assert (0 <= sin (PI * (c - INR q + 1)) * B) as H1
          by (apply Rmult_le_pos; rlra).
      assert (0 <= sin (PI * (INR q - c)) * A) as H2
          by (apply Rmult_le_pos; rlra).
      assert (B = 0) as HB'.
      { assert (sin (PI * (c - INR q + 1)) * B = 0) as E by rlra.
        apply Rmult_integral in E. destruct E; rlra. }
      assert (A = 0) as HA'.
      { assert (sin (PI * (INR q - c)) * A = 0) as E by rlra.
        apply Rmult_integral in E. destruct E; rlra. }
      assert (lanczos_envelope w (c - INR q + 1) = 0) as He1.
      { destruct (Rle_lt_or_eq_dec _ _ (envelope_nonneg w _ (proj1 HD)))
          as [Hp|E]; [|now symmetry].
        specialize (HBpos ltac:(unfold q; lia) Hp). rlra. }
      assert (lanczos_envelope w (INR q - c) = 0) as He2.
      { destruct (Rle_lt_or_eq_dec _ _ (envelope_nonneg w _ (proj1 HE)))
          as [Hp|E]; [|now symmetry].
        specialize (HApos ltac:(lia) Hp). rlra. }
      apply envelope_zero in He1; [|rlra]. apply envelope_zero in He2; [|rlra].
      destruct (le_lt_dec q k) as [Hqk|Hkq].
      * apply (windowed_far w (INR q - c)); [rlra|exact He2|].
        right. apply le_INR in Hqk. rlra.
      * apply (windowed_far w (c - INR q + 1)); [rlra|exact He1|].
        left. assert (INR k + 1 <= INR q); [|rlra].
        rewrite <- S_INR. apply le_INR. lia.
Qed.

Lemma Rsum_fold_left (rs : list R) (a : R) : fold_left Rplus rs a = a + Rsum rs.
Proof.
  revert a. induction rs as [|r rs IH]; intros a; simpl; [ring|].
  rewrite IH. ring.
Qed.

Lemma Rsum_product (rz ry rx : list R) :
  Rsum (map (fun t => fst (fst t) * snd (fst t) * snd t)
            (Lanczos.product rz ry rx))
  = Rsum rz * Rsum ry * Rsum rx.
Proof.
  unfold Lanczos.product.
  induction rz as [|z rz IHz]; simpl; [ring|].
  rewrite map_app, Rsum_app, IHz.
  assert (Rsum (map (fun t => fst (fst t) * snd (fst t) * snd t)
                    (flat_map (fun y => map (fun x => (z, y, x)) rx) ry))
          = z * Rsum ry * Rsum rx) as ->; [|ring].
  clear IHz. induction ry as [|y ry IHy]; simpl; [ring|].
  rewrite map_app, Rsum_app, IHy.
  assert (Rsum (map (fun t => fst (fst t) * snd (fst t) * snd t)
                    (map (fun x => (z, y, x)) rx))
          = z * y * Rsum rx) as ->; [|ring].
  clear IHy. induction rx as [|x rx IHx]; simpl; [ring|].
  rewrite IHx. ring.
Qed.

End KernelOverTheReals.

(** Off the voxel centres the model's kernel is the real one. *)
Lemma lanczos_real (window x : Q) :
  ~ (x == 0)%Q ->
  Lanczos.lanczos window x = Fin (lanczos_windowed (Q2R window) (Q2R x)).
Proof.
  intros Hx. unfold Lanczos.lanczos, lanczos_windowed.
  assert (Q2R x <> 0%R) as HX.
  { intros E. apply Hx. apply eqR_Qeq. rewrite E. symmetry. apply Q2R_zero. }
  destruct (np.ltb (Qabs x) window) eqn:Hsel.
  - apply ltb_spec in Hsel. apply Qabs_Qlt_condition in Hsel as [H1 H2].
    apply Qlt_Rlt in H1, H2. rewrite Q2R_opp in H1.
    destruct (Rlt_dec (- Q2R window) (Q2R x)) as [_|H]; [|contradiction].
    destruct (Rlt_dec (Q2R x) (Q2R window)) as [_|H]; [|contradiction].
    assert (PI * PI * (Q2R x * Q2R x) <> 0)%R as Hden.
    { assert (PI <> 0)%R as HPI by (apply Rgt_not_eq, PI_RGT_0).
      apply Rmult_integral_contrapositive_currified;
        apply Rmult_integral_contrapositive_currified; assumption. }
    cbv zeta. cbn [Fl.mul Fl.sin].
    rewrite div_fin by rlra. cbn [Fl.mul Fl.sin].
    rewrite div_fin by exact Hden. reflexivity.
  - apply ltb_false in Hsel.
    destruct (Rlt_dec (- Q2R window) (Q2R x)) as [H1|_]; [|reflexivity].
    destruct (Rlt_dec (Q2R x) (Q2R window)) as [H2|_]; [|reflexivity].
    exfalso. rewrite <- Q2R_opp in H1. apply Rlt_Qlt in H1, H2.
    assert (Qabs x < window)%Q as H by (apply Qabs_Qlt_condition; now split).
    lra.
Qed.

Lemma axis_real (window c : Q) (n : Z) :
  (forall k : Z, ~ (c == inject_Z k)%Q) ->
  Lanczos.axis window n c
  = map Fin (map (fun j : nat => lanczos_windowed (Q2R window) (Q2R c - INR j))
                 (seq 0 (Z.to_nat n))).
Proof.
  intros Hc. unfold Lanczos.axis, np.arange. rewrite !map_map.
  apply map_ext. intros j.
  rewrite lanczos_real.
  - now rewrite Q2R_minus, Q2R_inject_Z, <- INR_IZR_INZ.
  - intros E. apply (Hc (Z.of_nat j)). lra.
Qed.

Lemma support_vals_fin (rs : list R) :
  Lanczos.support_vals (map Fin rs)
  = map Fin (List.filter (fun r => if Req_dec_T r 0 then false else true) rs).
Proof.
  unfold Lanczos.support_vals.
  induction rs as [|r rs IH]; simpl; [reflexivity|].
  destruct (Req_dec_T r 0); simpl; now rewrite IH.
Qed.

Lemma Rsum_filter_nonzero (rs : list R) :
  Rsum (List.filter (fun r => if Req_dec_T r 0 then false else true) rs) = Rsum rs.
Proof.
  induction rs as [|r rs IH]; simpl; [reflexivity|].
  destruct (Req_dec_T r 0) as [->|_]; simpl; rewrite IH; [|reflexivity].
  symmetry. apply Rplus_0_l.
Qed.

Lemma filter_none {A} (f : A -> bool) (l : list A) :
  (forall x : A, In x l -> f x = false) -> List.filter f l = [].
Proof.
  induction l as [|a l IH]; intros H; simpl; [reflexivity|].
  rewrite (H a) by now left. apply IH. intros x Hx. apply H. now right.
Qed.

Lemma support_vals_none (L : list fl) :
  (forall x : fl, In x L -> Fl.nonzero x = false) -> Lanczos.support_vals L = [].
Proof.
  unfold Lanczos.support_vals.
  induction L as [|a L IH]; intros H; simpl; [reflexivity|].
  rewrite (H a) by now left. apply IH. intros x Hx. apply H. now right.
Qed.

(** No weight on an axis, no voxel on it either. *)
Lemma support_of_no_vals (L : list fl) :
  Lanczos.support_vals L = [] -> Lanczos.support L = [].
Proof.
  unfold Lanczos.support_vals, Lanczos.support, np.nonzero.
  generalize 0%nat.
  induction L as [|a L IH]; intros s H; simpl in *; [reflexivity|].
  destruct (Fl.nonzero a); [discriminate|]. now apply IH.
Qed.

(** The nonzero weights of an axis: none; or the vertex sits on a voxel
    centre and its weight is not a number; or real numbers that do not
    cancel. *)
Lemma axis_cases (window c : Q) (n : Z) :
  Lanczos.support_vals (Lanczos.axis window n c) = [] \/
  In NaN (Lanczos.support_vals (Lanczos.axis window n c)) \/
  exists rs : list R,
    Lanczos.support_vals (Lanczos.axis window n c) = map Fin rs /\
    Rsum rs <> 0%R.
Proof.
  assert (forall x : fl, In x (Lanczos.axis window n c) ->
            exists k : Z, (0 <= k < n)%Z /\
                          x = Lanczos.lanczos window (c - inject_Z k)) as Hin.
  { intros x Hx. unfold Lanczos.axis, np.arange in Hx.
    apply in_map_iff in Hx as (k & <- & Hk).
    apply in_map_iff in Hk as (j & <- & Hj). apply in_seq in Hj.
    exists (Z.of_nat j). split; [lia|reflexivity]. }
  destruct (Qeq_dec c (inject_Z (Qfloor c))) as [Hc|Hc].
  - (* an integer coordinate *)
    set (f := Qfloor c) in *.
    destruct (Qlt_le_dec 0 window) as [Hw|Hw].
    + destruct (Z_le_dec 0 f) as [H0|H0]; [destruct (Z_lt_dec f n) as [H1|H1]|].
      * right. left.
        rewrite (proj2 (axis_on_voxel_centre window c n f Hw Hc (conj H0 H1))).
        now left.
      * left. apply support_vals_none. intros x Hx.
        destruct (Hin x Hx) as (k & Hk & ->).
        apply (lanczos_at_integer _ _ (f - k)); [|lia].
        rewrite Hc. unfold Zminus. rewrite inject_Z_plus, inject_Z_opp. ring.
      * left. apply support_vals_none. intros x Hx.
        destruct (Hin x Hx) as (k & Hk & ->).
        apply (lanczos_at_integer _ _ (f - k)); [|lia].
        rewrite Hc. unfold Zminus. rewrite inject_Z_plus, inject_Z_opp. ring.
    + left. apply support_vals_none. intros x Hx.
      destruct (Hin x Hx) as (k & Hk & ->).
      rewrite lanczos_outside_window; [now apply nonzero_fin_zero|].
      eapply Qle_trans; [exact Hw|apply Qabs_nonneg].
  - (* between two voxel centres *)
    assert (forall k : Z, ~ (c == inject_Z k)%Q) as Hk.
    { intros k E. apply Hc. rewrite E at 2. now rewrite Qfloor_Z. }
    assert (IZR (Qfloor c) < Q2R c < IZR (Qfloor c) + 1)%R as Hbetween.
    { pose proof (Qfloor_le c) as H1. pose proof (Qlt_floor c) as H2.
      assert (inject_Z (Qfloor c) < c)%Q as H1'.
      { apply Qle_lteq in H1 as [H1|H1]; [exact H1|]. exfalso. apply Hc. now symmetry. }
      apply Qlt_Rlt in H1', H2. rewrite Q2R_inject_Z in H1', H2.
      rewrite plus_IZR in H2. split; assumption. }
    rewrite (axis_real window c n Hk), support_vals_fin.
    set (rs := map (fun j : nat => lanczos_windowed (Q2R window) (Q2R c - INR j))
                   (seq 0 (Z.to_nat n))).
    destruct (List.filter (fun r => if Req_dec_T r 0 then false else true) rs)
      as [|r0 rs'] eqn:Efilter; [now left|].
    right. right. eexists. split; [reflexivity|].
    rewrite <- Efilter, Rsum_filter_nonzero. intros Hsum.
    assert (List.filter (fun r => if Req_dec_T r 0 then false else true) rs = [])
      as Hnone; [|rewrite Hnone in Efilter; discriminate].
    apply filter_none. intros x Hx. unfold rs in Hx.
    apply in_map_iff in Hx as (j & <- & Hj). apply in_seq in Hj.
    rewrite (axis_sum_zero (Q2R window) (Q2R c) (Qfloor c) (Z.to_nat n)
                           Hbetween Hsum j) by lia.
    destruct (Req_dec_T 0 0); [reflexivity|contradiction].
Qed.

Lemma sum_from_nan (l : list fl) : fold_left Fl.add l NaN = NaN.
Proof. induction l as [|a l IH]; simpl; [reflexivity|exact IH]. Qed.

Lemma sum_with_nan (l : list fl) : In NaN l -> Fl.sum l = NaN.
Proof.
  unfold Fl.sum. generalize (Fin 0).
  induction l as [|a l IH]; intros acc H; simpl; [contradiction|].
  destruct H as [->|H]; [|now apply IH].
  assert (Fl.add acc NaN = NaN) as -> by (now destruct acc).
  apply sum_from_nan.
Qed.

Lemma in_product {A} (a b c : list A) (x y z : A) :
  In x a -> In y b -> In z c -> In (x, y, z) (Lanczos.product a b c).
Proof.
  intros Hx Hy Hz. unfold Lanczos.product.
  apply in_flat_map. exists x. split; [exact Hx|].
  apply in_flat_map. exists y. split; [exact Hy|].
  apply in_map_iff. exists z. now split.
Qed.

Lemma product_map {A B} (f : A -> B) (a b c : list A) :
  Lanczos.product (map f a) (map f b) (map f c)
  = map (fun t => (f (fst (fst t)), f (snd (fst t)), f (snd t)))
        (Lanczos.product a b c).
Proof.
  unfold Lanczos.product.
  induction a as [|x a IHa]; simpl; [reflexivity|].
  rewrite map_app, IHa. f_equal. clear IHa.
  induction b as [|y b IHb]; simpl; [reflexivity|].
  rewrite map_app, IHb. f_equal. now rewrite !map_map.
Qed.

Lemma sum_fin (rs : list R) : Fl.sum (map Fin rs) = Fin (Rsum rs).
Proof.
  unfold Fl.sum. rewrite sum_fin_from, Rsum_fold_left. f_equal. apply Rplus_0_l.
Qed.

(** Weights that are not a number make the total not a number; real
    weights have the product of the axis sums for total.  A total of zero
    needs an axis without weights. *)
Lemma zero_total_has_empty_axis (vz vy vx : list fl) :
  (vz = [] \/ In NaN vz \/ exists rs, vz = map Fin rs /\ Rsum rs <> 0%R) ->
  (vy = [] \/ In NaN vy \/ exists rs, vy = map Fin rs /\ Rsum rs <> 0%R) ->
  (vx = [] \/ In NaN vx \/ exists rs, vx = map Fin rs /\ Rsum rs <> 0%R) ->
  Fl.sum (map (fun t => Fl.mul (Fl.mul (fst (fst t)) (snd (fst t))) (snd t))
              (Lanczos.product vz vy vx)) = Fin 0 ->
  vz = [] \/ vy = [] \/ vx = [].
Proof.
  intros Hz Hy Hx Hsum.
  destruct vz as [|z0 vz']; [now left|].
  destruct vy as [|y0 vy']; [right; now left|].
  destruct vx as [|x0 vx']; [right; now right|].
  exfalso.
  set (vz := z0 :: vz') in *. set (vy := y0 :: vy') in *. set (vx := x0 :: vx') in *.
  assert (In z0 vz /\ In y0 vy /\ In x0 vx) as (Iz & Iy & Ix)
      by (repeat split; now left).
  assert (forall z y x : fl, In z vz -> In y vy -> In x vx ->
            Fl.mul (Fl.mul z y) x = NaN -> False) as Hnan.
  { intros z y x Hz' Hy' Hx' E.
    rewrite sum_with_nan in Hsum; [discriminate|].
    apply in_map_iff. exists (z, y, x). split; [exact E|now apply in_product]. }
  destruct Hz as [Hz|[Hz|(rz & Ez & Sz)]]; [discriminate| |].
  { apply (Hnan NaN y0 x0 Hz Iy Ix). reflexivity. }
  destruct Hy as [Hy|[Hy|(ry & Ey & Sy)]]; [discriminate| |].
  { apply (Hnan z0 NaN x0 Iz Hy Ix). now destruct z0. }
  destruct Hx as [Hx|[Hx|(rx & Ex & Sx)]]; [discriminate| |].
  { apply (Hnan z0 y0 NaN Iz Iy Hx). now destruct (Fl.mul z0 y0). }
  rewrite Ez, Ey, Ex, product_map, map_map in Hsum. cbn [fst snd Fl.mul] in Hsum.
  rewrite <- (map_map (fun t : R * R * R => (fst (fst t) * snd (fst t) * snd t)%R) Fin)
    in Hsum.
  rewrite sum_fin, Rsum_product in Hsum.
  injection Hsum as Hsum.
  apply Rmult_integral in Hsum as [Hsum|Hsum]; [|contradiction].
  apply Rmult_integral in Hsum as [Hsum|Hsum]; contradiction.
Qed.

(** The weights of line 254 are those that [Lanczos.row] stores. *)
Lemma lanczos_row_stores_weights
      (shape : grid) (window : Q) (renorm : bool) (p : point) :
  Lanczos.row shape window renorm p = []
  \/ exists inds : list Z,
       Lanczos.row shape window renorm p
       = Lanczos.lil_set inds
           (if renorm then Lanczos.renorm_vals (lanczos_weights shape window p)
            else lanczos_weights shape window p).
Proof.
  destruct shape as [[nZ nY] nX], p as [[x y] z].
  unfold Lanczos.row, lanczos_weights.
  destruct (Lanczos.ravel_all _ _) as [inds|e]; [right|now left].
  now exists inds.
Qed.

Lemma zero_total_row_empty
      (shape : grid) (window : Q) (renorm : bool) (p : point) :
  Fl.sum (lanczos_weights shape window p) = Fin 0 ->
  lanczos_weights shape window p = [] /\ Lanczos.row shape window renorm p = [].
Proof.
  destruct shape as [[nZ nY] nX], p as [[x y] z].
  unfold lanczos_weights, Lanczos.row. intros Hsum.
  apply zero_total_has_empty_axis in Hsum; try apply axis_cases.
  destruct Hsum as [H|[H|H]]; rewrite H, (support_of_no_vals _ H).
  - split; reflexivity.
  - rewrite !product_nil_m. split; reflexivity.
  - rewrite !product_nil_r. split; reflexivity.
Qed.



(** ** Polyhedral kernel *)

Section PolyhedralEngine.
Variable polyhedra : list point -> list face -> list point
                     -> list (list point * list face).
Variable volume : list point * list face -> fl.
Variable clip : list point * list face -> list Polyhedral.plane -> Z * fl.

(** C3.  The claim describes lines 276-314.  Line 274 comes first and reads
    [wpts], which is neither a parameter nor a local of [_getmask]
    ([self], [pia], [wm], [polys]) nor a name of the module: the call
    raises [NameError] for every input and builds no row. *)
Theorem polyhedral_getmask_raises_name_error
        (shape : grid) (pia wm : list point) (polys : list face) :
  Polyhedral._getmask polyhedra volume clip shape pia wm polys
  = ([], Raise NameError).
Proof. reflexivity. Qed.

(** What the lines after 274 do with a candidate voxel outside the grid:
    a printed line, the row as it was. *)
Lemma polyhedral_visit_outside_grid
      (shape : grid) (poly : list point * list face)
      (out : list event) (stored : list (Z * fl)) (x y z : Z) :
  ~ in_grid shape (x, y, z) ->
  exists line : string,
    Polyhedral.visit clip shape poly (out, stored) (x, y, z)
    = (out ++ [Print line], stored).
Proof.
  intros Hout. destruct shape as [[nZ nY] nX]. unfold Polyhedral.visit.
  unfold np.ravel_multi_index, np.in_axis.
  destruct (((0 <=? z)%Z && (z <? nZ)%Z) && ((0 <=? y)%Z && (y <? nY)%Z)
            && ((0 <=? x)%Z && (x <? nX)%Z)) eqn:E.
  - exfalso. apply Hout. simpl.
    rewrite !andb_true_iff, !Z.leb_le, !Z.ltb_lt in E. lia.
  - eexists. reflexivity.
Qed.

(** The weight stored on line 307 is the clipped volume itself. *)
Lemma polyhedral_visit_inside_grid
      (shape : grid) (poly : list point * list face)
      (out : list event) (stored : list (Z * fl)) (x y z : Z) :
  in_grid shape (x, y, z) ->
  Polyhedral.visit clip shape poly (out, stored) (x, y, z)
  = if (2 <? fst (clip poly (Polyhedral.planes (x, y, z))))%Z
    then (out, Polyhedral.setitem (np.ravel (z, y, x) shape)
                                  (snd (clip poly (Polyhedral.planes (x, y, z))))
                                  stored)
    else (out, stored).
Proof.
  intros Hin. destruct shape as [[nZ nY] nX]. unfold Polyhedral.visit.
  unfold np.ravel_multi_index, np.in_axis.
  destruct Hin as (Hx & Hy & Hz). bounds_hold.
  cbn [andb]. destruct (clip poly (Polyhedral.planes (x, y, z))) as [cells vol].
  reflexivity.
Qed.

End PolyhedralEngine.

(** ** The cache key *)

Example ptype_without_parameters : Mapper.ptype "Nearest" [] = "nearest"%string.
Proof. reflexivity. Qed.

Example cachefile_lanczos :
  Mapper.cachefile_of
    [Mapper.Lit "S1_"; Mapper.Field "xfmname"; Mapper.Lit "_";
     Mapper.Field "projection"; Mapper.Lit ".npz"]%string
    "fullhead" "Lanczos"
    [("window", Mapper.VInt 3); ("renorm", Mapper.VBool true)]%string
  = Ok "S1_fullhead_lanczos_window3_renormTrue.npz"%string.
Proof. reflexivity. Qed.

(** C8, as stated, fails: line 22 joins the parameters in the order of
    [kwargs.items()] and sorts nothing. *)
Lemma cache_key_depends_on_parameter_order :
  ~ key_ignores_parameter_order /\
  Mapper.ptype "Lanczos" [("window", Mapper.VInt 3); ("renorm", Mapper.VBool true)]%string
  = "lanczos_window3_renormTrue"%string /\
  Mapper.ptype "Lanczos" [("renorm", Mapper.VBool true); ("window", Mapper.VInt 3)]%string
  = "lanczos_renormTrue_window3"%string.
Proof.
  split; [|split; reflexivity].
  intros H.
  specialize (H [Mapper.Field "projection"]%string "fullhead"%string "Lanczos"%string
                [("window", Mapper.VInt 3); ("renorm", Mapper.VBool true)]%string
                [("renorm", Mapper.VBool true); ("window", Mapper.VInt 3)]%string
                (perm_swap _ _ _)).
  vm_compute in H. discriminate.
Qed.

Lemma string_length_append (s1 s2 : string) :
  String.length (s1 ++ s2)%string = (String.length s1 + String.length s2)%nat.
Proof. induction s1 as [|c s1 IH]; simpl; [reflexivity|]. now rewrite IH. Qed.

Lemma string_app_inv_head (s t1 t2 : string) :
  (s ++ t1 = s ++ t2)%string -> t1 = t2.
Proof.
  induction s as [|c s IH]; simpl; intros H; [exact H|].
  injection H as H. now apply IH.
Qed.

Lemma string_app_nil_r (s : string) : (s ++ EmptyString)%string = s.
Proof.
  induction s as [|c s IH]; [reflexivity|].
  change (String c (s ++ EmptyString) = String c s)%string. now rewrite IH.
Qed.

Lemma string_app_same_length (s1 s2 t1 t2 : string) :
  String.length s1 = String.length s2 ->
  (s1 ++ t1 = s2 ++ t2)%string -> s1 = s2.
Proof.
  revert s2. induction s1 as [|c s1 IH]; intros [|d s2] Hlen H;
    simpl in *; try discriminate; [reflexivity|].
  injection H as -> H. f_equal. apply IH; [lia|exact H].
Qed.

(** Two texts without separator, each followed by nothing or by a
    separator: equal wholes have equal parts. *)
Lemma split_at_separator (x y r1 r2 : string) :
  forallb (fun c => negb (Ascii.eqb c "_")) (list_ascii_of_string x) = true ->
  forallb (fun c => negb (Ascii.eqb c "_")) (list_ascii_of_string y) = true ->
  (r1 = EmptyString \/ exists t, r1 = String "_" t) ->
  (r2 = EmptyString \/ exists t, r2 = String "_" t) ->
  (x ++ r1 = y ++ r2)%string -> x = y /\ r1 = r2.
Proof.
  revert y. induction x as [|a x IH]; intros [|b y] Hx Hy H1 H2 E; simpl in *.
  - now split.
  - exfalso. apply andb_true_iff in Hy as [Hb _].
    destruct H1 as [->|(t & ->)]; [discriminate|].
    injection E as <- _. now rewrite Ascii.eqb_refl in Hb.
  - exfalso. apply andb_true_iff in Hx as [Ha _].
    destruct H2 as [->|(t & ->)]; [discriminate|].
    injection E as -> _. now rewrite Ascii.eqb_refl in Ha.
  - apply andb_true_iff in Hx as [_ Hx]. apply andb_true_iff in Hy as [_ Hy].
    injection E as -> E.
    destruct (IH y Hx Hy H1 H2 E) as [-> ->]. now split.
Qed.

Lemma plain_spec (s : string) :
  plain s = true ->
  (0 < String.length s)%nat /\
  forallb (fun c => negb (Ascii.eqb c "_")) (list_ascii_of_string s) = true.
Proof.
  unfold plain. rewrite andb_true_iff, Nat.ltb_lt. tauto.
Qed.

(** [join] loses nothing of a list of plain texts. *)
Lemma join_plain_injective (l1 l2 : list string) :
  forallb plain l1 = true -> forallb plain l2 = true ->
  String.concat "_" l1 = String.concat "_" l2 -> l1 = l2.
Proof.
  revert l2. induction l1 as [|x l1 IH]; intros [|y l2] H1 H2 E.
  - reflexivity.
  - exfalso. cbn [forallb] in H2. apply andb_true_iff in H2 as [Hy _].
    apply plain_spec in Hy as [Hy _].
    apply (f_equal String.length) in E. simpl in E.
    destruct l2; [|rewrite string_length_append in E]; simpl in E; lia.
  - exfalso. cbn [forallb] in H1. apply andb_true_iff in H1 as [Hx _].
    apply plain_spec in Hx as [Hx _].
    apply (f_equal String.length) in E. simpl in E.
    destruct l1; [|rewrite string_length_append in E]; simpl in E; lia.
  - cbn [forallb] in H1, H2.
    apply andb_true_iff in H1 as [Hx H1]. apply andb_true_iff in H2 as [Hy H2].
    apply plain_spec in Hx as [_ Hx]. apply plain_spec in Hy as [_ Hy].
    destruct l1 as [|x' l1], l2 as [|y' l2].
    + simpl in E. now subst.
    + exfalso.
      change (String.concat "_" [x]) with x in E.
      change (String.concat "_" (y :: y' :: l2))
        with (y ++ String "_" (String.concat "_" (y' :: l2)))%string in E.
      rewrite <- (string_app_nil_r x) in E.
      destruct (split_at_separator x y _ _ Hx Hy (or_introl eq_refl)
                                   (or_intror (ex_intro _ _ eq_refl)) E)
        as [_ E']. discriminate.
    + exfalso.
      change (String.concat "_" [y]) with y in E.
      change (String.concat "_" (x :: x' :: l1))
        with (x ++ String "_" (String.concat "_" (x' :: l1)))%string in E.
      rewrite <- (string_app_nil_r y) in E.
      destruct (split_at_separator x y _ _ Hx Hy
                                   (or_intror (ex_intro _ _ eq_refl))
                                   (or_introl eq_refl) E)
        as [_ E']. discriminate.
    + change (String.concat "_" (x :: x' :: l1))
        with (x ++ String "_" (String.concat "_" (x' :: l1)))%string in E.
      change (String.concat "_" (y :: y' :: l2))
        with (y ++ String "_" (String.concat "_" (y' :: l2)))%string in E.
      destruct (split_at_separator x y _ _ Hx Hy
                                   (or_intror (ex_intro _ _ eq_refl))
                                   (or_intror (ex_intro _ _ eq_refl)) E)
        as [-> E'].
      injection E' as E'. f_equal. now apply IH.
Qed.

Lemma join_plain_nonempty (x : string) (l : list string) :
  plain x = true -> (0 < String.length (String.concat "_" (x :: l)))%nat.
Proof.
  intros Hx. apply plain_spec in Hx as [Hx _].
  destruct l; simpl; [exact Hx|]. rewrite string_length_append. lia.
Qed.

(** Lines 21-24 on plain texts: the key lists the texts of the parameters
    in the order of [kwargs.items()], and only equal lists of texts give
    equal keys. *)
Lemma ptype_plain_injective (class_name : string)
      (kw1 kw2 : list (string * Mapper.pyval)) :
  forallb plain (map parameter_text kw1) = true ->
  forallb plain (map parameter_text kw2) = true ->
  Mapper.ptype class_name kw1 = Mapper.ptype class_name kw2 ->
  map parameter_text kw1 = map parameter_text kw2.
Proof.
  intros H1 H2. unfold Mapper.ptype.
  change (map (fun kv => (fst kv ++ Mapper.str (snd kv))%string) kw1)
    with (map parameter_text kw1).
  change (map (fun kv => (fst kv ++ Mapper.str (snd kv))%string) kw2)
    with (map parameter_text kw2).
  assert (forall l : list string, forallb plain l = true ->
            (0 <? String.length (String.concat "_" l))%nat
            = match l with [] => false | _ => true end) as Hlen.
  { intros [|x l] Hl; [reflexivity|].
    cbn [forallb] in Hl. apply andb_true_iff in Hl as [Hx _].
    apply Nat.ltb_lt. now apply join_plain_nonempty. }
  cbv zeta. rewrite (Hlen _ H1), (Hlen _ H2).
  destruct (map parameter_text kw1) as [|x l1] eqn:E1,
           (map parameter_text kw2) as [|y l2] eqn:E2; intros E.
  - reflexivity.
  - exfalso. apply (f_equal String.length) in E.
    rewrite string_length_append in E. simpl in E. lia.
  - exfalso. apply (f_equal String.length) in E.
    rewrite string_length_append in E. simpl in E. lia.
  - apply string_app_inv_head in E. apply string_app_inv_head in E.
    now apply join_plain_injective.
Qed.

(** Line 25: how far the lengths of two paths of one template are apart. *)
Lemma format_lengths (template : list Mapper.segment) (x p1 p2 : string) :
  forall o1 o2 : string,
    Mapper.format template [("xfmname", x); ("projection", p1)]%string = Ok o1 ->
    Mapper.format template [("xfmname", x); ("projection", p2)]%string = Ok o2 ->
    exists m : nat,
      (In (Mapper.Field "projection") template -> 0 < m)%nat /\
      (String.length o1 + m * String.length p2
       = String.length o2 + m * String.length p1)%nat.
Proof.
  induction template as [|seg template IH]; intros o1 o2 H1 H2.
  - exists 0%nat. simpl in *. injection H1 as <-. injection H2 as <-.
    split; [contradiction|reflexivity].
  - destruct seg as [s|name]; cbn [Mapper.format] in H1, H2.
    + destruct (Mapper.format template _) as [t1|] eqn:E1 in H1; [|discriminate].
      destruct (Mapper.format template _) as [t2|] eqn:E2 in H2; [|discriminate].
      cbn in H1, H2. injection H1 as <-. injection H2 as <-.
      destruct (IH t1 t2 E1 E2) as (m & Hm & Hlen).
      exists m. split.
      * intros [H|H]; [discriminate|now apply Hm].
      * rewrite !string_length_append. lia.
    + cbn [List.find fst] in H1, H2.
      destruct (String.eqb_spec "xfmname" name) as [Hx|Hx].
      * destruct (Mapper.format template _) as [t1|] eqn:E1 in H1; [|discriminate].
        destruct (Mapper.format template _) as [t2|] eqn:E2 in H2; [|discriminate].
        cbn in H1, H2. injection H1 as <-. injection H2 as <-.
        destruct (IH t1 t2 E1 E2) as (m & Hm & Hlen).
        exists m. split.
        -- intros [H|H]; [|now apply Hm]. injection H as H. subst name. discriminate.
        -- rewrite !string_length_append. lia.
      * destruct (String.eqb_spec "projection" name) as [Hp|Hp]; [|discriminate].
        destruct (Mapper.format template _) as [t1|] eqn:E1 in H1; [|discriminate].
        destruct (Mapper.format template _) as [t2|] eqn:E2 in H2; [|discriminate].
        cbn in H1, H2. injection H1 as <-. injection H2 as <-.
        destruct (IH t1 t2 E1 E2) as (m & Hm & Hlen).
        exists (S m). split; [lia|].
        rewrite !string_length_append. lia.
Qed.

(** A template that names the projection gives different paths to
    different keys. *)
Lemma format_projection_injective
      (template : list Mapper.segment) (x p1 p2 o : string) :
  In (Mapper.Field "projection") template ->
  Mapper.format template [("xfmname", x); ("projection", p1)]%string = Ok o ->
  Mapper.format template [("xfmname", x); ("projection", p2)]%string = Ok o ->
  p1 = p2.
Proof.
  intros Hin H1 H2.
  assert (String.length p1 = String.length p2) as Hlen.
  { destruct (format_lengths template x p1 p2 o o H1 H2) as (m & Hm & E).
    specialize (Hm Hin). nia. }
  revert o Hin H1 H2.
  induction template as [|seg template IH]; intros o Hin H1 H2; [contradiction|].
  destruct seg as [s|name]; cbn [Mapper.format] in H1, H2.
  - destruct (Mapper.format template _) as [t1|] eqn:E1 in H1; [|discriminate].
    destruct (Mapper.format template _) as [t2|] eqn:E2 in H2; [|discriminate].
    cbn in H1, H2. injection H1 as <-. injection H2 as H2.
    apply string_app_inv_head in H2. subst t2.
    destruct Hin as [H|H]; [discriminate|]. now apply (IH t1).
  - cbn [List.find fst] in H1, H2.
    destruct (String.eqb_spec "xfmname" name) as [Hx|Hx].
    + destruct (Mapper.format template _) as [t1|] eqn:E1 in H1; [|discriminate].
      destruct (Mapper.format template _) as [t2|] eqn:E2 in H2; [|discriminate].
      cbn in H1, H2. injection H1 as <-. injection H2 as H2.
      apply string_app_inv_head in H2. subst t2.
      destruct Hin as [H|H]; [|now apply (IH t1)].
      injection H as H. subst name. discriminate.
    + destruct (String.eqb_spec "projection" name) as [Hp|Hp]; [|discriminate].
      destruct (Mapper.format template _) as [t1|] eqn:E1 in H1; [|discriminate].
      destruct (Mapper.format template _) as [t2|] eqn:E2 in H2; [|discriminate].
      cbn in H1, H2. injection H1 as <-. injection H2 as H2.
      symmetry in H2. now apply (string_app_same_length p1 p2 t1 t2).
Qed.

(** C8, amended.  The key of line 22 joins the texts of the parameters in
    the order of [kwargs.items()], the order in which they were supplied;
    nothing is sorted.  Where every text has a character and no [_], two
    parameter lists get the same key, and the same cache file from a
    template that names the projection, exactly when they list the same
    texts in the same order: the same parameters in another order get
    another cache file. *)
Theorem cache_key_keeps_parameter_order
        (projcache : list Mapper.segment) (xfmname class_name : string)
        (kw1 kw2 : list (string * Mapper.pyval)) (path1 path2 : string) :
  forallb plain (map parameter_text kw1) = true ->
  forallb plain (map parameter_text kw2) = true ->
  In (Mapper.Field "projection") projcache ->
  Mapper.cachefile_of projcache xfmname class_name kw1 = Ok path1 ->
  Mapper.cachefile_of projcache xfmname class_name kw2 = Ok path2 ->
  (Mapper.ptype class_name kw1 = Mapper.ptype class_name kw2
   <-> map parameter_text kw1 = map parameter_text kw2) /\
  (path1 = path2 <-> map parameter_text kw1 = map parameter_text kw2).
Proof.
  intros H1 H2 Hin Hp1 Hp2.
  assert (map parameter_text kw1 = map parameter_text kw2 ->
          Mapper.ptype class_name kw1 = Mapper.ptype class_name kw2) as Hsame.
  { intros E. unfold Mapper.ptype.
    change (map (fun kv => (fst kv ++ Mapper.str (snd kv))%string) kw1)
      with (map parameter_text kw1).
    change (map (fun kv => (fst kv ++ Mapper.str (snd kv))%string) kw2)
      with (map parameter_text kw2).
    now rewrite E. }
  split; split.
  - now apply ptype_plain_injective.
  - exact Hsame.
  - intros <-. apply (ptype_plain_injective class_name); [exact H1|exact H2|].
    unfold Mapper.cachefile_of in Hp1, Hp2.
    exact (format_projection_injective projcache xfmname _ _ path1 Hin Hp1 Hp2).
  - intros E. unfold Mapper.cachefile_of in Hp1, Hp2.
    rewrite (Hsame E) in Hp1. congruence.
Qed.

Lemma cache_key_keeps_parameter_order_witness :
  let projcache := [Mapper.Lit "S1_"; Mapper.Field "xfmname"; Mapper.Lit "_";
                    Mapper.Field "projection"; Mapper.Lit ".npz"]%string in
  let kw1 := [("window", Mapper.VInt 3); ("renorm", Mapper.VBool true)]%string in
  let kw2 := [("renorm", Mapper.VBool true); ("window", Mapper.VInt 3)]%string in
  let path1 := "S1_fullhead_lanczos_window3_renormTrue.npz"%string in
  let path2 := "S1_fullhead_lanczos_renormTrue_window3.npz"%string in
  (forallb plain (map parameter_text kw1) = true /\
   forallb plain (map parameter_text kw2) = true /\
   In (Mapper.Field "projection") projcache /\
   Mapper.cachefile_of projcache "fullhead" "Lanczos" kw1 = Ok path1 /\
   Mapper.cachefile_of projcache "fullhead" "Lanczos" kw2 = Ok path2) /\
  (Mapper.ptype "Lanczos" kw1 = Mapper.ptype "Lanczos" kw2
   <-> map parameter_text kw1 = map parameter_text kw2) /\
  (path1 = path2 <-> map parameter_text kw1 = map parameter_text kw2).
Proof.
  intros projcache kw1 kw2 path1 path2.
  assert (In (Mapper.Field "projection") projcache) as Hin
      by (simpl; tauto).
  split; [repeat split; try reflexivity; exact Hin|].
  exact (cache_key_keeps_parameter_order projcache "fullhead" "Lanczos" kw1 kw2
                                         path1 path2 eq_refl eq_refl Hin
                                         eq_refl eq_refl).
Defined.

(** ** The cache archive *)

Section CacheArchive.
Context {V : Type}.
Implicit Types left right : sparse.csr_matrix V.

Lemma csr_eta (m : sparse.csr_matrix V) :
  sparse.mk_csr (sparse.data m) (sparse.indices m) (sparse.indptr m)
                (fst (sparse.shape m), snd (sparse.shape m)) = m.
Proof. destruct m as [d i p [r c]]. reflexivity. Qed.

Lemma savez_fields_lookup left right :
  let archive := Mapper.savez_fields left right in
  archive !! "left_data"%string = Some (Mapper.NData (sparse.data left)) /\
  archive !! "left_indices"%string = Some (Mapper.NInts (sparse.indices left)) /\
  archive !! "left_indptr"%string = Some (Mapper.NInts (sparse.indptr left)) /\
  archive !! "left_shape"%string
  = Some (Mapper.NInts [fst (sparse.shape left); snd (sparse.shape left)]) /\
  archive !! "right_data"%string = Some (Mapper.NData (sparse.data right)) /\
  archive !! "right_indices"%string = Some (Mapper.NInts (sparse.indices right)) /\
  archive !! "right_indptr"%string = Some (Mapper.NInts (sparse.indptr right)) /\
  archive !! "right_shape"%string
  = Some (Mapper.NInts [fst (sparse.shape right); snd (sparse.shape right)]).
Proof.
  unfold Mapper.savez_fields. cbv zeta.
  repeat split; simplify_map_eq; reflexivity.
Qed.

Lemma savez_fields_size left right : size (Mapper.savez_fields left right) = 8%nat.
Proof.
  unfold Mapper.savez_fields.
  repeat (rewrite map_size_insert_None by (simplify_map_eq; reflexivity)).
  rewrite map_size_empty. reflexivity.
Qed.

Lemma load_saved_masks left right :
  Mapper.load_masks (Mapper.savez_fields left right) = Ok (left, right).
Proof.
  destruct (savez_fields_lookup left right)
    as (H1 & H2 & H3 & H4 & H5 & H6 & H7 & H8).
  unfold Mapper.load_masks, Mapper.field.
  rewrite H1, H2, H3, H4, H5, H6, H7, H8. simpl.
  now rewrite !csr_eta.
Qed.

(** C4.  Cache round trip ([Mapper._savecache], lines 141-152, and
    [Mapper.__init__], lines 37-41).  The archive that is saved for a pair
    of operators holds eight named arrays, and loading it gives back both
    operators: the same values, column indices, row pointers and shapes. *)
Theorem cache_round_trip left right :
  Mapper.load_masks (Mapper.savez_fields left right) = Ok (left, right) /\
  size (Mapper.savez_fields left right) = 8%nat /\
  dom (Mapper.savez_fields left right)
  = list_to_set ["left_data"; "left_indices"; "left_indptr"; "left_shape";
                 "right_data"; "right_indices"; "right_indptr"; "right_shape"]%string.
Proof.
  split; [|split].
  - apply load_saved_masks.
  - apply savez_fields_size.
  - unfold Mapper.savez_fields. rewrite !dom_insert_L, dom_empty_L.
    simpl. set_solver.
Qed.

End CacheArchive.

(** ** Construction: reuse or rebuild *)

Section Construction.
Context {V : Type}.
Implicit Types fs : gmap string (@Mapper.file V).

Lemma field_raises (archive : gmap string (@Mapper.npy V)) (name : string) (e : exn) :
  Mapper.field archive name = Raise e -> e = KeyError.
Proof.
  unfold Mapper.field. destruct (archive !! name); [discriminate|congruence].
Qed.

Lemma csr_matrix_raises (arrays : Mapper.npy * Mapper.npy * Mapper.npy)
      (shp : @Mapper.npy V) (e : exn) :
  Mapper.csr_matrix arrays shp = Raise e -> e = ValueError.
Proof.
  unfold Mapper.csr_matrix. intros H.
  repeat match type of H with
         | match ?x with _ => _ end = _ => destruct x
         end; congruence.
Qed.

(** Reading the arrays of an archive raises [KeyError] or [ValueError],
    which line 43 does not catch. *)
Lemma load_masks_not_ioerror (archive : gmap string (@Mapper.npy V)) :
  Mapper.load_masks archive <> Raise IOError.
Proof.
  unfold Mapper.load_masks. intros H.
  repeat match type of H with
         | (mbind _ (Mapper.field ?a ?k)) = _ =>
             let E := fresh "E" in
             destruct (Mapper.field a k) eqn:E;
             [cbn [mbind result_bind] in H
             |apply field_raises in E; cbn [mbind result_bind] in H; congruence]
         | (mbind _ (Mapper.csr_matrix ?a ?s)) = _ =>
             let E := fresh "E" in
             destruct (Mapper.csr_matrix a s) eqn:E;
             [cbn [mbind result_bind] in H
             |apply csr_matrix_raises in E; cbn [mbind result_bind] in H; congruence]
         end.
  discriminate.
Qed.

Lemma load_cache_missing fs (cache xfmfile : string) (recache : bool) :
  fs !! cache = None -> Mapper.load_cache fs cache xfmfile recache = Raise IOError.
Proof. intros H. unfold Mapper.load_cache, Mapper.np_load. now rewrite H. Qed.

Lemma load_cache_present fs (cache xfmfile : string) (f : Mapper.file) (tx : Q) :
  fs !! cache = Some f ->
  Mapper.os_stat fs xfmfile = Ok tx ->
  Mapper.load_cache fs cache xfmfile false
  = if np.ltb (Mapper.st_mtime f) tx then Raise IOError
    else Mapper.load_masks (Mapper.npz f).
Proof.
  intros Hc Hx. unfold Mapper.load_cache, Mapper.np_load.
  rewrite Hc. cbn [mbind result_bind].
  rewrite Hx. unfold Mapper.os_stat at 1. rewrite Hc. reflexivity.
Qed.

(** C5.  Construction with [recache] false ([Mapper.__init__], lines
    32-44), where the transform file exists and has modification time [tx].
    The body of the [try] raises [IOError], the one exception that makes
    line 44 rebuild, exactly when the archive is missing or older than the
    transform file.  In that case the construction is the rebuild, and a
    rebuild that gets its two operators returns them and writes their
    archive over the cache file.  When the archive is there and not older,
    the construction reads the operators from it, rebuilds nothing and
    leaves the files as they are. *)
Theorem construction_reuses_cache_iff_present_and_fresh
        fs (now : Q) (projcache xfms : list Mapper.segment)
        (n0 n1 n2 : Z) (build : result (list (sparse.csr_matrix V)))
        (class_name subject xfmname : string)
        (kwargs : list (string * Mapper.pyval))
        (cache xfmfile : string) (tx : Q) :
  Mapper.cachefile_of projcache xfmname class_name kwargs = Ok cache ->
  Mapper.format xfms [("xfmname", xfmname)]%string = Ok xfmfile ->
  Mapper.os_stat fs xfmfile = Ok tx ->
  let b := Mapper.mk_base None subject xfmname cache (n2, n1, n0) in
  let construct :=
    Mapper.__init__ fs now projcache xfms (n0, n1, n2) build
                    class_name subject xfmname false kwargs in
  (Mapper.load_cache fs cache xfmfile false = Raise IOError
   <-> missing_or_stale fs cache tx) /\
  (missing_or_stale fs cache tx ->
   construct = Mapper._recache b fs now build) /\
  (forall lmask rmask : sparse.csr_matrix V,
      build = Ok [lmask; rmask] ->
      Mapper._recache b fs now build
      = Ok (Mapper.mk_mapper b (lmask, rmask)
              (fst (sparse.shape lmask) + fst (sparse.shape rmask))%Z,
            <[Mapper.npz_path cache
              := Mapper.mk_file now (Mapper.savez_fields lmask rmask)]> fs)) /\
  (forall f : Mapper.file,
      fs !! cache = Some f -> (tx <= Mapper.st_mtime f)%Q ->
      construct
      = '(lmask, rmask) ← Mapper.load_masks (Mapper.npz f);
        Ok (Mapper.mk_mapper b (lmask, rmask)
              (fst (sparse.shape lmask) + fst (sparse.shape rmask))%Z, fs)).
Proof.
  intros Hcache Hxfm Hstat b construct.
  assert (Mapper.load_cache fs cache xfmfile false = Raise IOError
          <-> missing_or_stale fs cache tx) as Hiff.
  { unfold missing_or_stale. split.
    - intros H. destruct (fs !! cache) as [f|] eqn:Hf; [right|now left].
      exists f. split; [reflexivity|].
      rewrite (load_cache_present _ _ _ f tx Hf Hstat) in H.
      destruct (np.ltb (Mapper.st_mtime f) tx) eqn:E.
      + now apply ltb_spec.
      + now apply load_masks_not_ioerror in H.
    - intros [Hm|(f & Hf & Hlt)].
      + now apply load_cache_missing.
      + rewrite (load_cache_present _ _ _ f tx Hf Hstat).
        apply ltb_spec in Hlt. now rewrite Hlt. }
  split; [exact Hiff|split; [|split]].
  - intros Hms. apply Hiff in Hms.
    unfold construct, Mapper.__init__.
    rewrite Hcache. cbn [mbind result_bind]. rewrite Hxfm. cbn [mbind result_bind].
    rewrite Hms. reflexivity.
  - intros lmask rmask ->. reflexivity.
  - intros f Hf Hfresh.
    unfold construct, Mapper.__init__.
    rewrite Hcache. cbn [mbind result_bind]. rewrite Hxfm. cbn [mbind result_bind].
    rewrite (load_cache_present _ _ _ f tx Hf Hstat).
    assert (np.ltb (Mapper.st_mtime f) tx = false) as -> by now apply ltb_false.
    pose proof (load_masks_not_ioerror (Mapper.npz f)) as Hno.
    destruct (Mapper.load_masks (Mapper.npz f)) as [[lmask rmask]|e].
    + reflexivity.
    + destruct e; try reflexivity. contradiction.
Qed.

End Construction.

Lemma construction_rebuilds_missing_cache_witness :
  let fs : gmap string (@Mapper.file bool) :=
    {[ "fullhead.xfm"%string := Mapper.mk_file 5 ∅ ]} in
  let projcache := [Mapper.Lit "S1_"; Mapper.Field "xfmname"; Mapper.Lit "_";
                    Mapper.Field "projection"; Mapper.Lit ".npz"]%string in
  let xfms := [Mapper.Field "xfmname"; Mapper.Lit ".xfm"]%string in
  let empty := sparse.mk_csr [] [] [0%Z] (0, 24)%Z in
  let b := Mapper.mk_base None "S1" "fullhead" "S1_fullhead_nearest.npz"
                          (4, 3, 2)%Z in
  (Mapper.cachefile_of projcache "fullhead" "Nearest" []
   = Ok "S1_fullhead_nearest.npz"%string /\
   Mapper.format xfms [("xfmname", "fullhead")]%string = Ok "fullhead.xfm"%string /\
   Mapper.os_stat fs "fullhead.xfm" = Ok 5%Q) /\
  Mapper.__init__ fs 9 projcache xfms (2, 3, 4)%Z (Ok [empty; empty])
                  "Nearest" "S1" "fullhead" false []
  = Mapper._recache b fs 9 (Ok [empty; empty]).
Proof.
  intros fs projcache xfms empty b.
  assert (Mapper.cachefile_of projcache "fullhead" "Nearest" []
          = Ok "S1_fullhead_nearest.npz"%string) as H1 by reflexivity.
  assert (Mapper.format xfms [("xfmname", "fullhead")]%string
          = Ok "fullhead.xfm"%string) as H2 by reflexivity.
  assert (Mapper.os_stat fs "fullhead.xfm" = Ok 5%Q) as H3 by reflexivity.
  split; [exact (conj H1 (conj H2 H3))|].
  apply (proj1 (proj2 (construction_reuses_cache_iff_present_and_fresh
           fs 9 projcache xfms 2 3 4 (Ok [empty; empty]) "Nearest" "S1" "fullhead" []
           "S1_fullhead_nearest.npz" "fullhead.xfm" 5 H1 H2 H3))).
  unfold missing_or_stale. left. reflexivity.
Defined.

(** A cache that a rebuild has just written is reused by the next
    construction, which gets the very operators that were saved: the path
    ends in [.npz], so [np.savez] writes where [np.load] reads, and the
    archive is not older than the transform file. *)
Lemma rebuilt_cache_is_reused {V : Type}
      (fs : gmap string (@Mapper.file V)) (now tx : Q) (b : Mapper.base)
      (xfmfile : string) (lmask rmask : sparse.csr_matrix V) :
  Mapper.endswith (Mapper.cachefile b) ".npz" = true ->
  xfmfile <> Mapper.cachefile b ->
  Mapper.os_stat fs xfmfile = Ok tx ->
  (tx <= now)%Q ->
  Mapper.load_cache (snd (Mapper._savecache b fs now lmask rmask))
                    (Mapper.cachefile b) xfmfile false
  = Ok (lmask, rmask).
Proof.
  intros Hnpz Hne Hstat Hfresh.
  unfold Mapper._savecache, Mapper.npz_path. rewrite Hnpz. cbn [snd].
  rewrite (load_cache_present _ _ _
             (Mapper.mk_file now (Mapper.savez_fields lmask rmask)) tx).
  - cbn [Mapper.st_mtime Mapper.npz].
    assert (np.ltb now tx = false) as -> by now apply ltb_false.
    apply load_saved_masks.
  - apply lookup_insert_eq.
  - unfold Mapper.os_stat in *. rewrite lookup_insert_ne by congruence. exact Hstat.
Qed.

(** ** forward: data that is already on the vertices *)

Lemma rejoin_rows {A} (n : nat) (rs : list (list A)) :
  zip_with app (map (firstn n) rs) (map (skipn n) rs) = rs.
Proof.
  induction rs as [|r rs IH]; simpl; [reflexivity|].
  now rewrite IH, firstn_skipn.
Qed.

Lemma existsb_eqb_In (n : Z) (l : list Z) : existsb (Z.eqb n) l = true <-> In n l.
Proof.
  rewrite existsb_exists. split.
  - intros (x & Hx & E). apply Z.eqb_eq in E. now subst.
  - intros H. exists n. split; [exact H|apply Z.eqb_refl].
Qed.

(** C6, as stated, fails on "only such inputs": line 61 asks whether
    [nverts] occurs anywhere in [data.shape].  With three vertices, two of
    them on the left, an array of shape (3, 2) is taken for vertex data and
    split along its last axis, of length 2. *)
Lemma forward_takes_any_axis_of_length_nverts :
  let empty (n : Z) := sparse.mk_csr ([] : list bool) [] (repeat 0%Z (Z.to_nat n + 1))
                                     (n, 8%Z) in
  let m := Mapper.mk_mapper (Mapper.mk_base None "S1" "fullhead" "c.npz" (2, 2, 2)%Z)
                            (empty 2%Z, empty 1%Z) 3 in
  let data := Mapper.mk_ndarray [3%Z] 2 [[1; 2]; [3; 4]; [5; 6]]%Q in
  ~ vertex_space_only_by_last_axis /\
  Mapper.is_vertex_space m data = true /\
  Mapper.last data <> Mapper.nverts m /\
  Mapper.__call__ (fun _ _ => Raise ValueError) m data
  = Ok (Mapper.mk_ndarray [3%Z] 2 [[1; 2]; [3; 4]; [5; 6]]%Q,
        Mapper.mk_ndarray [3%Z] 0 [[]; []; []]).
Proof.
  intros empty m data.
  assert (Mapper.is_vertex_space m data = true) as Hvs by reflexivity.
  assert (Mapper.last data <> Mapper.nverts m) as Hne by (simpl; lia).
  split; [|split; [exact Hvs|split; [exact Hne|reflexivity]]].
  intros H. apply Hne. now apply H.
Qed.

(** C6, amended.  [forward] takes for vertex data every input whose shape
    holds [nverts] on some axis, the last one in particular.  With no
    [idxmap] the result is the pair of the parts before and from the
    left-hemisphere vertex count along the last axis: the values as they
    are (each vector of the input is the left part followed by the right
    part) and no product with an operator. *)
Theorem forward_splits_vertex_data {V : Type}
        (project_volume : @Mapper.t V -> Mapper.ndarray Q
                          -> result (Mapper.ndarray Q * Mapper.ndarray Q))
        (m : @Mapper.t V) (data : Mapper.ndarray Q) :
  Mapper.idxmap (Mapper.self m) = None ->
  Mapper.last data = Mapper.nverts m \/ In (Mapper.nverts m) (Mapper.lead data) ->
  let llen := fst (sparse.shape (fst (Mapper.masks m))) in
  let vleft := Mapper.slice_to llen data in
  let vright := Mapper.slice_from llen data in
  Mapper.__call__ project_volume m data = Ok (vleft, vright) /\
  Mapper.rows vleft = map (firstn (Z.to_nat llen)) (Mapper.rows data) /\
  Mapper.rows vright = map (skipn (Z.to_nat llen)) (Mapper.rows data) /\
  zip_with app (Mapper.rows vleft) (Mapper.rows vright) = Mapper.rows data /\
  Mapper.lead vleft = Mapper.lead data /\ Mapper.lead vright = Mapper.lead data /\
  ((0 <= llen <= Mapper.last data)%Z ->
   Mapper.last vleft = llen /\ Mapper.last vright = (Mapper.last data - llen)%Z).
Proof.
  intros Hidx Hshape llen vleft vright.
  assert (Mapper.is_vertex_space m data = true) as Hvs.
  { unfold Mapper.is_vertex_space, Mapper.nd_shape.
    apply existsb_eqb_In, in_or_app.
    destruct Hshape as [<-|H]; [right; now left|now left]. }
  split.
  { unfold Mapper.__call__. rewrite Hvs, Hidx. reflexivity. }
  repeat split; try reflexivity.
  - apply rejoin_rows.
  - simpl. lia.
  - simpl. lia.
Qed.

Lemma forward_splits_vertex_data_witness :
  let empty (n : Z) := sparse.mk_csr ([] : list bool) [] (repeat 0%Z (Z.to_nat n + 1))
                                     (n, 8%Z) in
  let m := Mapper.mk_mapper (Mapper.mk_base None "S1" "fullhead" "c.npz" (2, 2, 2)%Z)
                            (empty 2%Z, empty 1%Z) 3 in
  let data := Mapper.mk_ndarray [2%Z] 3 [[1; 2; 3]; [4; 5; 6]]%Q in
  (Mapper.idxmap (Mapper.self m) = None /\ Mapper.last data = Mapper.nverts m) /\
  Mapper.__call__ (fun _ _ => Raise ValueError) m data
  = Ok (Mapper.mk_ndarray [2%Z] 2 [[1; 2]; [4; 5]]%Q,
        Mapper.mk_ndarray [2%Z] 1 [[3]; [6]]%Q).
Proof.
  intros empty m data.
  split; [split; reflexivity|].
  exact (proj1 (forward_splits_vertex_data (fun _ _ => Raise ValueError) m data
                                           eq_refl (or_introl eq_refl))).
Defined.

(** ** backwards: arguments that are refused *)

Section Backwards.
Context {V : Type}.
Variable project_back : Mapper.array -> sparse.csr_matrix V -> grid
                        -> result (Mapper.ndarray Q).

Lemma hemisphere_vectors_refused (m : @Mapper.t V) (verts : Mapper.verts_arg) :
  ~ recognized m verts -> Mapper.hemisphere_vectors m verts = Raise ValueError.
Proof.
  intros Hno. unfold Mapper.hemisphere_vectors.
  destruct verts as [a|a a']; simpl in Hno.
  - destruct (Z.eqb_spec (Mapper.alen a) (Mapper.nverts m)) as [E|E];
      [exfalso; apply Hno; now left|].
    destruct (Mapper.amax a) as [top|e] eqn:Hmax.
    + cbn [mbind result_bind].
      destruct (np.ltb top (inject_Z (Mapper.nverts m))) eqn:Hlt; [|reflexivity].
      exfalso. apply Hno. right. exists top. split; [reflexivity|].
      now apply ltb_spec.
    + unfold Mapper.amax in Hmax.
      destruct (Mapper.values a); [|discriminate].
      injection Hmax as <-. reflexivity.
  - destruct (Z.eqb_spec (Mapper.alen a)
                         (fst (sparse.shape (fst (Mapper.masks m))))) as [E|E];
      [exfalso; apply Hno; now left|].
    destruct (Mapper.amax a) as [top|e] eqn:Hmax.
    + cbn [mbind result_bind].
      destruct (np.ltb top _) eqn:Hlt; [|reflexivity].
      exfalso. apply Hno. right. exists top. split; [reflexivity|].
      now apply ltb_spec.
    + unfold Mapper.amax in Hmax.
      destruct (Mapper.values a); [|discriminate].
      injection Hmax as <-. reflexivity.
Qed.

(** C7.  [backwards] (lines 92-120) raises [ValueError] for a single index
    array whose length is not [nverts] and whose largest value is [nverts]
    or more; for a pair whose first array has a length other than the
    left-hemisphere vertex count and a largest value at or beyond that
    count; and for every other argument that is none of the accepted
    encodings. *)
Theorem backwards_refuses_vertices_out_of_range (m : @Mapper.t V) :
  let llen := fst (sparse.shape (fst (Mapper.masks m))) in
  (forall (verts : Mapper.array) (top : Q),
      Mapper.alen verts <> Mapper.nverts m ->
      Mapper.amax verts = Ok top ->
      (inject_Z (Mapper.nverts m) <= top)%Q ->
      Mapper.backwards project_back m (Mapper.Single verts) = Raise ValueError) /\
  (forall (verts0 verts1 : Mapper.array) (top : Q),
      Mapper.alen verts0 <> llen ->
      Mapper.amax verts0 = Ok top ->
      (inject_Z llen <= top)%Q ->
      Mapper.backwards project_back m (Mapper.Pair verts0 verts1)
      = Raise ValueError) /\
  (forall verts : Mapper.verts_arg,
      ~ recognized m verts ->
      Mapper.backwards project_back m verts = Raise ValueError).
Proof.
  intros llen.
  assert (forall verts : Mapper.verts_arg,
             ~ recognized m verts ->
             Mapper.backwards project_back m verts = Raise ValueError) as Hall.
  { intros verts Hno. unfold Mapper.backwards.
    now rewrite (hemisphere_vectors_refused m verts Hno). }
  split; [|split; [|exact Hall]].
  - intros verts top Hlen Hmax Htop. apply Hall. simpl.
    intros [E|(top' & Hmax' & Hlt)]; [contradiction|].
    rewrite Hmax in Hmax'. injection Hmax' as <-. lra.
  - intros verts0 verts1 top Hlen Hmax Htop. apply Hall. simpl.
    intros [E|(top' & Hmax' & Hlt)]; [contradiction|].
    rewrite Hmax in Hmax'. injection Hmax' as <-. fold llen in Hlt. lra.
Qed.

End Backwards.

Example backwards_index_beyond_nverts :
  let empty (n : Z) := sparse.mk_csr ([] : list bool) [] (repeat 0%Z (Z.to_nat n + 1))
                                     (n, 8%Z) in
  let m := Mapper.mk_mapper (Mapper.mk_base None "S1" "fullhead" "c.npz" (2, 2, 2)%Z)
                            (empty 2%Z, empty 1%Z) 3 in
  Mapper.backwards (fun _ _ _ => Raise NotImplementedError) m
                   (Mapper.Single (Mapper.IntArr [0; 3]%Z))
  = Raise ValueError.
Proof. reflexivity. Qed.

(* ================================================================== *)
(** * Further properties of the kernels *)

(** ** Trilinear kernel: where the weights go and how large they are *)

Lemma trilinear_row_sums_to_one_witness :
  [(3 # 2, 1, 5 # 2)%Q] !! 0%nat = Some (3 # 2, 1, 5 # 2)%Q /\
  (sparse.row_sum 0%Q Qplus
     (Trilinear._getmask (4, 4, 4)%Z [(3 # 2, 1, 5 # 2)%Q] []) 0 == 1)%Q.
Proof.
  split; [reflexivity|].
  exact (trilinear_row_sums_to_one (4, 4, 4)%Z [(3 # 2, 1, 5 # 2)%Q] [] 0
                                   (3 # 2, 1, 5 # 2)%Q eq_refl).
Defined.

Lemma clip_range (n i : Z) : (0 < n)%Z -> (0 <= np.clip n i < n)%Z.
Proof.
  intros Hn. unfold np.clip.
  destruct (Z.ltb_spec i 0); [lia|].
  destruct (Z.leb_spec n i); lia.
Qed.

Lemma ravel_clip_in_grid (idx : Z * Z * Z) (n0 n1 n2 : Z) :
  (0 < n0)%Z -> (0 < n1)%Z -> (0 < n2)%Z ->
  (0 <= np.ravel_multi_index_clip idx (n0, n1, n2) < np.prod (n0, n1, n2))%Z.
Proof.
  intros H0 H1 H2. destruct idx as [[i0 i1] i2].
  unfold np.ravel_multi_index_clip, np.ravel, np.prod.
  pose proof (clip_range n0 i0 H0). pose proof (clip_range n1 i1 H1).
  pose proof (clip_range n2 i2 H2).
  set (c0 := np.clip n0 i0) in *. set (c1 := np.clip n1 i1) in *.
  set (c2 := np.clip n2 i2) in *.
  assert (c0 * n1 <= (n0 - 1) * n1)%Z by (apply Z.mul_le_mono_nonneg_r; lia).
  assert (0 <= c0 * n1)%Z by (apply Z.mul_nonneg_nonneg; lia).
  assert ((c0 * n1 + c1) * n2 <= (n0 * n1 - 1) * n2)%Z
    by (apply Z.mul_le_mono_nonneg_r; lia).
  assert (0 <= (c0 * n1 + c1) * n2)%Z by (apply Z.mul_nonneg_nonneg; lia).
  lia.
Qed.

(** Lines 191-196: the clamped fractional part lies in [0, 1). *)
Lemma split_axis_fraction (c : Q) :
  (0 <= fst (Trilinear.split_axis c) < 1)%Q.
Proof.
  unfold Trilinear.split_axis, np.modf, np.trunc.
  destruct (Qle_bool 0 c) eqn:Hc.
  - apply Qle_bool_iff in Hc. destruct (Qfloor_bounds c) as [H1 H2].
    destruct (np.ltb (c - inject_Z (Qfloor c)) 0) eqn:E; simpl.
    + split; lra.
    + split; lra.
  - pose proof (Qle_ceiling c) as H1. pose proof (Qceiling_lt c) as H2.
    unfold Z.sub in H2. rewrite inject_Z_plus, inject_Z_opp in H2.
    change (inject_Z 1) with 1%Q in H2.
    destruct (np.ltb (c - inject_Z (Qceiling c)) 0) eqn:E; simpl.
    + split; lra.
    + apply ltb_false in E. split; lra.
Qed.

Lemma Qmult_unit (a b : Q) : (0 <= a <= 1 -> 0 <= b <= 1 -> 0 <= a * b <= 1)%Q.
Proof.
  intros [Ha0 Ha1] [Hb0 Hb1]. split.
  - now apply Qmult_le_0_compat.
  - assert (a * b <= 1 * b)%Q by (apply Qmult_le_compat_r; assumption). lra.
Qed.

Lemma trilinear_weights_unit (p : point) :
  Forall (fun w => 0 <= w <= 1)%Q (Trilinear.weights p).
Proof.
  destruct p as [[x y] z]. unfold Trilinear.weights.
  pose proof (split_axis_fraction x) as Hx.
  pose proof (split_axis_fraction y) as Hy.
  pose proof (split_axis_fraction z) as Hz.
  set (fx := fst (Trilinear.split_axis x)) in *.
  set (fy := fst (Trilinear.split_axis y)) in *.
  set (fz := fst (Trilinear.split_axis z)) in *.
  assert (0 <= fx <= 1)%Q by lra. assert (0 <= 1 - fx <= 1)%Q by lra.
  assert (0 <= fy <= 1)%Q by lra. assert (0 <= 1 - fy <= 1)%Q by lra.
  assert (0 <= fz <= 1)%Q by lra. assert (0 <= 1 - fz <= 1)%Q by lra.
  repeat constructor; repeat apply Qmult_unit; assumption.
Qed.

Lemma trilinear_corners_in_grid (n0 n1 n2 : Z) (p : point) :
  (0 < n0)%Z -> (0 < n1)%Z -> (0 < n2)%Z ->
  Forall (fun j => 0 <= j < np.prod (n0, n1, n2))%Z
         (Trilinear.corners (n0, n1, n2) p).
Proof.
  intros H0 H1 H2. destruct p as [[x y] z]. unfold Trilinear.corners.
  repeat constructor; apply ravel_clip_in_grid; assumption.
Qed.

(** *** What summing duplicates keeps *)

Section SumDuplicates.
Variable P : Z -> Prop.

Lemma accumulate_keys (j : Z) (d : Q) (row : list (Z * Q)) :
  P j -> Forall (fun e => P (fst e)) row ->
  Forall (fun e => P (fst e)) (sparse.accumulate Qplus j d row).
Proof.
  intros Hj. induction row as [|[j' d'] row IH]; intros Hrow; simpl.
  - repeat constructor. exact Hj.
  - inversion Hrow as [|? ? Hh Ht]; subst.
    destruct (j <? j')%Z; [constructor; [exact Hj|exact Hrow]|].
    destruct (j =? j')%Z; constructor; auto.
Qed.

Lemma sum_duplicates_keys (entries : list (Z * Q)) :
  Forall (fun e => P (fst e)) entries ->
  Forall (fun e => P (fst e)) (sparse.sum_duplicates Qplus entries).
Proof.
  unfold sparse.sum_duplicates.
  assert (forall acc : list (Z * Q),
             Forall (fun e => P (fst e)) acc ->
             Forall (fun e => P (fst e)) entries ->
             Forall (fun e => P (fst e))
                    (fold_left (fun row e => sparse.accumulate Qplus (fst e) (snd e) row)
                               entries acc)) as H.
  { induction entries as [|e entries IH]; intros acc Hacc Hes; simpl.
    - exact Hacc.
    - inversion Hes; subst. apply IH; [|assumption].
      now apply accumulate_keys. }
  intros Hes. apply H; [constructor|exact Hes].
Qed.

End SumDuplicates.

Lemma accumulate_nonneg (j : Z) (d : Q) (row : list (Z * Q)) :
  (0 <= d)%Q -> Forall (fun e => 0 <= snd e)%Q row ->
  Forall (fun e => 0 <= snd e)%Q (sparse.accumulate Qplus j d row).
Proof.
  intros Hd. induction row as [|[j' d'] row IH]; intros Hrow; simpl.
  - repeat constructor. exact Hd.
  - inversion Hrow as [|? ? Hh Ht]; subst. simpl in Hh.
    destruct (j <? j')%Z; [constructor; [exact Hd|exact Hrow]|].
    destruct (j =? j')%Z; constructor; simpl; auto. lra.
Qed.

Lemma accumulate_length (j : Z) (d : Q) (row : list (Z * Q)) :
  (length (sparse.accumulate Qplus j d row) <= S (length row))%nat.
Proof.
  induction row as [|[j' d'] row IH]; simpl; [lia|].
  destruct (j <? j')%Z; simpl; [lia|].
  destruct (j =? j')%Z; simpl; lia.
Qed.

Lemma sum_duplicates_nonneg_length (entries : list (Z * Q)) :
  Forall (fun e => 0 <= snd e)%Q entries ->
  Forall (fun e => 0 <= snd e)%Q (sparse.sum_duplicates Qplus entries) /\
  (length (sparse.sum_duplicates Qplus entries) <= length entries)%nat.
Proof.
  unfold sparse.sum_duplicates.
  assert (forall acc : list (Z * Q),
             Forall (fun e => 0 <= snd e)%Q acc ->
             Forall (fun e => 0 <= snd e)%Q entries ->
             let out := fold_left
                          (fun row e => sparse.accumulate Qplus (fst e) (snd e) row)
                          entries acc in
             Forall (fun e => 0 <= snd e)%Q out /\
             (length out <= length acc + length entries)%nat) as H.
  { induction entries as [|e entries IH]; intros acc Hacc Hes; simpl.
    - split; [exact Hacc|lia].
    - inversion Hes as [|? ? He0 Hes0]; subst.
      destruct (IH (sparse.accumulate Qplus (fst e) (snd e) acc)) as [H1 H2];
        [now apply accumulate_nonneg|assumption|].
      split; [exact H1|].
      pose proof (accumulate_length (fst e) (snd e) acc). simpl in H2. lia. }
  intros Hes. apply (H []); [constructor|exact Hes].
Qed.

Lemma Qsum_nonneg (l : list Q) : Forall (fun w => 0 <= w)%Q l -> (0 <= Qsum l)%Q.
Proof.
  induction 1 as [|w l Hw Hl IH]; simpl; [lra|]. lra.
Qed.

Lemma Qsum_bounds_element (l : list Q) (w : Q) :
  Forall (fun w => 0 <= w)%Q l -> In w l -> (w <= Qsum l)%Q.
Proof.
  induction 1 as [|x l Hx Hl IH]; intros Hin; simpl; [contradiction|].
  pose proof (Qsum_nonneg l Hl).
  destruct Hin as [->|Hin]; [lra|]. specialize (IH Hin). lra.
Qed.

(** X3.  A row of the trilinear operator (lines 198-220) on a grid
    with positive extents: at most eight stored entries, every one on a
    voxel of the grid, every weight between 0 and 1. *)
Theorem trilinear_row_in_grid_unit_weights
        (n0 n1 n2 : Z) (coords : list point) (polys : list face)
        (v : nat) (p : point) :
  coords !! v = Some p ->
  (0 < n0)%Z -> (0 < n1)%Z -> (0 < n2)%Z ->
  let row := sparse.getrow (Trilinear._getmask (n0, n1, n2) coords polys) v in
  (length row <= 8)%nat /\
  Forall (fun e => (0 <= fst e < n0 * n1 * n2)%Z /\ (0 <= snd e <= 1)%Q) row.
Proof.
  intros Hp H0 H1 H2 row. unfold row.
  rewrite (trilinear_getrow _ _ _ _ _ Hp).
  set (entries := combine (Trilinear.corners (n0, n1, n2) p) (Trilinear.weights p)).
  assert (map fst entries = Trilinear.corners (n0, n1, n2) p) as Hk
      by (destruct p as [[x y] z]; reflexivity).
  assert (map snd entries = Trilinear.weights p) as Hw
      by (destruct p as [[x y] z]; reflexivity).
  assert (length entries = 8%nat) as Hlen by (destruct p as [[x y] z]; reflexivity).
  assert (Forall (fun e => 0 <= snd e)%Q entries) as Hnn.
  { apply Forall_map. rewrite Hw.
    pose proof (trilinear_weights_unit p) as Hu.
    rewrite Forall_forall in Hu |- *. intros w Hin. now apply Hu. }
  destruct (sum_duplicates_nonneg_length entries Hnn) as [Hnn' Hlen'].
  split; [lia|].
  pose proof (sum_duplicates_keys (fun j => 0 <= j < n0 * n1 * n2)%Z entries) as Hkeys.
  assert (Forall (fun e => 0 <= fst e < n0 * n1 * n2)%Z
                 (sparse.sum_duplicates Qplus entries)) as Hin.
  { apply Hkeys.
    pose proof (trilinear_corners_in_grid n0 n1 n2 p H0 H1 H2) as Hc.
    rewrite <- Hk in Hc. unfold np.prod in Hc.
    rewrite Forall_forall in Hc. rewrite Forall_forall. intros e He. apply Hc.
    apply list_elem_of_In, in_map, list_elem_of_In. exact He. }
  rewrite Forall_forall in Hin. rewrite Forall_forall in Hnn'.
  rewrite Forall_forall. intros e He. split; [now apply Hin|]. split; [now apply Hnn'|].
  assert (snd e <= Qsum (map snd (sparse.sum_duplicates Qplus entries)))%Q as Hle.
  { apply Qsum_bounds_element.
    - apply Forall_map, Forall_forall. exact Hnn'.
    - apply in_map. apply list_elem_of_In. exact He. }
  rewrite sum_duplicates_Qsum, Hw, trilinear_weights_sum in Hle. exact Hle.
Qed.

Lemma trilinear_row_in_grid_witness :
  ([(1, 1, 3 # 2)%Q] !! 0%nat = Some (1, 1, 3 # 2)%Q /\
   (0 < 2)%Z) /\
  let row := sparse.getrow (Trilinear._getmask (2, 2, 2)%Z [(1, 1, 3 # 2)%Q] []) 0 in
  (length row <= 8)%nat /\
  Forall (fun e => (0 <= fst e < 2 * 2 * 2)%Z /\ (0 <= snd e <= 1)%Q) row.
Proof.
  split; [split; [reflexivity|lia]|].
  apply (trilinear_row_in_grid_unit_weights 2 2 2 [(1, 1, 3 # 2)%Q] [] 0
                                            (1, 1, 3 # 2)%Q eq_refl); lia.
Defined.

(** ** Nearest-neighbour kernel: the whole operator *)

Lemma map_seq_lookup {A B} (h : option A -> B) (l : list A) :
  map (fun r => h (l !! r)) (seq 0 (length l)) = map (fun c => h (Some c)) l.
Proof.
  induction l as [|a l IH]; [reflexivity|].
  simpl length. simpl seq. rewrite <- seq_shift, map_cons, map_map.
  simpl. f_equal. exact IH.
Qed.

Lemma row_ptrs_length {V} (s : Z) (rows : list (list (Z * V))) :
  length (sparse.row_ptrs s rows) = S (length rows).
Proof.
  revert s. induction rows as [|r rows IH]; intros s; simpl; [reflexivity|].
  now rewrite IH.
Qed.

Lemma nearest_operator_rows (shape : grid) (coords : list point) (polys : list face) :
  Nearest._getmask shape coords polys
  = sparse.of_rows (Z.of_nat (length coords), np.prod shape)
                   (map (nearest_row shape) coords).
Proof.
  unfold Nearest._getmask, sparse.of_coo. cbv zeta. f_equal.
  simpl fst. simpl snd. rewrite Nat2Z.id.
  unfold np.nonzero. rewrite nearest_coo_entries.
  rewrite <- (length_map Nearest.round_point coords).
  rewrite (map_ext _ (fun r => match map Nearest.round_point coords !! r with
                               | Some c => if Nearest.valid_point shape c
                                           then [(Nearest.ravelidx shape c, true)]
                                           else []
                               | None => []
                               end)).
  - rewrite (map_seq_lookup
               (fun o => match o with
                         | Some c => if Nearest.valid_point shape c
                                     then [(Nearest.ravelidx shape c, true)] else []
                         | None => []
                         end)).
    rewrite map_map. reflexivity.
  - intros r. rewrite nearest_entries_row. simpl. rewrite Nat.sub_0_r.
    destruct (map Nearest.round_point coords !! r) as [c|]; [|reflexivity].
    destruct (Nearest.valid_point shape c); reflexivity.
Qed.

Lemma nearest_rows_data (shape : grid) (coords : list point) :
  concat (map (map snd) (map (nearest_row shape) coords))
  = repeat true
      (length (List.filter
                 (fun p => Nearest.valid_point shape (Nearest.round_point p)) coords)) /\
  length (concat (map (map fst) (map (nearest_row shape) coords)))
  = length (List.filter
              (fun p => Nearest.valid_point shape (Nearest.round_point p)) coords) /\
  Forall (fun j => exists p, In p coords /\
                             Nearest.valid_point shape (Nearest.round_point p) = true /\
                             j = Nearest.ravelidx shape (Nearest.round_point p))
         (concat (map (map fst) (map (nearest_row shape) coords))).
Proof.
  induction coords as [|p coords (IH1 & IH2 & IH3)]; simpl.
  - repeat split; constructor.
  - unfold nearest_row at 1 3 5.
    destruct (Nearest.valid_point shape (Nearest.round_point p)) eqn:Hv; simpl.
    + rewrite IH1, IH2. repeat split.
      constructor.
      * exists p. repeat split; [now left|exact Hv].
      * rewrite Forall_forall in IH3. rewrite Forall_forall. intros j Hj.
        destruct (IH3 j Hj) as (q & Hq & Hvq & Hjq).
        exists q. repeat split; [now right|exact Hvq|exact Hjq].
    + repeat split; try assumption.
      rewrite Forall_forall in IH3. rewrite Forall_forall. intros j Hj.
      destruct (IH3 j Hj) as (q & Hq & Hvq & Hjq).
      exists q. repeat split; [now right|exact Hvq|exact Hjq].
Qed.

(** X4.  The nearest-neighbour operator as a whole (lines 173-186):
    one row per vertex and one column per voxel; the stored values are
    [True], one for every valid vertex and no other; every stored column
    is a voxel of the grid. *)
Theorem nearest_operator_stores_one_true_per_valid_vertex
        (shape : grid) (coords : list point) (polys : list face) :
  let m := Nearest._getmask shape coords polys in
  let nvalid := length (List.filter
                          (fun p => Nearest.valid_point shape (Nearest.round_point p))
                          coords) in
  sparse.shape m = (Z.of_nat (length coords), np.prod shape) /\
  length (sparse.indptr m) = S (length coords) /\
  sparse.data m = repeat true nvalid /\
  length (sparse.indices m) = nvalid /\
  Forall (fun j => 0 <= j < np.prod shape)%Z (sparse.indices m).
Proof.
  intros m nvalid. unfold m. rewrite nearest_operator_rows.
  destruct (nearest_rows_data shape coords) as (Hd & Hi & Hj).
  unfold sparse.of_rows. simpl.
  repeat split.
  - now rewrite row_ptrs_length, length_map.
  - exact Hd.
  - exact Hi.
  - rewrite Forall_forall in Hj. rewrite Forall_forall. intros j Hin.
    destruct (Hj j Hin) as (p & _ & Hv & ->).
    apply valid_point_spec in Hv.
    rewrite (ravelidx_in_grid _ _ Hv).
    destruct (Nearest.round_point p) as [[x y] z], shape as [[n0 n1] n2].
    simpl in Hv |- *. destruct Hv as (Hx & Hy & Hz).
    assert (z * n1 <= (n0 - 1) * n1)%Z by (apply Z.mul_le_mono_nonneg_r; lia).
    assert (0 <= z * n1)%Z by (apply Z.mul_nonneg_nonneg; lia).
    assert ((z * n1 + y) * n2 <= (n0 * n1 - 1) * n2)%Z
      by (apply Z.mul_le_mono_nonneg_r; lia).
    assert (0 <= (z * n1 + y) * n2)%Z by (apply Z.mul_nonneg_nonneg; lia).
    lia.
Qed.

(** ** Lanczos kernel: vertices out of reach of the window *)

Lemma support_out_of_reach (window : Q) (n : Z) (c : Q) :
  out_of_reach window n c -> Lanczos.support (Lanczos.axis window n c) = [].
Proof.
  intros Hfar. unfold Lanczos.support, Lanczos.axis, np.arange, np.nonzero.
  rewrite (map_map (fun k => Lanczos.lanczos window (c - inject_Z k)) Fl.nonzero).
  rewrite (nonzero_one_hot _ (-1)%Z).
  - simpl. reflexivity.
  - intros k Hk.
    rewrite lanczos_outside_window by (apply Hfar; lia).
    rewrite (nonzero_fin_zero 0 eq_refl).
    symmetry. apply Z.eqb_neq. lia.
Qed.

(** X5.  A vertex that on some axis is at least [window] away from
    every voxel centre has no nonzero weight on that axis: line 253 raises
    [ValueError], line 258 catches it, and the row of the vertex stays
    empty, whatever [renorm] says.  With [window <= 0] this is every
    vertex. *)
Theorem lanczos_row_empty_out_of_reach
        (nZ nY nX : Z) (coords : list point) (polys : list face)
        (window : Q) (renorm : bool) (v : nat) (x y z : Q) :
  coords !! v = Some (x, y, z) ->
  out_of_reach window nX x \/ out_of_reach window nY y \/ out_of_reach window nZ z ->
  exists m : sparse.csr_matrix fl,
    snd (Lanczos._getmask true (nZ, nY, nX) coords polys window renorm) = Ok m /\
    sparse.getrow m v = [] /\
    forall j : Z, sparse.get (Fin 0) Fl.add m v j = Fin 0.
Proof.
  intros Hp Hfar. eexists. split; [reflexivity|].
  assert (v < length coords)%nat as Hv by (eapply lookup_lt_Some; eauto).
  assert (Lanczos.row (nZ, nY, nX) window renorm (x, y, z) = []) as Hrow.
  { unfold Lanczos.row.
    assert (Lanczos.product
              (Lanczos.support (Lanczos.axis window nZ z))
              (Lanczos.support (Lanczos.axis window nY y))
              (Lanczos.support (Lanczos.axis window nX x)) = []) as ->.
    { destruct Hfar as [H|[H|H]]; rewrite (support_out_of_reach _ _ _ H).
      - apply product_nil_r.
      - apply product_nil_m.
      - reflexivity. }
    reflexivity. }
  assert (sparse.getrow
            (sparse.of_rows (Z.of_nat (length coords), np.prod (nZ, nY, nX))
                            (map (Lanczos.row (nZ, nY, nX) window renorm) coords)) v
          = []) as Hget.
  { rewrite getrow_of_rows by (rewrite length_map; exact Hv).
    apply nth_lookup_Some. rewrite (lookup_map _ _ _ _ Hp). now f_equal. }
  split; [exact Hget|].
  intros j. unfold sparse.get. rewrite Hget. reflexivity.
Qed.

Lemma lanczos_row_empty_out_of_reach_witness :
  ([(10, 1, 1)%Q] !! 0%nat = Some (10, 1, 1)%Q /\ out_of_reach 3 3 10) /\
  exists m : sparse.csr_matrix fl,
    snd (Lanczos._getmask true (3, 3, 3)%Z [(10, 1, 1)%Q] [] 3 true) = Ok m /\
    sparse.getrow m 0 = [] /\
    forall j : Z, sparse.get (Fin 0) Fl.add m 0 j = Fin 0.
Proof.
  assert (out_of_reach 3 3 10) as Hfar.
  { intros k Hk.
    assert (k = 0 \/ k = 1 \/ k = 2)%Z as [->|[->| ->]] by lia;
      vm_compute; discriminate. }
  split; [split; [reflexivity|exact Hfar]|].
  exact (lanczos_row_empty_out_of_reach 3 3 3 [(10, 1, 1)%Q] [] 3 true 0 10 1 1
                                        eq_refl (or_introl Hfar)).
Defined.

(** ** Construction: forced rebuilds, unreadable archives, reloading *)

Lemma npz_path_other (path : string) :
  Mapper.endswith path ".npz" = false -> Mapper.npz_path path <> path.
Proof.
  intros H. unfold Mapper.npz_path. rewrite H. intros E.
  apply (f_equal String.length) in E. rewrite string_length_append in E.
  simpl in E. lia.
Qed.

Section ConstructionMore.
Context {V : Type}.
Implicit Types fs : gmap string (@Mapper.file V).

Lemma init_after_paths fs (now : Q) (projcache xfms : list Mapper.segment)
      (n0 n1 n2 : Z) (build : result (list (sparse.csr_matrix V)))
      (class_name subject xfmname : string) (recache : bool)
      (kwargs : list (string * Mapper.pyval)) (cache xfmfile : string) :
  Mapper.cachefile_of projcache xfmname class_name kwargs = Ok cache ->
  Mapper.format xfms [("xfmname", xfmname)]%string = Ok xfmfile ->
  Mapper.__init__ fs now projcache xfms (n0, n1, n2) build
                  class_name subject xfmname recache kwargs
  = match Mapper.load_cache fs cache xfmfile recache with
    | Ok (lsparse, rsparse) =>
        Ok (Mapper.mk_mapper (base_of subject xfmname cache n0 n1 n2)
              (lsparse, rsparse)
              (fst (sparse.shape lsparse) + fst (sparse.shape rsparse))%Z, fs)
    | Raise IOError =>
        Mapper._recache (base_of subject xfmname cache n0 n1 n2) fs now build
    | Raise e => Raise e
    end.
Proof.
  intros Hc Hx. unfold Mapper.__init__.
  rewrite Hc. cbn [mbind result_bind]. rewrite Hx. reflexivity.
Qed.

Lemma load_cache_forced fs (cache xfmfile : string) :
  Mapper.load_cache fs cache xfmfile true = Raise IOError.
Proof.
  unfold Mapper.load_cache, Mapper.np_load.
  destruct (fs !! cache); reflexivity.
Qed.

(** X6.  With [recache] true the construction is the rebuild,
    whatever the files are: line 34 raises [IOError] before it looks at a
    modification time or at an array of the archive (lines 33-35, 43-44). *)
Theorem forced_recache_always_rebuilds
        fs (now : Q) (projcache xfms : list Mapper.segment)
        (n0 n1 n2 : Z) (build : result (list (sparse.csr_matrix V)))
        (class_name subject xfmname : string)
        (kwargs : list (string * Mapper.pyval)) (cache xfmfile : string) :
  Mapper.cachefile_of projcache xfmname class_name kwargs = Ok cache ->
  Mapper.format xfms [("xfmname", xfmname)]%string = Ok xfmfile ->
  Mapper.__init__ fs now projcache xfms (n0, n1, n2) build
                  class_name subject xfmname true kwargs
  = Mapper._recache (base_of subject xfmname cache n0 n1 n2) fs now build.
Proof.
  intros Hc Hx.
  rewrite (init_after_paths _ _ _ _ _ _ _ _ _ _ _ _ _ cache xfmfile Hc Hx).
  now rewrite load_cache_forced.
Qed.

Lemma load_masks_missing_array (archive : gmap string (@Mapper.npy V)) (name : string) :
  In name read_first -> archive !! name = None ->
  Mapper.load_masks archive = Raise KeyError.
Proof.
  intros Hin Hnone. unfold Mapper.load_masks, Mapper.field.
  destruct (archive !! "left_data"%string) eqn:E1; [|reflexivity].
  destruct (archive !! "left_indices"%string) eqn:E2; [|reflexivity].
  destruct (archive !! "left_indptr"%string) eqn:E3; [|reflexivity].
  destruct (archive !! "right_data"%string) eqn:E4; [|reflexivity].
  destruct (archive !! "right_indices"%string) eqn:E5; [|reflexivity].
  destruct (archive !! "right_indptr"%string) eqn:E6; [|reflexivity].
  destruct (archive !! "left_shape"%string) eqn:E7; [|reflexivity].
  exfalso. unfold read_first in Hin. simpl in Hin.
  repeat (destruct Hin as [<-|Hin]; [congruence|]). exact Hin.
Qed.

(** X7.  An archive that is there and not older than the
    transform file, but lacks one of the arrays that lines 37-39 read,
    makes the construction raise [KeyError]: line 43 catches [IOError]
    alone, nothing is rebuilt. *)
Theorem fresh_archive_without_array_raises_key_error
        fs (now : Q) (projcache xfms : list Mapper.segment)
        (n0 n1 n2 : Z) (build : result (list (sparse.csr_matrix V)))
        (class_name subject xfmname : string)
        (kwargs : list (string * Mapper.pyval)) (cache xfmfile : string)
        (tx : Q) (f : Mapper.file) (name : string) :
  Mapper.cachefile_of projcache xfmname class_name kwargs = Ok cache ->
  Mapper.format xfms [("xfmname", xfmname)]%string = Ok xfmfile ->
  Mapper.os_stat fs xfmfile = Ok tx ->
  fs !! cache = Some f -> (tx <= Mapper.st_mtime f)%Q ->
  In name read_first -> Mapper.npz f !! name = None ->
  Mapper.__init__ fs now projcache xfms (n0, n1, n2) build
                  class_name subject xfmname false kwargs
  = Raise KeyError.
Proof.
  intros Hc Hx Hstat Hf Hfresh Hin Hnone.
  rewrite (init_after_paths _ _ _ _ _ _ _ _ _ _ _ _ _ cache xfmfile Hc Hx).
  rewrite (load_cache_present _ _ _ f tx Hf Hstat).
  assert (np.ltb (Mapper.st_mtime f) tx = false) as -> by now apply ltb_false.
  now rewrite (load_masks_missing_array _ name Hin Hnone).
Qed.

(** X8.  What a construction that returns has set up, whichever
    way it went: [nverts] is the sum of the row counts of the two operators
    (lines 42 and 142), no [idxmap], the grid shape is the shape of the
    reference volume reversed (line 29), and the files are as they were or
    differ by the archive of these two operators at the cache path. *)
Theorem construction_sets_nverts_and_shape
        fs fs' (now : Q) (projcache xfms : list Mapper.segment)
        (n0 n1 n2 : Z) (build : result (list (sparse.csr_matrix V)))
        (class_name subject xfmname : string) (recache : bool)
        (kwargs : list (string * Mapper.pyval)) (m : Mapper.t) :
  Mapper.__init__ fs now projcache xfms (n0, n1, n2) build
                  class_name subject xfmname recache kwargs
  = Ok (m, fs') ->
  Mapper.nverts m
  = (fst (sparse.shape (fst (Mapper.masks m)))
     + fst (sparse.shape (snd (Mapper.masks m))))%Z /\
  Mapper.idxmap (Mapper.self m) = None /\
  Mapper.shape (Mapper.self m) = (n2, n1, n0) /\
  Mapper.cachefile_of projcache xfmname class_name kwargs
  = Ok (Mapper.cachefile (Mapper.self m)) /\
  (fs' = fs \/
   fs' = <[Mapper.npz_path (Mapper.cachefile (Mapper.self m))
           := Mapper.mk_file now (Mapper.savez_fields (fst (Mapper.masks m))
                                                      (snd (Mapper.masks m)))]> fs).
Proof.
  unfold Mapper.__init__. intros H.
  destruct (Mapper.cachefile_of projcache xfmname class_name kwargs) as [cache|]
    eqn:Hc; [|discriminate].
  cbn [mbind result_bind] in H.
  destruct (Mapper.format xfms [("xfmname", xfmname)]%string) as [xfmfile|];
    [|discriminate].
  cbn [mbind result_bind] in H.
  destruct (Mapper.load_cache fs cache xfmfile recache) as [[l r]|e].
  - injection H as <- <-. simpl. repeat split; try reflexivity. now left.
  - destruct e; try discriminate.
    unfold Mapper._recache in H.
    destruct build as [[|l [|r [|]]]|]; try discriminate.
    cbn [mbind result_bind] in H. unfold Mapper._savecache in H.
    injection H as <- <-. simpl. repeat split; try reflexivity. now right.
Qed.

(** X9.  A mapper that a rebuild has returned is what the next
    construction returns, from the archive and without a rebuild, where
    the cache path ends in [.npz] (so that [np.savez] writes where
    [np.load] reads), is not the path of the transform file, and the
    archive was not written before the transform file. *)
Theorem rebuilt_mapper_is_reloaded
        fs fs' (now now' : Q) (projcache xfms : list Mapper.segment)
        (n0 n1 n2 : Z) (build build' : result (list (sparse.csr_matrix V)))
        (class_name subject xfmname : string)
        (kwargs : list (string * Mapper.pyval)) (cache xfmfile : string)
        (tx : Q) (m : Mapper.t) :
  Mapper.cachefile_of projcache xfmname class_name kwargs = Ok cache ->
  Mapper.format xfms [("xfmname", xfmname)]%string = Ok xfmfile ->
  Mapper.endswith cache ".npz" = true ->
  xfmfile <> cache ->
  Mapper.os_stat fs xfmfile = Ok tx -> (tx <= now)%Q ->
  Mapper._recache (base_of subject xfmname cache n0 n1 n2) fs now build
  = Ok (m, fs') ->
  Mapper.__init__ fs' now' projcache xfms (n0, n1, n2) build'
                  class_name subject xfmname false kwargs
  = Ok (m, fs').
Proof.
  intros Hc Hx Hnpz Hne Hstat Hfresh Hre.
  unfold Mapper._recache in Hre.
  destruct build as [[|l [|r [|]]]|]; try discriminate.
  cbn [mbind result_bind] in Hre.
  rewrite (init_after_paths _ _ _ _ _ _ _ _ _ _ _ _ _ cache xfmfile Hc Hx).
  pose proof (rebuilt_cache_is_reused fs now tx
                (base_of subject xfmname cache n0 n1 n2) xfmfile l r
                Hnpz Hne Hstat Hfresh) as Hload.
  injection Hre as <- <-.
  unfold Mapper._savecache in *. cbn [snd] in Hload. cbn [Mapper.cachefile base_of] in *.
  rewrite Hload. reflexivity.
Qed.

(** X10.  Where the cache path does not end in [.npz], [np.savez]
    writes the archive beside it (line 144): the cache path stays missing
    and the next construction rebuilds again. *)
Theorem cache_without_npz_suffix_is_never_reused
        fs fs' (now now' : Q) (projcache xfms : list Mapper.segment)
        (n0 n1 n2 : Z) (build build' : result (list (sparse.csr_matrix V)))
        (class_name subject xfmname : string)
        (kwargs : list (string * Mapper.pyval)) (cache xfmfile : string)
        (m : Mapper.t) :
  Mapper.cachefile_of projcache xfmname class_name kwargs = Ok cache ->
  Mapper.format xfms [("xfmname", xfmname)]%string = Ok xfmfile ->
  Mapper.endswith cache ".npz" = false ->
  fs !! cache = None ->
  Mapper._recache (base_of subject xfmname cache n0 n1 n2) fs now build
  = Ok (m, fs') ->
  fs' !! cache = None /\
  Mapper.__init__ fs' now' projcache xfms (n0, n1, n2) build'
                  class_name subject xfmname false kwargs
  = Mapper._recache (base_of subject xfmname cache n0 n1 n2) fs' now' build'.
Proof.
  intros Hc Hx Hnpz Hnone Hre.
  unfold Mapper._recache in Hre.
  destruct build as [[|l [|r [|]]]|]; try discriminate.
  cbn [mbind result_bind] in Hre. unfold Mapper._savecache in Hre.
  injection Hre as <- <-. cbn [Mapper.cachefile base_of].
  assert ((<[Mapper.npz_path cache
             := Mapper.mk_file now (Mapper.savez_fields l r)]> fs) !! cache = None)
    as Hstill.
  { rewrite lookup_insert_ne by now apply npz_path_other. exact Hnone. }
  split; [exact Hstill|].
  rewrite (init_after_paths _ _ _ _ _ _ _ _ _ _ _ _ _ cache xfmfile Hc Hx).
  now rewrite (load_cache_missing _ _ _ _ Hstill).
Qed.

(** X11.  A Gaussian mapper comes from a cache only.  Where the
    archive is missing, older than the transform file, or a rebuild is
    forced, the construction raises [NotImplementedError] (lines 44 and
    267-268; the keywords are [std] at most). *)
Theorem gaussian_needs_fresh_cache
        fs (now : Q) (projcache xfms : list Mapper.segment)
        (n0 n1 n2 : Z) (subject xfmname : string) (recache : bool)
        (kwargs : list (string * Mapper.pyval)) (cache xfmfile : string) (tx : Q) :
  Mapper.cachefile_of projcache xfmname "Gaussian" kwargs = Ok cache ->
  Mapper.format xfms [("xfmname", xfmname)]%string = Ok xfmfile ->
  Mapper.os_stat fs xfmfile = Ok tx ->
  Forall (fun kv => fst kv = "std"%string) kwargs ->
  recache = true \/ missing_or_stale fs cache tx ->
  Mapper.__init__ fs now projcache xfms (n0, n1, n2) (Gaussian._recache kwargs)
                  "Gaussian" subject xfmname recache kwargs
  = Raise NotImplementedError.
Proof.
  intros Hc Hx Hstat Hkw Hwhy.
  rewrite (init_after_paths _ _ _ _ _ _ _ _ _ _ _ _ _ cache xfmfile Hc Hx).
  assert (Mapper.load_cache fs cache xfmfile recache = Raise IOError) as ->.
  { destruct Hwhy as [->|[Hm|(f & Hf & Hlt)]].
    - apply load_cache_forced.
    - destruct recache; [apply load_cache_forced|now apply load_cache_missing].
    - destruct recache; [apply load_cache_forced|].
      rewrite (load_cache_present _ _ _ f tx Hf Hstat).
      apply ltb_spec in Hlt. now rewrite Hlt. }
  unfold Mapper._recache, Gaussian._recache.
  assert (forallb (fun kv : string * Mapper.pyval => String.eqb (fst kv) "std") kwargs
          = true) as ->.
  { apply forallb_forall. rewrite Forall_forall in Hkw. intros kv Hin.
    apply String.eqb_eq. apply Hkw. now apply list_elem_of_In. }
  reflexivity.
Qed.

End ConstructionMore.

(** ** backwards: index arrays *)

Lemma repeat_false_lookup (n k : nat) : repeat false n !! k <> Some true.
Proof.
  intros H. apply list_elem_of_lookup_2 in H. apply list_elem_of_In in H.
  apply repeat_spec in H. discriminate.
Qed.

Lemma set_indices_marks (idx : list Z) :
  forall mask : list bool,
    Forall (fun i => - Z.of_nat (length mask) <= i < Z.of_nat (length mask))%Z idx ->
    exists mask' : list bool,
      Mapper.set_indices mask idx = Ok mask' /\
      length mask' = length mask /\
      forall k : nat,
        mask' !! k = Some true
        <-> (mask !! k = Some true \/
             exists i : Z, In i idx /\
                           Z.to_nat (i mod Z.of_nat (length mask)) = k).
Proof.
  induction idx as [|i idx IH]; intros mask Hall.
  - exists mask. repeat split; try tauto.
    intros [H|(i & [] & _)]. exact H.
  - inversion Hall as [|? ? Hi Hrest]; subst.
    set (n := Z.of_nat (length mask)) in *.
    assert (0 < n)%Z as Hn by lia.
    pose proof (Z.mod_pos_bound i n Hn) as Hmod.
    set (k0 := Z.to_nat (i mod n)).
    assert (k0 < length mask)%nat as Hk0 by (unfold k0; lia).
    destruct (IH (<[k0 := true]> mask)) as (mask' & Hok & Hlen & Hspec).
    { rewrite length_insert. exact Hrest. }
    rewrite length_insert in Hlen, Hspec.
    exists mask'. split; [|split; [exact Hlen|]].
    + simpl. fold n.
      assert (((- n <=? i) && (i <? n))%Z = true) as ->
          by (apply andb_true_iff; split; [apply Z.leb_le|apply Z.ltb_lt]; lia).
      exact Hok.
    + intros k. rewrite Hspec. fold n. split.
      * intros [H|(j & Hj & Hk)].
        -- destruct (Nat.eq_dec k0 k) as [<-|Hne].
           ++ right. exists i. split; [now left|reflexivity].
           ++ left. now rewrite list_lookup_insert_ne in H.
        -- right. exists j. split; [now right|exact Hk].
      * intros [H|(j & [<-|Hj] & Hk)].
        -- left. destruct (Nat.eq_dec k0 k) as [<-|Hne].
           ++ now apply list_lookup_insert_eq.
           ++ now rewrite list_lookup_insert_ne.
        -- left. fold k0 in Hk. subst k. now apply list_lookup_insert_eq.
        -- right. exists j. split; assumption.
Qed.

Lemma set_indices_out_of_range (idx : list Z) :
  forall mask : list bool,
    Exists (fun i => ~ (- Z.of_nat (length mask) <= i < Z.of_nat (length mask))%Z) idx ->
    Mapper.set_indices mask idx = Raise IndexError.
Proof.
  induction idx as [|i idx IH]; intros mask Hex.
  - inversion Hex.
  - simpl.
    destruct ((- Z.of_nat (length mask) <=? i) && (i <? Z.of_nat (length mask)))%Z
      eqn:E; [|reflexivity].
    apply andb_true_iff in E. destruct E as [E1 E2].
    apply Z.leb_le in E1. apply Z.ltb_lt in E2.
    apply IH. rewrite length_insert.
    inversion Hex as [? ? Hbad|? ? Hlater]; subst; [lia|exact Hlater].
Qed.

Lemma fold_Qmax_bounds (l : list Q) (x b : Q) :
  (x < b)%Q -> Forall (fun y => y < b)%Q l -> (fold_left Qmax l x < b)%Q.
Proof.
  revert x. induction l as [|y l IH]; intros x Hx Hl; simpl; [exact Hx|].
  inversion Hl; subst. apply IH; [|assumption].
  apply Q.max_lub_lt; assumption.
Qed.

Lemma amax_below (l : list Z) (n : Z) :
  l <> [] -> Forall (fun i => i < n)%Z l ->
  exists top : Q, Mapper.amax (Mapper.IntArr l) = Ok top /\
                  np.ltb top (inject_Z n) = true.
Proof.
  intros Hne Hall. unfold Mapper.amax. simpl.
  destruct l as [|i l]; [contradiction|]. simpl.
  inversion Hall; subst.
  eexists. split; [reflexivity|]. apply ltb_spec.
  apply fold_Qmax_bounds.
  - rewrite <- Zlt_Qlt. assumption.
  - apply Forall_map. rewrite Forall_forall. intros j Hj.
    rewrite <- Zlt_Qlt.
    match goal with H : Forall _ l |- _ => rewrite Forall_forall in H; now apply H end.
Qed.

Section BackwardsIndices.
Context {V : Type}.
Variable project_back : Mapper.array -> sparse.csr_matrix V -> grid
                        -> result (Mapper.ndarray Q).

(** X12.  [backwards] on one array of vertex indices (lines 116-118)
    whose length is not [nverts] and whose values are below [nverts]: the
    vector of the left hemisphere is true exactly at the indices below the
    left vertex count, the vector of the right hemisphere exactly at the
    other indices less that count.  An index from [-llen] to [-1] passes
    the test of line 116 and marks the left vertex counted from the end. *)
Theorem backwards_index_array_marks_vertices (m : @Mapper.t V) (verts : list Z) :
  let llen := fst (sparse.shape (fst (Mapper.masks m))) in
  let rlen := fst (sparse.shape (snd (Mapper.masks m))) in
  Mapper.nverts m = (llen + rlen)%Z -> (0 <= llen)%Z -> (0 <= rlen)%Z ->
  verts <> [] -> Z.of_nat (length verts) <> Mapper.nverts m ->
  Forall (fun i => - llen <= i < Mapper.nverts m)%Z verts ->
  exists lvec rvec : list bool,
    Mapper.hemisphere_vectors m (Mapper.Single (Mapper.IntArr verts))
    = Ok (Mapper.BoolArr lvec, Mapper.BoolArr rvec) /\
    length lvec = Z.to_nat llen /\ length rvec = Z.to_nat rlen /\
    (forall k : nat,
        lvec !! k = Some true
        <-> exists i : Z, In i verts /\ (i < llen)%Z /\ Z.to_nat (i mod llen) = k) /\
    (forall k : nat,
        rvec !! k = Some true <-> In (Z.of_nat k + llen)%Z verts).
Proof.
  intros llen rlen Hn Hl Hr Hne Hlen Hall.
  unfold Mapper.hemisphere_vectors. fold llen rlen.
  assert (Mapper.alen (Mapper.IntArr verts) = Z.of_nat (length verts)) as Halen
      by (unfold Mapper.alen; simpl; now rewrite length_map).
  rewrite Halen.
  assert ((Z.of_nat (length verts) =? Mapper.nverts m)%Z = false) as ->
      by now apply Z.eqb_neq.
  destruct (amax_below verts (Mapper.nverts m) Hne) as (top & Hmax & Htop).
  { rewrite Forall_forall in Hall. rewrite Forall_forall.
    intros i Hi. apply Hall in Hi. lia. }
  rewrite Hmax. cbn [mbind result_bind]. rewrite Htop.
  unfold Mapper.set_true, Mapper.below, Mapper.from_minus.
  destruct (set_indices_marks (List.filter (fun x => (x <? llen)%Z) verts)
                              (repeat false (Z.to_nat llen)))
    as (lvec & -> & Hllen & Hlspec).
  { rewrite repeat_length, Z2Nat.id by lia.
    rewrite Forall_forall in Hall. rewrite Forall_forall.
    intros i Hi. apply list_elem_of_In, filter_In in Hi. destruct Hi as [Hi Hlt].
    apply Z.ltb_lt in Hlt. apply list_elem_of_In, Hall in Hi. lia. }
  destruct (set_indices_marks
              (map (fun x => (x - llen)%Z) (List.filter (fun x => (llen <=? x)%Z) verts))
              (repeat false (Z.to_nat rlen)))
    as (rvec & -> & Hrlen & Hrspec).
  { rewrite repeat_length, Z2Nat.id by lia.
    rewrite Forall_forall in Hall. rewrite Forall_forall.
    intros j Hj. apply list_elem_of_In, in_map_iff in Hj.
    destruct Hj as (i & <- & Hi). apply filter_In in Hi. destruct Hi as [Hi Hge].
    apply Z.leb_le in Hge. apply list_elem_of_In, Hall in Hi. lia. }
  cbn [mbind result_bind]. exists lvec, rvec.
  rewrite repeat_length in Hllen, Hrlen, Hlspec, Hrspec.
  rewrite Z2Nat.id in Hlspec, Hrspec by lia.
  split; [reflexivity|split; [exact Hllen|split; [exact Hrlen|split]]].
  - intros k. rewrite Hlspec. split.
    + intros [H|(i & Hi & Hk)]; [now apply repeat_false_lookup in H|].
      apply filter_In in Hi. destruct Hi as [Hi Hlt]. apply Z.ltb_lt in Hlt.
      exists i. repeat split; assumption.
    + intros (i & Hi & Hlt & Hk). right. exists i. split; [|exact Hk].
      apply filter_In. split; [exact Hi|now apply Z.ltb_lt].
  - intros k. rewrite Hrspec. split.
    + intros [H|(j & Hj & Hk)]; [now apply repeat_false_lookup in H|].
      apply in_map_iff in Hj. destruct Hj as (i & <- & Hi).
      apply filter_In in Hi. destruct Hi as [Hi Hge]. apply Z.leb_le in Hge.
      assert (i < Mapper.nverts m)%Z as Hlt.
      { rewrite Forall_forall in Hall. apply list_elem_of_In, Hall in Hi. lia. }
      rewrite Z.mod_small in Hk by lia.
      replace (Z.of_nat k + llen)%Z with i by lia. exact Hi.
    + intros Hin. right. exists (Z.of_nat k).
      assert (Z.of_nat k + llen < Mapper.nverts m)%Z as Hlt.
      { rewrite Forall_forall in Hall. apply list_elem_of_In, Hall in Hin. lia. }
      split.
      * apply in_map_iff. exists (Z.of_nat k + llen)%Z. split; [lia|].
        apply filter_In. split; [exact Hin|apply Z.leb_le; lia].
      * rewrite Z.mod_small by lia. apply Nat2Z.id.
Qed.

(** X13.  In a pair of index arrays only the first is tested against a
    vertex count (line 107).  An index of the second array outside the
    right hemisphere is found by the assignment of line 109, which raises
    [IndexError], not the [ValueError] of line 111. *)
Theorem backwards_pair_second_array_unchecked
        (m : @Mapper.t V) (verts0 verts1 : list Z) :
  let llen := fst (sparse.shape (fst (Mapper.masks m))) in
  let rlen := fst (sparse.shape (snd (Mapper.masks m))) in
  (0 <= llen)%Z -> (0 <= rlen)%Z ->
  verts0 <> [] -> Z.of_nat (length verts0) <> llen ->
  Forall (fun i => - llen <= i < llen)%Z verts0 ->
  Exists (fun i => ~ (- rlen <= i < rlen)%Z) verts1 ->
  Mapper.backwards project_back m
                   (Mapper.Pair (Mapper.IntArr verts0) (Mapper.IntArr verts1))
  = Raise IndexError.
Proof.
  intros llen rlen Hl Hr Hne Hlen Hall Hbad.
  unfold Mapper.backwards, Mapper.hemisphere_vectors. fold llen rlen.
  assert (Mapper.alen (Mapper.IntArr verts0) = Z.of_nat (length verts0)) as Halen
      by (unfold Mapper.alen; simpl; now rewrite length_map).
  rewrite Halen.
  assert ((Z.of_nat (length verts0) =? llen)%Z = false) as -> by now apply Z.eqb_neq.
  destruct (amax_below verts0 llen Hne) as (top & Hmax & Htop).
  { rewrite Forall_forall in Hall. rewrite Forall_forall.
    intros i Hi. apply Hall in Hi. lia. }
  rewrite Hmax. cbn [mbind result_bind]. rewrite Htop. unfold Mapper.set_true.
  destruct (set_indices_marks verts0 (repeat false (Z.to_nat llen)))
    as (lvec & -> & _ & _).
  { rewrite repeat_length, Z2Nat.id by lia. exact Hall. }
  cbn [mbind result_bind].
  rewrite set_indices_out_of_range; [reflexivity|].
  rewrite repeat_length, Z2Nat.id by lia. exact Hbad.
Qed.

End BackwardsIndices.

(** ** Monte-Carlo kernels: the nearest-neighbour sampler *)

Lemma count_up_spec (k : Z) (counts : list (Z * Z)) :
  List.NoDup (map fst counts) ->
  List.NoDup (map fst (ConvexNN.count_up k counts)) /\
  Zsum (map snd (ConvexNN.count_up k counts)) = (Zsum (map snd counts) + 1)%Z /\
  (forall j : Z, In j (map fst (ConvexNN.count_up k counts))
                 <-> j = k \/ In j (map fst counts)) /\
  (Forall (fun e => 1 <= snd e)%Z counts ->
   Forall (fun e => 1 <= snd e)%Z (ConvexNN.count_up k counts)).
Proof.
  induction counts as [|[j c] counts IH]; intros Hnd.
  - simpl. split; [|split; [|split]].
    + repeat constructor. intros H. inversion H.
    + reflexivity.
    + intros x. split; [intros [H|[]]; now left|intros [H|[]]; now left].
    + intros _. repeat constructor. simpl. lia.
  - simpl in Hnd. apply List.NoDup_cons_iff in Hnd. destruct Hnd as [Hj Hnd].
    destruct (IH Hnd) as (IH1 & IH2 & IH3 & IH4).
    simpl. destruct (Z.eqb_spec k j) as [->|Hne]; simpl.
    + split; [|split; [|split]].
      * apply List.NoDup_cons_iff. now split.
      * lia.
      * intros x. split; [intros H; now right|].
        intros [->|H]; [now left|exact H].
      * intros H. inversion H as [|? ? Hc Hrest]; subst.
        constructor; [simpl in *; lia|exact Hrest].
    + split; [|split; [|split]].
      * apply List.NoDup_cons_iff. split; [|exact IH1].
        intros H. apply IH3 in H. destruct H as [H|H]; [congruence|contradiction].
      * rewrite IH2. lia.
      * intros x. split.
        -- intros [H|H]; [right; now left|].
           apply IH3 in H. destruct H as [H|H]; [now left|right; now right].
        -- intros [H|[H|H]].
           ++ right. apply IH3. now left.
           ++ now left.
           ++ right. apply IH3. now right.
      * intros H. inversion H as [|? ? Hc Hrest]; subst.
        constructor; [exact Hc|now apply IH4].
Qed.

Lemma Counter_spec (idx : list Z) :
  List.NoDup (map fst (ConvexNN.Counter idx)) /\
  Zsum (map snd (ConvexNN.Counter idx)) = Z.of_nat (length idx) /\
  (forall j : Z, In j (map fst (ConvexNN.Counter idx)) <-> In j idx) /\
  Forall (fun e => 1 <= snd e)%Z (ConvexNN.Counter idx).
Proof.
  unfold ConvexNN.Counter.
  assert (forall counts : list (Z * Z),
             List.NoDup (map fst counts) ->
             Forall (fun e => 1 <= snd e)%Z counts ->
             let out := fold_left (fun counts k => ConvexNN.count_up k counts)
                                  idx counts in
             List.NoDup (map fst out) /\
             Zsum (map snd out) = (Zsum (map snd counts) + Z.of_nat (length idx))%Z /\
             (forall j : Z, In j (map fst out) <-> In j idx \/ In j (map fst counts)) /\
             Forall (fun e => 1 <= snd e)%Z out) as H.
  { induction idx as [|k idx IH]; intros counts Hnd Hpos; simpl.
    - split; [exact Hnd|split; [lia|split; [|exact Hpos]]].
      intros j. split; [intros Hj; now right|intros [[]|Hj]; exact Hj].
    - destruct (count_up_spec k counts Hnd) as (H1 & H2 & H3 & H4).
      destruct (IH (ConvexNN.count_up k counts) H1 (H4 Hpos)) as (I1 & I2 & I3 & I4).
      split; [exact I1|split; [|split; [|exact I4]]].
      + rewrite I2, H2. lia.
      + intros j. split.
        * intros Hj. apply I3 in Hj. destruct Hj as [Hj|Hj]; [left; now right|].
          apply H3 in Hj. destruct Hj as [->|Hj]; [left; now left|now right].
        * intros [[->|Hj]|Hj]; apply I3.
          -- right. apply H3. now left.
          -- now left.
          -- right. apply H3. now right. }
  destruct (H [] (List.NoDup_nil _) ltac:(constructor)) as (H1 & H2 & H3 & H4).
  split; [exact H1|split; [|split; [|exact H4]]].
  - rewrite H2. simpl. lia.
  - intros j. split.
    + intros Hj. apply H3 in Hj. destruct Hj as [Hj|[]]. exact Hj.
    + intros Hj. apply H3. now left.
Qed.

Lemma mapM_all_ok {A B} (f : A -> result B) (g : A -> B) (l : list A) :
  Forall (fun a => f a = Ok (g a)) l -> mapM f l = Ok (map g l).
Proof.
  induction 1 as [|a l Ha Hl IH]; simpl; [reflexivity|].
  rewrite Ha. cbn [mbind result_bind]. rewrite IH. reflexivity.
Qed.

Lemma compress_map_filter {A} (f : A -> bool) (l : list A) :
  np.compress (map f l) l = List.filter f l.
Proof.
  induction l as [|a l IH]; simpl; [reflexivity|].
  destruct (f a); now rewrite IH.
Qed.

Lemma convexnn_valid_ravel (shape : grid) (c : Z * Z * Z) :
  ConvexNN.valid_point shape c = true ->
  np.ravel_multi_index c shape = Ok (np.ravel c shape) /\
  (0 <= np.ravel c shape < np.prod shape)%Z.
Proof.
  destruct c as [[c0 c1] c2], shape as [[n0 n1] n2].
  unfold ConvexNN.valid_point, np.ravel_multi_index, np.in_axis. intros H.
  rewrite !andb_true_iff, !Z.leb_le, !Z.ltb_lt in H.
  split.
  - bounds_hold. reflexivity.
  - unfold np.ravel, np.prod.
    assert (c0 * n1 <= (n0 - 1) * n1)%Z by (apply Z.mul_le_mono_nonneg_r; lia).
    assert (0 <= c0 * n1)%Z by (apply Z.mul_nonneg_nonneg; lia).
    assert ((c0 * n1 + c1) * n2 <= (n0 * n1 - 1) * n2)%Z
      by (apply Z.mul_le_mono_nonneg_r; lia).
    assert (0 <= (c0 * n1 + c1) * n2)%Z by (apply Z.mul_nonneg_nonneg; lia).
    lia.
Qed.

Lemma convexnn_sample_items (shape : grid) (pts : list point) :
  ConvexNN._sample shape pts
  = Ok (Some (ConvexNN.Counter (map (fun c => np.ravel c shape)
                                    (convexnn_valid shape pts)))).
Proof.
  unfold ConvexNN._sample, convexnn_valid. cbv zeta.
  rewrite compress_map_filter.
  set (coords := map ConvexNN.round_point pts).
  destruct (existsb (fun b : bool => b) (map (ConvexNN.valid_point shape) coords))
    eqn:Hany.
  - rewrite (mapM_all_ok _ (fun c => np.ravel c shape)).
    + reflexivity.
    + rewrite Forall_forall. intros c Hc.
      apply list_elem_of_In, filter_In in Hc. destruct Hc as [_ Hv].
      now apply convexnn_valid_ravel.
  - assert (List.filter (ConvexNN.valid_point shape) coords = []) as ->; [|reflexivity].
    clear -Hany. induction coords as [|c coords IH]; [reflexivity|].
    simpl in Hany |- *. apply orb_false_iff in Hany. destruct Hany as [-> Hrest].
    now apply IH.
Qed.

Lemma convexnn_counter_spec (shape : grid) (pts : list point) :
  let items := ConvexNN.Counter (map (fun c => np.ravel c shape)
                                     (convexnn_valid shape pts)) in
  List.NoDup (map fst items) /\
  Forall (fun e => (0 <= fst e < np.prod shape)%Z /\ (1 <= snd e)%Z) items /\
  (forall j : Z, In j (map fst items)
                 <-> exists c, In c (convexnn_valid shape pts) /\ j = np.ravel c shape) /\
  Zsum (map snd items) = Z.of_nat (length (convexnn_valid shape pts)).
Proof.
  cbv zeta.
  set (idx := map (fun c => np.ravel c shape) (convexnn_valid shape pts)).
  destruct (Counter_spec idx) as (Hnd & Hsum & Hkeys & Hpos).
  split; [exact Hnd|split; [|split]].
  - rewrite Forall_forall in Hpos. rewrite Forall_forall. intros e He.
    split; [|now apply Hpos].
    assert (In (fst e) idx) as Hin.
    { apply Hkeys, in_map, list_elem_of_In. exact He. }
    unfold idx in Hin. apply in_map_iff in Hin. destruct Hin as (c & <- & Hc).
    apply filter_In in Hc. destruct Hc as [_ Hv].
    now apply convexnn_valid_ravel.
  - intros j. rewrite Hkeys. unfold idx. rewrite in_map_iff. split.
    + intros (c & <- & Hc). now exists c.
    + intros (c & Hc & ->). now exists c.
  - rewrite Hsum. unfold idx. now rewrite length_map.
Qed.

(** X14.  [ConvexNN._sample] (lines 338-347) raises nothing and gives
    one item for every voxel that some point rounds into: the flat index
    of the voxel, inside the grid, with the number of points that round
    into it; the counts add up to the number of points that round into the
    grid. *)
Theorem convexnn_sample_counts_points_per_voxel (shape : grid) (pts : list point) :
  exists items : list (Z * Z),
    ConvexNN._sample shape pts = Ok (Some items) /\
    List.NoDup (map fst items) /\
    Forall (fun e => (0 <= fst e < np.prod shape)%Z /\ (1 <= snd e)%Z) items /\
    (forall j : Z, In j (map fst items)
                   <-> exists c, In c (convexnn_valid shape pts) /\ j = np.ravel c shape) /\
    Zsum (map snd items) = Z.of_nat (length (convexnn_valid shape pts)).
Proof.
  eexists. split; [apply convexnn_sample_items|].
  exact (convexnn_counter_spec shape pts).
Qed.

(** ** Monte-Carlo kernels: the loop over the polyhedra *)

Lemma setitem_fresh (idx : Z) (value : Q) (row : list (Z * Q)) :
  ~ In idx (map fst row) ->
  Permutation (ConvexPolyhedra.setitem idx value row) ((idx, value) :: row).
Proof.
  induction row as [|[j d] row IH]; simpl; intros Hfresh; [reflexivity|].
  destruct (idx <? j)%Z; [reflexivity|].
  destruct (Z.eqb_spec idx j) as [->|Hne]; [exfalso; apply Hfresh; now left|].
  rewrite IH by (intros H; apply Hfresh; now right). apply perm_swap.
Qed.

Lemma assign_fresh_items (i : nat) (nrows ncols ninside : Z) (items : list (Z * Z)) :
  (Z.of_nat i < nrows)%Z -> ninside <> 0%Z ->
  List.NoDup (map fst items) ->
  Forall (fun e => (0 <= fst e < ncols)%Z) items ->
  forall row : list (Z * Q),
    (forall j, In j (map fst items) -> ~ In j (map fst row)) ->
    exists row',
      ConvexPolyhedra.assign i nrows ncols ninside items row = Done row' /\
      Permutation row' (fractions ninside items ++ row).
Proof.
  intros Hi Hn. induction items as [|[idx value] items IH]; intros Hnd Hin row Hfresh.
  - exists row. split; reflexivity.
  - simpl in Hnd. apply List.NoDup_cons_iff in Hnd. destruct Hnd as [Hidx Hnd].
    inversion Hin as [|? ? Hb Hrest]; subst. simpl in Hb.
    assert (Permutation
              (ConvexPolyhedra.setitem idx (inject_Z value / inject_Z ninside)%Q row)
              ((idx, (inject_Z value / inject_Z ninside)%Q) :: row)) as Hset.
    { apply setitem_fresh, Hfresh. now left. }
    destruct (IH Hnd Hrest
                 (ConvexPolyhedra.setitem idx (inject_Z value / inject_Z ninside)%Q row))
      as (row' & Hrow' & Hperm).
    { intros j Hj Hjrow.
      apply (Permutation_in _ (Permutation_map fst Hset)) in Hjrow.
      simpl in Hjrow. destruct Hjrow as [<-|Hjrow]; [contradiction|].
      apply (Hfresh j); [now right|exact Hjrow]. }
    exists row'. split.
    + simpl. destruct (Z.eqb_spec ninside 0) as [|_]; [contradiction|].
      replace (Z.of_nat i <? nrows)%Z with true by (symmetry; apply Z.ltb_lt; lia).
      replace (- ncols <=? idx)%Z with true by (symmetry; apply Z.leb_le; lia).
      replace (idx <? ncols)%Z with true by (symmetry; apply Z.ltb_lt; lia).
      simpl. rewrite Z.mod_small by lia. exact Hrow'.
    + rewrite Hperm, Hset. simpl. symmetry. apply Permutation_middle.
Qed.

Lemma Qsum_perm (l k : list Q) : Permutation l k -> (Qsum l == Qsum k)%Q.
Proof.
  induction 1 as [|x l k _ IH|x y l|l k m _ IH1 _ IH2]; simpl.
  - reflexivity.
  - now rewrite IH.
  - ring.
  - now rewrite IH1.
Qed.

Lemma Qsum_fractions (n : Z) (items : list (Z * Z)) :
  (Qsum (map snd (fractions n items))
   == inject_Z (Zsum (map snd items)) / inject_Z n)%Q.
Proof.
  induction items as [|[j c] items IH]; simpl.
  - unfold Qdiv. ring.
  - rewrite IH, inject_Z_plus. unfold Qdiv. ring.
Qed.

Lemma count_map_filter {A} (f : A -> bool) (l : list A) :
  ConvexPolyhedra.count (map f l) = Z.of_nat (length (List.filter f l)).
Proof.
  unfold ConvexPolyhedra.count. f_equal.
  induction l as [|a l IH]; simpl; [reflexivity|].
  destruct (f a); simpl; now rewrite IH.
Qed.

Lemma convexnn_valid_length (shape : grid) (pts : list point) :
  (length (convexnn_valid shape pts) <= length pts)%nat.
Proof.
  unfold convexnn_valid.
  etransitivity; [apply List.filter_length_le|]. now rewrite length_map.
Qed.

Lemma voxel_fractions_partial (shape : grid) (smp : list point) :
  partial_distribution (np.prod shape) (voxel_fractions shape smp).
Proof.
  unfold voxel_fractions.
  destruct (convexnn_counter_spec shape smp) as (Hnd & Hall & Hkeys & Hsum).
  cbv zeta in Hnd, Hall, Hkeys, Hsum.
  set (items := ConvexNN.Counter _) in *.
  pose proof (convexnn_valid_length shape smp) as Hlen.
  split; [|split].
  - unfold fractions. rewrite map_map. simpl. exact Hnd.
  - unfold fractions. rewrite Forall_forall in Hall. rewrite Forall_forall.
    intros e He. apply list_elem_of_In, in_map_iff in He.
    destruct He as (e0 & <- & He0). simpl.
    destruct (Hall e0 (proj2 (list_elem_of_In _ _) He0)) as [Hb Hc].
    split; [exact Hb|].
    assert (In (fst e0) (map fst items)) as Hk by now apply in_map.
    apply Hkeys in Hk. destruct Hk as (c & Hc0 & _).
    assert (0 < length smp)%nat as Hpos.
    { destruct (convexnn_valid shape smp); [destruct Hc0|simpl in Hlen; lia]. }
    apply Qlt_shift_div_l.
    + replace 0%Q with (inject_Z 0) by reflexivity. rewrite <- Zlt_Qlt. lia.
    + rewrite Qmult_0_l. replace 0%Q with (inject_Z 0) by reflexivity.
      rewrite <- Zlt_Qlt. lia.
  - rewrite Qsum_fractions, Hsum.
    destruct smp as [|p smp].
    + simpl. unfold Qdiv, Qle. simpl. lia.
    + apply Qle_shift_div_r.
      * replace 0%Q with (inject_Z 0) by reflexivity. rewrite <- Zlt_Qlt.
        simpl length. lia.
      * rewrite Qmult_1_l, <- Zle_Qle. lia.
Qed.

Lemma partial_distribution_perm (ncols : Z) (row row' : list (Z * Q)) :
  Permutation row' row -> partial_distribution ncols row ->
  partial_distribution ncols row'.
Proof.
  intros Hperm (Hnd & Hall & Hsum). split; [|split].
  - apply (Permutation_NoDup (l := map fst row)); [|exact Hnd].
    apply Permutation_map. now symmetry.
  - apply (Permutation_Forall (x := row)); [now symmetry|exact Hall].
  - rewrite (Qsum_perm _ _ (Permutation_map snd Hperm)). exact Hsum.
Qed.

Section ConvexLoop.
Variable polyhedra : list point -> list face -> list point
                     -> list (list point * list face).
Variable inside_convex_poly : list point -> point -> bool.
Variable rand : list point.

Lemma convexnn_fill (shape : grid) (i : nat) (nrows : Z) (pts : list point) :
  (Z.of_nat i < nrows)%Z ->
  exists row,
    ConvexPolyhedra.fill inside_convex_poly rand (ConvexNN._sample shape)
                         i nrows (np.prod shape) pts = Done row /\
    Permutation row (voxel_fractions shape (inside_samples inside_convex_poly rand pts)).
Proof.
  intros Hi. unfold ConvexPolyhedra.fill, inside_samples.
  destruct pts as [|p pts]; [exists []; split; reflexivity|].
  set (smp := ConvexPolyhedra.samples rand (p :: pts)).
  rewrite compress_map_filter, convexnn_sample_items, count_map_filter.
  unfold voxel_fractions.
  destruct (convexnn_counter_spec shape (List.filter (inside_convex_poly (p :: pts)) smp))
    as (Hnd & Hall & Hkeys & Hsum).
  cbv zeta in Hnd, Hall, Hkeys, Hsum.
  pose proof (convexnn_valid_length shape
                (List.filter (inside_convex_poly (p :: pts)) smp)) as Hlen.
  remember (ConvexNN.Counter
              (map (fun c => np.ravel c shape)
                   (convexnn_valid shape
                      (List.filter (inside_convex_poly (p :: pts)) smp))))
    as its eqn:Hits in *.
  clear Hits. destruct its as [|item items]; [exists []; split; reflexivity|].
  assert (Z.of_nat (length (List.filter (inside_convex_poly (p :: pts)) smp)) <> 0%Z)
    as Hn.
  { assert (In (fst item) (map fst (item :: items))) as Hk by now left.
    apply Hkeys in Hk. destruct Hk as (c & Hc & _).
    destruct (convexnn_valid shape _); [destruct Hc|simpl in Hlen; lia]. }
  destruct (assign_fresh_items i nrows (np.prod shape) _ (item :: items) Hi Hn Hnd)
    with (row := @nil (Z * Q)) as (row & Hrow & Hperm).
  - rewrite Forall_forall in Hall. rewrite Forall_forall.
    intros e He. now apply Hall.
  - intros j _ [].
  - exists row. split; [exact Hrow|]. now rewrite app_nil_r in Hperm.
Qed.

Section Sampler.
Variable _sample : list point -> result (option (list (Z * Z))).
Variables nrows ncols : Z.

Lemma loop_fills_rows :
  (forall i pts, (Z.of_nat i < nrows)%Z ->
     exists row,
       ConvexPolyhedra.fill inside_convex_poly rand _sample i nrows ncols pts
       = Done row) ->
  forall (polys : list (list point * list face)) (i : nat) (out : list event)
         (rows : list (list (Z * Q))),
    Z.of_nat (length rows) = nrows ->
    (i + length polys <= length rows)%nat ->
    (forall k, (i <= k)%nat -> nth k rows [] = []) ->
    exists rows',
      ConvexPolyhedra.loop inside_convex_poly rand _sample i nrows ncols polys out rows
      = (out ++ concat (map ConvexPolyhedra.progress (seq i (length polys))),
         Done rows') /\
      length rows' = length rows /\
      (forall k, (k < i)%nat -> nth k rows' [] = nth k rows []) /\
      (forall k, (i + length polys <= k)%nat -> nth k rows' [] = []) /\
      (forall k pts fs, polys !! k = Some (pts, fs) ->
         ConvexPolyhedra.fill inside_convex_poly rand _sample (i + k) nrows ncols pts
         = Done (nth (i + k) rows' [])).
Proof.
  intros Hfill. induction polys as [|[pts fs] polys IH]; intros i out rows Hlen Hi Hempty.
  - exists rows. simpl. rewrite app_nil_r.
    split; [reflexivity|split; [reflexivity|split; [reflexivity|split]]].
    + intros k Hk. apply Hempty. lia.
    + intros k pts fs Hk. discriminate Hk.
  - simpl in Hi. destruct (Hfill i pts ltac:(lia)) as [row Hrow].
    assert (exists rows1,
              ConvexPolyhedra.loop inside_convex_poly rand _sample i nrows ncols
                                   ((pts, fs) :: polys) out rows
              = ConvexPolyhedra.loop inside_convex_poly rand _sample (S i) nrows ncols
                                     polys (out ++ ConvexPolyhedra.progress i) rows1 /\
              length rows1 = length rows /\
              nth i rows1 [] = row /\
              (forall k, k <> i -> nth k rows1 [] = nth k rows []))
      as (rows1 & Hstep & Hlen1 & Hrow1 & Hother).
    { simpl. rewrite Hrow. destruct row as [|e row].
      - exists rows. split; [reflexivity|split; [reflexivity|split]].
        + apply Hempty. lia.
        + reflexivity.
      - exists (<[i := e :: row]> rows).
        split; [reflexivity|split; [apply length_insert|split]].
        + apply nth_lookup_Some, list_lookup_insert_eq. lia.
        + intros k Hk. rewrite !nth_lookup, list_lookup_insert_ne by congruence.
          reflexivity. }
    destruct (IH (S i) (out ++ ConvexPolyhedra.progress i) rows1)
      as (rows' & Hloop & Hlen' & Hbefore & Hafter & Hrows).
    + congruence.
    + lia.
    + intros k Hk. rewrite Hother by lia. apply Hempty. lia.
    + exists rows'. split; [|split; [congruence|split; [|split]]].
      * rewrite Hstep, Hloop. simpl. now rewrite <- app_assoc.
      * intros k Hk. rewrite Hbefore by lia. apply Hother. lia.
      * intros k Hk. apply Hafter. simpl in Hk. lia.
      * intros k pts' fs' Hk. destruct k as [|k]; simpl in Hk.
        -- injection Hk as <- <-. rewrite Nat.add_0_r, Hbefore by lia.
           now rewrite Hrow1.
        -- replace (i + S k)%nat with (S i + k)%nat by lia. now apply (Hrows k pts' fs').
Qed.

Lemma loop_raising_sampler (e : exn) :
  (forall pts, _sample pts = Raise e) ->
  forall (polys : list (list point * list face)) (i : nat) (out : list event)
         (rows : list (list (Z * Q))),
    Exists (fun p => fst p <> []) polys ->
    snd (ConvexPolyhedra.loop inside_convex_poly rand _sample i nrows ncols polys out rows)
    = Failed (Exn e).
Proof.
  intros Hraise. induction polys as [|[pts fs] polys IH]; intros i out rows Hex.
  - inversion Hex.
  - simpl. destruct pts as [|p pts].
    + simpl. apply IH. inversion Hex as [? ? Hhead|? ? Htail]; subst.
      * now simpl in Hhead.
      * exact Htail.
    + unfold ConvexPolyhedra.fill. rewrite Hraise. reflexivity.
Qed.

End Sampler.
End ConvexLoop.

Section ConvexMasks.
Variable polyhedra : list point -> list face -> list point
                     -> list (list point * list face).
Variable inside_convex_poly : list point -> point -> bool.
Variable rand : list point.

Lemma convexnn_getmask_rows (shape : grid) (pia wm : list point) (polys : list face) :
  (length (polyhedra pia polys wm) <= length wm)%nat ->
  exists rows,
    ConvexPolyhedra._getmask polyhedra inside_convex_poly rand
                             (ConvexNN._sample shape) shape pia wm polys
    = (concat (map ConvexPolyhedra.progress
                   (seq 0 (length (polyhedra pia polys wm)))),
       Done (sparse.of_rows (Z.of_nat (length wm), np.prod shape) rows)) /\
    length rows = length wm /\
    (forall k, (length (polyhedra pia polys wm) <= k)%nat -> nth k rows [] = []) /\
    (forall k pts fs,
       polyhedra pia polys wm !! k = Some (pts, fs) ->
       Permutation (nth k rows [])
                   (voxel_fractions shape (inside_samples inside_convex_poly rand pts))).
Proof.
  intros Hlen. unfold ConvexPolyhedra._getmask. cbv zeta.
  destruct (loop_fills_rows inside_convex_poly rand (ConvexNN._sample shape)
              (Z.of_nat (length wm)) (np.prod shape))
    with (polys := polyhedra pia polys wm) (i := 0%nat) (out := @nil event)
         (rows := repeat (@nil (Z * Q)) (length wm))
    as (rows & Hloop & Hrows & _ & Hafter & Hfill).
  - intros i pts Hi.
    destruct (convexnn_fill inside_convex_poly rand shape i _ pts Hi) as (row & Hrow & _).
    now exists row.
  - now rewrite repeat_length.
  - rewrite repeat_length. simpl. exact Hlen.
  - intros k _. apply nth_repeat.
  - exists rows. rewrite Hloop. rewrite repeat_length in Hrows.
    split; [reflexivity|split; [exact Hrows|split]].
    + intros k Hk. apply Hafter. simpl. exact Hk.
    + intros k pts fs Hk.
      assert (k < length wm)%nat as Hklt.
      { apply lookup_lt_Some in Hk. lia. }
      destruct (convexnn_fill inside_convex_poly rand shape k (Z.of_nat (length wm)) pts
                              ltac:(lia)) as (row & Hrow & Hperm).
      pose proof (Hfill k pts fs Hk) as Hdone. simpl in Hdone.
      rewrite Hrow in Hdone. injection Hdone as <-. exact Hperm.
Qed.

(** X15.  [ConvexPolyhedra._getmask] with the sampler of [ConvexNN]
    (lines 317-347), on a surface with no more polyhedra than vertices:
    the call raises nothing, prints the index of every hundredth
    polyhedron, and row [k] of the mask holds, for every voxel that an
    inside sample of polyhedron [k] rounds into, the share of the inside
    samples that round into it; the rows past the last polyhedron are
    empty. *)
Theorem convexnn_mask_rows_hold_sample_shares
        (shape : grid) (pia wm : list point) (polys : list face) :
  (length (polyhedra pia polys wm) <= length wm)%nat ->
  exists mask,
    ConvexPolyhedra._getmask polyhedra inside_convex_poly rand
                             (ConvexNN._sample shape) shape pia wm polys
    = (concat (map ConvexPolyhedra.progress
                   (seq 0 (length (polyhedra pia polys wm)))),
       Done mask) /\
    sparse.shape mask = (Z.of_nat (length wm), np.prod shape) /\
    (forall k pts fs,
       polyhedra pia polys wm !! k = Some (pts, fs) ->
       Permutation (sparse.getrow mask k)
                   (voxel_fractions shape (inside_samples inside_convex_poly rand pts))) /\
    (forall k, (length (polyhedra pia polys wm) <= k < length wm)%nat ->
               sparse.getrow mask k = []).
Proof.
  intros Hlen.
  destruct (convexnn_getmask_rows shape pia wm polys Hlen)
    as (rows & Hcall & Hrows & Hafter & Hfill).
  eexists. split; [exact Hcall|split; [reflexivity|split]].
  - intros k pts fs Hk.
    rewrite getrow_of_rows by (apply lookup_lt_Some in Hk; lia).
    now apply (Hfill k pts fs).
  - intros k [Hk1 Hk2]. rewrite getrow_of_rows by lia. now apply Hafter.
Qed.

(** X16.  With the sampler of [ConvexNN], every row of the mask of
    [ConvexPolyhedra._getmask] (lines 317-347) stores distinct voxels of
    the grid with positive weights that add up to at most one: the
    division of line 330 never meets a zero count and no index leaves the
    mask. *)
Theorem convexnn_mask_rows_are_partial_distributions
        (shape : grid) (pia wm : list point) (polys : list face) :
  (length (polyhedra pia polys wm) <= length wm)%nat ->
  exists mask,
    snd (ConvexPolyhedra._getmask polyhedra inside_convex_poly rand
                                  (ConvexNN._sample shape) shape pia wm polys)
    = Done mask /\
    forall i, (i < length wm)%nat ->
              partial_distribution (np.prod shape) (sparse.getrow mask i).
Proof.
  intros Hlen.
  destruct (convexnn_getmask_rows shape pia wm polys Hlen)
    as (rows & Hcall & Hrows & Hafter & Hfill).
  eexists. split; [rewrite Hcall; reflexivity|].
  intros i Hi. rewrite getrow_of_rows by lia.
  destruct (polyhedra pia polys wm !! i) as [[pts fs]|] eqn:Hk.
  - apply (partial_distribution_perm _ _ _ (Hfill i pts fs Hk)).
    apply voxel_fractions_partial.
  - apply lookup_ge_None in Hk. rewrite (Hafter i Hk).
    split; [constructor|split; [constructor|]]. simpl. unfold Qle. simpl. lia.
Qed.

Lemma getmask_raising_sampler
      (_sample : list point -> result (option (list (Z * Z)))) (e : exn)
      (shape : grid) (pia wm : list point) (polys : list face) :
  (forall pts, _sample pts = Raise e) ->
  Exists (fun p => fst p <> []) (polyhedra pia polys wm) ->
  snd (ConvexPolyhedra._getmask polyhedra inside_convex_poly rand _sample
                                shape pia wm polys)
  = Failed (Exn e).
Proof.
  intros Hraise Hex. unfold ConvexPolyhedra._getmask. cbv zeta.
  pose proof (loop_raising_sampler inside_convex_poly rand _sample
                (Z.of_nat (length wm)) (np.prod shape) e Hraise
                (polyhedra pia polys wm) 0%nat [] (repeat [] (length wm)) Hex) as H.
  destruct (ConvexPolyhedra.loop _ _ _ _ _ _ _ _ _) as [out [rows|r]];
    simpl in H |- *; congruence.
Qed.

(** X17.  [ConvexPolyhedra._getmask] with the sampler of
    [ConvexTrilin] (lines 317-335 and 350-378) raises [NameError] as soon
    as the surface has a polyhedron with points: line 376 reads [coords],
    which the sampler never binds. *)
Theorem convextrilin_getmask_raises_name_error
        (shape : grid) (pia wm : list point) (polys : list face) :
  Exists (fun p => fst p <> []) (polyhedra pia polys wm) ->
  snd (ConvexPolyhedra._getmask polyhedra inside_convex_poly rand
                                (ConvexTrilin._sample shape) shape pia wm polys)
  = Failed (Exn NameError).
Proof.
  apply getmask_raising_sampler. intros pts. reflexivity.
Qed.

(** X18.  [ConvexPolyhedra._getmask] with the sampler of
    [ConvexLanczos] (lines 317-335 and 381-383) raises
    [NotImplementedError] as soon as the surface has a polyhedron with
    points. *)
Theorem convexlanczos_getmask_not_implemented
        (shape : grid) (pia wm : list point) (polys : list face) :
  Exists (fun p => fst p <> []) (polyhedra pia polys wm) ->
  snd (ConvexPolyhedra._getmask polyhedra inside_convex_poly rand
                                (ConvexLanczos._sample shape) shape pia wm polys)
  = Failed (Exn NotImplementedError).
Proof.
  apply getmask_raising_sampler. intros pts. reflexivity.
Qed.

End ConvexMasks.

(** ** Trilinear kernel: the weights interpolate *)

Lemma accumulate_weighted (g : Z -> Q) (j : Z) (d : Q) (row : list (Z * Q)) :
  (weighted g (sparse.accumulate Qplus j d row) == weighted g row + d * g j)%Q.
Proof.
  unfold weighted. induction row as [|[j' d'] row IH]; simpl.
  - ring.
  - destruct (j <? j')%Z; simpl; [ring|].
    destruct (Z.eqb_spec j j') as [->|_]; simpl; [ring|].
    rewrite IH. ring.
Qed.

Lemma sum_duplicates_weighted (g : Z -> Q) (entries : list (Z * Q)) :
  (weighted g (sparse.sum_duplicates Qplus entries) == weighted g entries)%Q.
Proof.
  unfold sparse.sum_duplicates.
  assert (forall acc : list (Z * Q),
             (weighted g (fold_left
                            (fun row e => sparse.accumulate Qplus (fst e) (snd e) row)
                            entries acc)
              == weighted g acc + weighted g entries)%Q) as H.
  { induction entries as [|e entries IH]; intros acc.
    - unfold weighted. simpl. ring.
    - simpl fold_left. rewrite IH, accumulate_weighted.
      unfold weighted. simpl. ring. }
  rewrite H. unfold weighted. simpl. ring.
Qed.

Lemma unravel_ravel (n0 n1 n2 a b c : Z) :
  (0 <= b < n1)%Z -> (0 <= c < n2)%Z ->
  unravel (n0, n1, n2) (np.ravel (a, b, c) (n0, n1, n2)) = (a, b, c).
Proof.
  intros Hb Hc. unfold unravel, np.ravel.
  assert (((a * n1 + b) * n2 + c) / n2 = a * n1 + b)%Z as ->.
  { rewrite Z.add_comm, Z.div_add by lia. rewrite Z.div_small by lia. lia. }
  assert (((a * n1 + b) * n2 + c) mod n2 = c)%Z as ->.
  { rewrite Z.add_comm, Z.mod_add by lia. apply Z.mod_small. lia. }
  assert ((a * n1 + b) / n1 = a)%Z as ->.
  { rewrite Z.add_comm, Z.div_add by lia. rewrite Z.div_small by lia. lia. }
  assert ((a * n1 + b) mod n1 = b)%Z as ->.
  { rewrite Z.add_comm, Z.mod_add by lia. apply Z.mod_small. lia. }
  reflexivity.
Qed.

Lemma unravel_ravel_clip (n0 n1 n2 a b c : Z) :
  (0 < n1)%Z -> (0 < n2)%Z ->
  unravel (n0, n1, n2) (np.ravel_multi_index_clip (a, b, c) (n0, n1, n2))
  = (np.clip n0 a, np.clip n1 b, np.clip n2 c).
Proof.
  intros H1 H2. unfold np.ravel_multi_index_clip.
  apply unravel_ravel; now apply clip_range.
Qed.

(** Along one axis the two corners, with the weights [1 - f] and [f],
    average to the coordinate. *)
Lemma split_axis_interpolates (n : Z) (c : Q) :
  (0 <= c <= inject_Z (n - 1))%Q ->
  ((1 - fst (Trilinear.split_axis c)) * inject_Z (np.clip n (snd (Trilinear.split_axis c)))
   + fst (Trilinear.split_axis c)
     * inject_Z (np.clip n (snd (Trilinear.split_axis c) + 1))
   == c)%Q.
Proof.
  intros [Hlo Hhi].
  unfold Trilinear.split_axis, np.modf, np.trunc.
  assert (Qle_bool 0 c = true) as -> by now apply Qle_bool_iff.
  destruct (Qfloor_bounds c) as [Hf1 Hf2].
  assert (np.ltb (c - inject_Z (Qfloor c)) 0 = false) as ->
      by (apply ltb_false; lra).
  cbn [fst snd].
  assert (0 <= Qfloor c)%Z as Hnn.
  { replace 0%Z with (Qfloor (inject_Z 0)) by apply Qfloor_Z.
    apply Qfloor_resp_le. exact Hlo. }
  assert (Qfloor c <= n - 1)%Z as Hle.
  { rewrite <- (Qfloor_Z (n - 1)). apply Qfloor_resp_le. exact Hhi. }
  assert (np.clip n (Qfloor c) = Qfloor c) as ->.
  { unfold np.clip.
    destruct (Z.ltb_spec (Qfloor c) 0%Z); [lia|].
    destruct (Z.leb_spec n (Qfloor c)); [lia|reflexivity]. }
  destruct (Z.eq_dec (Qfloor c) (n - 1)%Z) as [Heq|Hne].
  - assert (np.clip n (Qfloor c + 1) = Qfloor c) as ->.
    { unfold np.clip.
      destruct (Z.ltb_spec (Qfloor c + 1)%Z 0%Z); [lia|].
      destruct (Z.leb_spec n (Qfloor c + 1)%Z); lia. }
    rewrite Heq in Hf1 |- *.
    assert (c == inject_Z (n - 1))%Q as Hc by lra.
    rewrite Hc. ring.
  - assert (np.clip n (Qfloor c + 1) = (Qfloor c + 1)%Z) as ->.
    { unfold np.clip.
      destruct (Z.ltb_spec (Qfloor c + 1)%Z 0%Z); [lia|].
      destruct (Z.leb_spec n (Qfloor c + 1)%Z); [lia|reflexivity]. }
    rewrite inject_Z_plus. change (inject_Z 1) with 1%Q. ring.
Qed.

(** X19.  The trilinear row of a vertex that lies between the first
    and the last voxel centre of every axis has the vertex as its centre of
    mass: the voxel indices of the row, each with its weight, average to
    the coordinates of the vertex, axis by axis (lines 189-220). *)
Theorem trilinear_row_centre_is_the_vertex
        (n0 n1 n2 : Z) (coords : list point) (polys : list face)
        (v : nat) (x y z : Q) :
  coords !! v = Some (x, y, z) ->
  (0 <= x <= inject_Z (n2 - 1))%Q ->
  (0 <= y <= inject_Z (n1 - 1))%Q ->
  (0 <= z <= inject_Z (n0 - 1))%Q ->
  let row := sparse.getrow (Trilinear._getmask (n0, n1, n2) coords polys) v in
  let voxel := unravel (n0, n1, n2) in
  (weighted (fun j => inject_Z (snd (voxel j))) row == x)%Q /\
  (weighted (fun j => inject_Z (snd (fst (voxel j)))) row == y)%Q /\
  (weighted (fun j => inject_Z (fst (fst (voxel j)))) row == z)%Q.
Proof.
  intros Hp Hx Hy Hz row voxel. unfold row, voxel.
  rewrite (trilinear_getrow _ _ _ _ _ Hp).
  assert (0 < n2)%Z as H2.
  { destruct Hx as [Hx1 Hx2]. pose proof (Qle_trans _ _ _ Hx1 Hx2) as H.
    replace 0%Q with (inject_Z 0) in H by reflexivity. rewrite <- Zle_Qle in H. lia. }
  assert (0 < n1)%Z as H1.
  { destruct Hy as [Hy1 Hy2]. pose proof (Qle_trans _ _ _ Hy1 Hy2) as H.
    replace 0%Q with (inject_Z 0) in H by reflexivity. rewrite <- Zle_Qle in H. lia. }
  pose proof (split_axis_interpolates n2 x Hx) as Ex.
  pose proof (split_axis_interpolates n1 y Hy) as Ey.
  pose proof (split_axis_interpolates n0 z Hz) as Ez.
  rewrite !sum_duplicates_weighted.
  unfold weighted, Trilinear.corners, Trilinear.weights.
  cbn [combine map Qsum fst snd].
  rewrite !(unravel_ravel_clip n0 n1 n2) by assumption.
  cbn [fst snd].
  set (fx := fst (Trilinear.split_axis x)) in *.
  set (fy := fst (Trilinear.split_axis y)) in *.
  set (fz := fst (Trilinear.split_axis z)) in *.
  set (ix := snd (Trilinear.split_axis x)) in *.
  set (iy := snd (Trilinear.split_axis y)) in *.
  set (iz := snd (Trilinear.split_axis z)) in *.
  split; [|split].
  - etransitivity; [|exact Ex]. unfold Qsum. cbn [fold_right]. ring.
  - etransitivity; [|exact Ey]. unfold Qsum. cbn [fold_right]. ring.
  - etransitivity; [|exact Ez]. unfold Qsum. cbn [fold_right]. ring.
Qed.

Lemma trilinear_row_centre_witness :
  ([(3 # 2, 1, 1 # 4)%Q] !! 0%nat = Some (3 # 2, 1, 1 # 4)%Q /\
   (0 <= 3 # 2 <= inject_Z (3 - 1))%Q /\
   (0 <= 1 <= inject_Z (2 - 1))%Q /\
   (0 <= 1 # 4 <= inject_Z (2 - 1))%Q) /\
  let row := sparse.getrow (Trilinear._getmask (2, 2, 3)%Z [(3 # 2, 1, 1 # 4)%Q] []) 0 in
  let voxel := unravel (2, 2, 3)%Z in
  (weighted (fun j => inject_Z (snd (voxel j))) row == 3 # 2)%Q /\
  (weighted (fun j => inject_Z (snd (fst (voxel j)))) row == 1)%Q /\
  (weighted (fun j => inject_Z (fst (fst (voxel j)))) row == 1 # 4)%Q.
Proof.
  assert (0 <= 3 # 2 <= inject_Z (3 - 1))%Q as Hx by (split; discriminate).
  assert (0 <= 1 <= inject_Z (2 - 1))%Q as Hy by (split; discriminate).
  assert (0 <= 1 # 4 <= inject_Z (2 - 1))%Q as Hz by (split; discriminate).
  split; [split; [reflexivity|split; [exact Hx|split; [exact Hy|exact Hz]]]|].
  exact (trilinear_row_centre_is_the_vertex 2 2 3 [(3 # 2, 1, 1 # 4)%Q] [] 0
                                            (3 # 2) 1 (1 # 4) eq_refl Hx Hy Hz).
Defined.

(** ** The voxels that the operators read *)

Lemma zip_with_map_same {A B C D} (f : B -> C -> D) (g : A -> B) (h : A -> C)
      (l : list A) :
  zip_with f (map g l) (map h l) = map (fun x => f (g x) (h x)) l.
Proof. induction l as [|a l IH]; simpl; [reflexivity|]. now rewrite IH. Qed.

Lemma slice_In {A} (l : list A) (s e : Z) (x : A) :
  In x (sparse.slice l s e) -> In x l.
Proof.
  unfold sparse.slice. intros H.
  rewrite <- (firstn_skipn (Z.to_nat s) l). apply in_or_app. right.
  rewrite <- (firstn_skipn (Z.to_nat (e - s)) (skipn (Z.to_nat s) l)).
  apply in_or_app. now left.
Qed.

Lemma getrow_In_data {V} (m : sparse.csr_matrix V) (i : nat) (e : Z * V) :
  In e (sparse.getrow m i) -> In (snd e) (sparse.data m).
Proof.
  destruct e as [j d]. unfold sparse.getrow. cbv zeta. intros H.
  apply in_combine_r in H. simpl. eapply slice_In. exact H.
Qed.

Lemma Qsum_zero_iff (l : list Q) :
  Forall (fun w => 0 <= w)%Q l ->
  (Qsum l == 0)%Q <-> Forall (fun w => w == 0)%Q l.
Proof.
  induction 1 as [|w l Hw Hl IH]; simpl.
  - split; [constructor|reflexivity].
  - pose proof (Qsum_nonneg l Hl) as Hs. split.
    + intros H. constructor; [lra|]. apply IH. lra.
    + intros H. inversion H as [|? ? H1 H2]; subst. apply IH in H2. lra.
Qed.

Lemma nonzero_sum (a b : Q) :
  (0 <= a)%Q -> (0 <= b)%Q ->
  negb (Qeq_bool (a + b) 0) = negb (Qeq_bool a 0) || negb (Qeq_bool b 0).
Proof.
  intros Ha Hb.
  destruct (Qeq_bool a 0) eqn:Ea, (Qeq_bool b 0) eqn:Eb, (Qeq_bool (a + b) 0) eqn:Es;
    try reflexivity; exfalso;
    repeat match goal with
           | H : Qeq_bool _ _ = true |- _ => apply Qeq_bool_eq in H
           | H : Qeq_bool _ _ = false |- _ => apply Qeq_bool_neq in H
           end;
    match goal with H : ~ _ |- _ => apply H; lra end.
Qed.

Section MaskProperties.
Context {V : Type}.
Variable number : V -> Q.
Variable reshapes : Z -> grid -> bool.

Lemma column_spec (m : sparse.csr_matrix V) (j : Z) (d : V) :
  In d (Mapper.column m j)
  <-> exists i : nat, (Z.of_nat i < fst (sparse.shape m))%Z /\
                      In (j, d) (sparse.getrow m i).
Proof.
  unfold Mapper.column. rewrite in_flat_map. split.
  - intros (i & Hi & Hd). apply in_seq in Hi.
    apply in_map_iff in Hd. destruct Hd as ([j' d'] & Hsnd & Hin).
    apply filter_In in Hin. destruct Hin as [Hin Hj]. simpl in *.
    apply Z.eqb_eq in Hj. subst. exists i. split; [lia|exact Hin].
  - intros (i & Hi & Hin). exists i. split; [apply in_seq; lia|].
    apply in_map_iff. exists (j, d). split; [reflexivity|].
    apply filter_In. split; [exact Hin|apply Z.eqb_refl].
Qed.

Lemma column_nonnegative (m : sparse.csr_matrix V) (j : Z) :
  nonnegative number m -> Forall (fun w => 0 <= w)%Q (map number (Mapper.column m j)).
Proof.
  unfold nonnegative. intros Hm. apply Forall_map. rewrite Forall_forall.
  intros d Hd. apply list_elem_of_In, column_spec in Hd. destruct Hd as (i & _ & Hin).
  apply getrow_In_data in Hin. rewrite Forall_forall in Hm.
  apply Hm. apply list_elem_of_In. exact Hin.
Qed.

Lemma column_sum_nonneg (m : sparse.csr_matrix V) (j : Z) :
  nonnegative number m ->
  (0 <= sparse.total 0%Q Qplus (map number (Mapper.column m j)))%Q.
Proof.
  intros Hm. rewrite total_Qsum. apply Qsum_nonneg. now apply column_nonnegative.
Qed.

Lemma column_sum_nonzero (m : sparse.csr_matrix V) (j : Z) :
  nonnegative number m ->
  negb (Qeq_bool (sparse.total 0%Q Qplus (map number (Mapper.column m j))) 0) = true
  <-> exists (i : nat) (d : V),
      (Z.of_nat i < fst (sparse.shape m))%Z /\ In (j, d) (sparse.getrow m i) /\
      (0 < number d)%Q.
Proof.
  intros Hm. pose proof (column_nonnegative m j Hm) as Hnn.
  rewrite negb_true_iff. split.
  - intros H. apply Qeq_bool_neq in H. rewrite total_Qsum in H.
    rewrite (Qsum_zero_iff _ Hnn) in H.
    assert (Exists (fun w => ~ (w == 0)%Q) (map number (Mapper.column m j))) as Hex.
    { apply neg_Forall_Exists_neg; [|exact H].
      intros w. apply Qeq_dec. }
    apply Exists_exists in Hex. destruct Hex as (w & Hw & Hne).
    apply list_elem_of_In, in_map_iff in Hw. destruct Hw as (d & <- & Hd).
    assert (0 <= number d)%Q as Hge.
    { rewrite Forall_forall in Hnn. apply Hnn.
      apply list_elem_of_In, in_map. exact Hd. }
    apply column_spec in Hd. destruct Hd as (i & Hi & Hin).
    exists i, d. split; [exact Hi|split; [exact Hin|]]. lra.
  - intros (i & d & Hi & Hin & Hpos).
    destruct (Qeq_bool _ 0) eqn:E; [|reflexivity]. exfalso.
    apply Qeq_bool_eq in E. rewrite total_Qsum in E.
    rewrite (Qsum_zero_iff _ Hnn) in E. rewrite Forall_forall in E.
    assert (number d == 0)%Q as Hz.
    { apply E. apply list_elem_of_In, in_map, column_spec. now exists i. }
    lra.
Qed.

Lemma sum0_length (m : sparse.csr_matrix V) :
  length (Mapper.sum0 number m) = Z.to_nat (snd (sparse.shape m)).
Proof. unfold Mapper.sum0. now rewrite length_map, length_seq. Qed.

(** X20.  For operators that store no negative value and have as many
    columns as one another, [mask] is the union of the two [hemimasks],
    voxel by voxel, and raises what [hemimasks] raises (lines 46-54). *)
Theorem mask_is_union_of_hemimasks (m : @Mapper.t V) :
  nonnegative number (fst (Mapper.masks m)) -> nonnegative number (snd (Mapper.masks m)) ->
  snd (sparse.shape (fst (Mapper.masks m))) = snd (sparse.shape (snd (Mapper.masks m))) ->
  match Mapper.hemimasks number reshapes m with
  | Ok [hl; hr] => Mapper.mask number reshapes m = Ok (zip_with orb hl hr)
  | Ok _ => False
  | Raise e => Mapper.mask number reshapes m = Raise e
  end.
Proof.
  intros Hl Hr Hcols. unfold Mapper.hemimasks, Mapper.mask, Mapper.add_rows.
  rewrite !sum0_length, Hcols, Nat.eqb_refl. cbn [mbind result_bind].
  unfold Mapper.nonzero_grid. cbn [mapM].
  assert (zip_with Qplus (Mapper.sum0 number (fst (Mapper.masks m)))
                   (Mapper.sum0 number (snd (Mapper.masks m)))
          = map (fun j => sparse.total 0%Q Qplus
                            (map number (Mapper.column (fst (Mapper.masks m)) (Z.of_nat j)))
                          + sparse.total 0%Q Qplus
                              (map number (Mapper.column (snd (Mapper.masks m)) (Z.of_nat j))))%Q
                (seq 0 (Z.to_nat (snd (sparse.shape (snd (Mapper.masks m)))))))
    as Hzip.
  { unfold Mapper.sum0. rewrite Hcols. apply zip_with_map_same. }
  rewrite Hzip, length_map, length_seq, !sum0_length, Hcols.
  destruct (reshapes _ (Mapper.shape (Mapper.self m))); cbn [mbind result_bind mret result_ret];
    [|reflexivity].
  f_equal. unfold Mapper.sum0. rewrite Hcols, !map_map, zip_with_map_same.
  apply map_ext. intros j. apply nonzero_sum; now apply column_sum_nonneg.
Qed.

(** X21.  For operators that store no negative value and have as many
    columns as one another, the array that [mask] returns has one element
    per column, true exactly at the voxels for which a row of one of the
    two operators stores a positive value (lines 46-49). *)
Theorem mask_marks_voxels_with_positive_weight (m : @Mapper.t V) (a : list bool) :
  nonnegative number (fst (Mapper.masks m)) -> nonnegative number (snd (Mapper.masks m)) ->
  snd (sparse.shape (fst (Mapper.masks m))) = snd (sparse.shape (snd (Mapper.masks m))) ->
  Mapper.mask number reshapes m = Ok a ->
  length a = Z.to_nat (snd (sparse.shape (fst (Mapper.masks m)))) /\
  forall j : nat,
    a !! j = Some true
    <-> (j < length a)%nat /\
        exists (h : sparse.csr_matrix V) (i : nat) (d : V),
          (h = fst (Mapper.masks m) \/ h = snd (Mapper.masks m)) /\
          (Z.of_nat i < fst (sparse.shape h))%Z /\
          In (Z.of_nat j, d) (sparse.getrow h i) /\ (0 < number d)%Q.
Proof.
  intros Hl Hr Hcols. unfold Mapper.mask, Mapper.add_rows.
  rewrite !sum0_length, Hcols, Nat.eqb_refl. cbn [mbind result_bind].
  unfold Mapper.nonzero_grid.
  destruct (reshapes _ (Mapper.shape (Mapper.self m))); [|discriminate].
  intros Ha. injection Ha as <-.
  unfold Mapper.sum0. rewrite Hcols, zip_with_map_same, map_map.
  rewrite length_map, length_seq. split; [reflexivity|].
  intros j. rewrite list_lookup_fmap. split.
  - intros H. destruct (seq 0 _ !! j) as [k|] eqn:Hk; [|discriminate].
    apply lookup_seq in Hk. destruct Hk as [-> Hj]. simpl in H.
    injection H as H. split; [exact Hj|].
    rewrite nonzero_sum in H by now apply column_sum_nonneg.
    apply orb_true_iff in H. destruct H as [H|H];
      apply column_sum_nonzero in H; try assumption;
      destruct H as (i & d & Hi & Hin & Hpos).
    + exists (fst (Mapper.masks m)), i, d. repeat split; try assumption. now left.
    + exists (snd (Mapper.masks m)), i, d. repeat split; try assumption. now right.
  - intros (Hj & h & i & d & Hh & Hi & Hin & Hpos).
    rewrite (proj2 (lookup_seq 0 _ j j) (conj eq_refl Hj)). simpl. f_equal.
    rewrite nonzero_sum by now apply column_sum_nonneg.
    apply orb_true_iff. destruct Hh as [->| ->]; [left|right];
      apply column_sum_nonzero; try assumption; now exists i, d.
Qed.

End MaskProperties.

(** ** The rebuild of a kernel without parameters *)

Section RebuildLoop.
Context {V : Type}.
Variable transform : list point -> list point.
Variable kernel : list point -> list face -> sparse.csr_matrix V.

Lemma rebuild_without_parameters
      (b : Mapper.base) (fs : gmap string (@Mapper.file V)) (now : Q)
      (kwargs : list (string * Mapper.pyval)) (fid : list (list point * list face)) :
  Mapper._recache b fs now
    (Mapper.hemisphere_masks transform
       (fun coords polys => Mapper.call_with [] kwargs (Ok (kernel coords polys))) fid)
  = match kwargs, fid with
    | [], [(lp, lf); (rp, rf)] =>
        Ok (Mapper._savecache b fs now (kernel (transform lp) lf)
                              (kernel (transform rp) rf))
    | _, _ => Raise TypeError
    end.
Proof.
  unfold Mapper._recache, Mapper.hemisphere_masks.
  destruct kwargs as [|kv kwargs].
  - rewrite (mapM_all_ok _ (fun h => kernel (transform (fst h)) (snd h)))
      by (rewrite Forall_forall; intros h _; reflexivity).
    cbn [mbind result_bind].
    destruct fid as [|[lp lf] [|[rp rf] [|h fid]]]; reflexivity.
  - destruct fid as [|h fid]; reflexivity.
Qed.

End RebuildLoop.

(** X22.  The rebuild of a [Nearest] or [Trilinear] mapper (lines
    129-139 with the kernels of lines 172 and 189) returns exactly when no
    keyword parameter is given and [fid] has the surfaces of two
    hemispheres.  Then the operators are those of the transformed
    surfaces, [nverts] is the number of their vertices, and the archive is
    written.  In every other case the rebuild raises [TypeError], from the
    kernel that takes no keyword or from [_savecache] that takes two
    operators. *)
Theorem parameterless_rebuild_needs_two_surfaces_and_no_keyword
        (transform : list point -> list point) (kwargs : list (string * Mapper.pyval))
        (fid : list (list point * list face)) (b : Mapper.base) (now : Q) :
  (forall fs : gmap string (@Mapper.file bool),
      match Mapper._recache b fs now
                            (Rebuild.nearest (Mapper.shape b) transform kwargs fid) with
      | Ok (m, fs') =>
          kwargs = [] /\
          exists lp lf rp rf,
            fid = [(lp, lf); (rp, rf)] /\
            Mapper.masks m
            = (Nearest._getmask (Mapper.shape b) (transform lp) lf,
               Nearest._getmask (Mapper.shape b) (transform rp) rf) /\
            Mapper.nverts m
            = (Z.of_nat (length (transform lp)) + Z.of_nat (length (transform rp)))%Z /\
            fs' = <[Mapper.npz_path (Mapper.cachefile b)
                    := Mapper.mk_file now (Mapper.savez_fields (fst (Mapper.masks m))
                                                               (snd (Mapper.masks m)))]> fs
      | Raise e => e = TypeError /\ (kwargs <> [] \/ length fid <> 2%nat)
      end) /\
  (forall fs : gmap string (@Mapper.file Q),
      match Mapper._recache b fs now
                            (Rebuild.trilinear (Mapper.shape b) transform kwargs fid) with
      | Ok (m, fs') =>
          kwargs = [] /\
          exists lp lf rp rf,
            fid = [(lp, lf); (rp, rf)] /\
            Mapper.masks m
            = (Trilinear._getmask (Mapper.shape b) (transform lp) lf,
               Trilinear._getmask (Mapper.shape b) (transform rp) rf) /\
            Mapper.nverts m
            = (Z.of_nat (length (transform lp)) + Z.of_nat (length (transform rp)))%Z /\
            fs' = <[Mapper.npz_path (Mapper.cachefile b)
                    := Mapper.mk_file now (Mapper.savez_fields (fst (Mapper.masks m))
                                                               (snd (Mapper.masks m)))]> fs
      | Raise e => e = TypeError /\ (kwargs <> [] \/ length fid <> 2%nat)
      end).
Proof.
  split; intros fs.
  - unfold Rebuild.nearest. rewrite rebuild_without_parameters.
    destruct kwargs as [|kv kwargs]; [|split; [reflexivity|now left]].
    destruct fid as [|[lp lf] [|[rp rf] [|h fid]]];
      try (split; [reflexivity|right; simpl; lia]).
    split; [reflexivity|]. exists lp, lf, rp, rf. repeat split.
  - unfold Rebuild.trilinear. rewrite rebuild_without_parameters.
    destruct kwargs as [|kv kwargs]; [|split; [reflexivity|now left]].
    destruct fid as [|[lp lf] [|[rp rf] [|h fid]]];
      try (split; [reflexivity|right; simpl; lia]).
    split; [reflexivity|]. exists lp, lf, rp, rf. repeat split.
Qed.

(** X23.  A [Nearest] or a [Trilinear] mapper that is given a
    keyword parameter cannot be built: the parameter enters the name of
    the cache file (lines 22-25), and where that file is missing, or the
    rebuild is forced, the construction raises [TypeError] (lines 44, 137
    and the kernels of lines 172 and 189). *)
Theorem keyword_for_parameterless_kernel_raises_type_error
        (fsb : gmap string (@Mapper.file bool)) (fsq : gmap string (@Mapper.file Q))
        (now : Q) (projcache xfms : list Mapper.segment) (n0 n1 n2 : Z)
        (transform : list point -> list point)
        (fid : list (list point * list face))
        (subject xfmname : string) (recache : bool)
        (kwargs : list (string * Mapper.pyval)) (cacheb cacheq xfmfile : string) :
  Mapper.cachefile_of projcache xfmname "Nearest" kwargs = Ok cacheb ->
  Mapper.cachefile_of projcache xfmname "Trilinear" kwargs = Ok cacheq ->
  Mapper.format xfms [("xfmname", xfmname)]%string = Ok xfmfile ->
  kwargs <> [] ->
  recache = true \/ (fsb !! cacheb = None /\ fsq !! cacheq = None) ->
  Mapper.__init__ fsb now projcache xfms (n0, n1, n2)
                  (Rebuild.nearest (n2, n1, n0) transform kwargs fid)
                  "Nearest" subject xfmname recache kwargs
  = Raise TypeError /\
  Mapper.__init__ fsq now projcache xfms (n0, n1, n2)
                  (Rebuild.trilinear (n2, n1, n0) transform kwargs fid)
                  "Trilinear" subject xfmname recache kwargs
  = Raise TypeError.
Proof.
  intros Hb Hq Hx Hkw Hwhy. split.
  - rewrite (init_after_paths _ _ _ _ _ _ _ _ _ _ _ _ _ cacheb xfmfile Hb Hx).
    assert (Mapper.load_cache fsb cacheb xfmfile recache = Raise IOError) as ->.
    { destruct Hwhy as [->|[Hm _]]; [apply load_cache_forced|].
      destruct recache; [apply load_cache_forced|now apply load_cache_missing]. }
    unfold Rebuild.nearest. rewrite rebuild_without_parameters.
    destruct kwargs; [contradiction|reflexivity].
  - rewrite (init_after_paths _ _ _ _ _ _ _ _ _ _ _ _ _ cacheq xfmfile Hq Hx).
    assert (Mapper.load_cache fsq cacheq xfmfile recache = Raise IOError) as ->.
    { destruct Hwhy as [->|[_ Hm]]; [apply load_cache_forced|].
      destruct recache; [apply load_cache_forced|now apply load_cache_missing]. }
    unfold Rebuild.trilinear. rewrite rebuild_without_parameters.
    destruct kwargs; [contradiction|reflexivity].
Qed.

(** ** The properties above at concrete inputs *)

Lemma forced_recache_witness :
  let fs : gmap string (@Mapper.file bool) := ∅ in
  let projcache := [Mapper.Lit "S1_"; Mapper.Field "xfmname"; Mapper.Lit "_";
                    Mapper.Field "projection"; Mapper.Lit ".npz"]%string in
  let xfms := [Mapper.Field "xfmname"; Mapper.Lit ".xfm"]%string in
  (Mapper.cachefile_of projcache "fullhead" "Nearest" []
   = Ok "S1_fullhead_nearest.npz"%string /\
   Mapper.format xfms [("xfmname", "fullhead")]%string = Ok "fullhead.xfm"%string) /\
  Mapper.__init__ fs 9 projcache xfms (2, 3, 4)%Z (Ok []) "Nearest" "S1" "fullhead" true []
  = Mapper._recache (base_of "S1" "fullhead" "S1_fullhead_nearest.npz" 2 3 4) fs 9 (Ok []).
Proof.
  intros fs projcache xfms.
  assert (Mapper.cachefile_of projcache "fullhead" "Nearest" []
          = Ok "S1_fullhead_nearest.npz"%string) as H1 by reflexivity.
  assert (Mapper.format xfms [("xfmname", "fullhead")]%string
          = Ok "fullhead.xfm"%string) as H2 by reflexivity.
  split; [exact (conj H1 H2)|].
  exact (forced_recache_always_rebuilds fs 9 projcache xfms 2 3 4 (Ok [])
           "Nearest" "S1" "fullhead" [] "S1_fullhead_nearest.npz" "fullhead.xfm" H1 H2).
Defined.

Lemma fresh_archive_without_array_witness :
  let fs : gmap string (@Mapper.file bool) :=
    <["S1_fullhead_nearest.npz"%string := Mapper.mk_file 7 ∅]>
      {[ "fullhead.xfm"%string := Mapper.mk_file 5 ∅ ]} in
  let projcache := [Mapper.Lit "S1_"; Mapper.Field "xfmname"; Mapper.Lit "_";
                    Mapper.Field "projection"; Mapper.Lit ".npz"]%string in
  let xfms := [Mapper.Field "xfmname"; Mapper.Lit ".xfm"]%string in
  (Mapper.os_stat fs "fullhead.xfm" = Ok 5%Q /\
   fs !! "S1_fullhead_nearest.npz"%string = Some (Mapper.mk_file 7 ∅) /\
   (5 <= 7)%Q /\ In "left_data"%string read_first) /\
  Mapper.__init__ fs 9 projcache xfms (2, 3, 4)%Z (Ok []) "Nearest" "S1" "fullhead" false []
  = Raise KeyError.
Proof.
  intros fs projcache xfms.
  assert (Mapper.os_stat fs "fullhead.xfm" = Ok 5%Q) as H3 by reflexivity.
  assert (fs !! "S1_fullhead_nearest.npz"%string = Some (Mapper.mk_file 7 ∅)) as H4
      by reflexivity.
  assert (5 <= 7)%Q as H5 by discriminate.
  assert (In "left_data"%string read_first) as H6 by (left; reflexivity).
  split; [exact (conj H3 (conj H4 (conj H5 H6)))|].
  exact (fresh_archive_without_array_raises_key_error
           fs 9 projcache xfms 2 3 4 (Ok []) "Nearest" "S1" "fullhead" []
           "S1_fullhead_nearest.npz" "fullhead.xfm" 5 (Mapper.mk_file 7 ∅) "left_data"
           eq_refl eq_refl H3 H4 H5 H6 eq_refl).
Defined.

Lemma construction_sets_nverts_witness :
  let fs : gmap string (@Mapper.file bool) := ∅ in
  let projcache := [Mapper.Lit "S1_"; Mapper.Field "xfmname"; Mapper.Lit "_";
                    Mapper.Field "projection"; Mapper.Lit ".npz"]%string in
  let xfms := [Mapper.Field "xfmname"; Mapper.Lit ".xfm"]%string in
  let lmask := sparse.mk_csr [] [] [0; 0; 0]%Z (2, 24)%Z in
  let rmask := sparse.mk_csr [] [] [0; 0]%Z (1, 24)%Z in
  let m := Mapper.mk_mapper (base_of "S1" "fullhead" "S1_fullhead_nearest.npz" 2 3 4)
                            (lmask, rmask) 3 in
  let fs' := <["S1_fullhead_nearest.npz"%string
               := Mapper.mk_file 9 (Mapper.savez_fields lmask rmask)]> fs in
  Mapper.__init__ fs 9 projcache xfms (2, 3, 4)%Z (Ok [lmask; rmask])
                  "Nearest" "S1" "fullhead" false []
  = Ok (m, fs') /\
  Mapper.nverts m = (2 + 1)%Z /\ Mapper.shape (Mapper.self m) = (4, 3, 2)%Z.
Proof.
  intros fs projcache xfms lmask rmask m fs'.
  assert (Mapper.__init__ fs 9 projcache xfms (2, 3, 4)%Z (Ok [lmask; rmask])
                          "Nearest" "S1" "fullhead" false []
          = Ok (m, fs')) as H by reflexivity.
  split; [exact H|].
  pose proof (construction_sets_nverts_and_shape
                fs fs' 9 projcache xfms 2 3 4 (Ok [lmask; rmask])
                "Nearest" "S1" "fullhead" false [] m H) as (Hn & _ & Hs & _).
  split; [exact Hn|exact Hs].
Defined.

Lemma rebuilt_mapper_is_reloaded_witness :
  let fs : gmap string (@Mapper.file bool) :=
    {[ "fullhead.xfm"%string := Mapper.mk_file 5 ∅ ]} in
  let projcache := [Mapper.Lit "S1_"; Mapper.Field "xfmname"; Mapper.Lit "_";
                    Mapper.Field "projection"; Mapper.Lit ".npz"]%string in
  let xfms := [Mapper.Field "xfmname"; Mapper.Lit ".xfm"]%string in
  let lmask := sparse.mk_csr [true] [3%Z] [0; 1; 1]%Z (2, 24)%Z in
  let rmask := sparse.mk_csr [] [] [0; 0]%Z (1, 24)%Z in
  let b := base_of "S1" "fullhead" "S1_fullhead_nearest.npz" 2 3 4 in
  let m := Mapper.mk_mapper b (lmask, rmask) 3 in
  let fs' := <["S1_fullhead_nearest.npz"%string
               := Mapper.mk_file 9 (Mapper.savez_fields lmask rmask)]> fs in
  (Mapper.endswith "S1_fullhead_nearest.npz" ".npz" = true /\
   Mapper.os_stat fs "fullhead.xfm" = Ok 5%Q /\ (5 <= 9)%Q /\
   Mapper._recache b fs 9 (Ok [lmask; rmask]) = Ok (m, fs')) /\
  Mapper.__init__ fs' 12 projcache xfms (2, 3, 4)%Z (Raise NotImplementedError)
                  "Nearest" "S1" "fullhead" false []
  = Ok (m, fs').
Proof.
  intros fs projcache xfms lmask rmask b m fs'.
  assert (Mapper.endswith "S1_fullhead_nearest.npz" ".npz" = true) as H1 by reflexivity.
  assert (Mapper.os_stat fs "fullhead.xfm" = Ok 5%Q) as H2 by reflexivity.
  assert (5 <= 9)%Q as H3 by discriminate.
  assert (Mapper._recache b fs 9 (Ok [lmask; rmask]) = Ok (m, fs')) as H4 by reflexivity.
  assert ("fullhead.xfm"%string <> "S1_fullhead_nearest.npz"%string) as H5 by discriminate.
  split; [exact (conj H1 (conj H2 (conj H3 H4)))|].
  exact (rebuilt_mapper_is_reloaded
           fs fs' 9 12 projcache xfms 2 3 4 (Ok [lmask; rmask]) (Raise NotImplementedError)
           "Nearest" "S1" "fullhead" [] "S1_fullhead_nearest.npz" "fullhead.xfm" 5 m
           eq_refl eq_refl H1 H5 H2 H3 H4).
Defined.

Lemma cache_without_npz_suffix_witness :
  let fs : gmap string (@Mapper.file bool) := ∅ in
  let projcache := [Mapper.Lit "S1_"; Mapper.Field "xfmname"; Mapper.Lit "_";
                    Mapper.Field "projection"]%string in
  let xfms := [Mapper.Field "xfmname"; Mapper.Lit ".xfm"]%string in
  let lmask := sparse.mk_csr [] [] [0; 0; 0]%Z (2, 24)%Z in
  let rmask := sparse.mk_csr [] [] [0; 0]%Z (1, 24)%Z in
  let b := base_of "S1" "fullhead" "S1_fullhead_nearest" 2 3 4 in
  let m := Mapper.mk_mapper b (lmask, rmask) 3 in
  let fs' := <["S1_fullhead_nearest.npz"%string
               := Mapper.mk_file 9 (Mapper.savez_fields lmask rmask)]> fs in
  (Mapper.endswith "S1_fullhead_nearest" ".npz" = false /\
   Mapper._recache b fs 9 (Ok [lmask; rmask]) = Ok (m, fs')) /\
  fs' !! "S1_fullhead_nearest"%string = None /\
  Mapper.__init__ fs' 12 projcache xfms (2, 3, 4)%Z (Ok [lmask; rmask])
                  "Nearest" "S1" "fullhead" false []
  = Mapper._recache b fs' 12 (Ok [lmask; rmask]).
Proof.
  intros fs projcache xfms lmask rmask b m fs'.
  assert (Mapper.endswith "S1_fullhead_nearest" ".npz" = false) as H1 by reflexivity.
  assert (Mapper._recache b fs 9 (Ok [lmask; rmask]) = Ok (m, fs')) as H2 by reflexivity.
  split; [exact (conj H1 H2)|].
  exact (cache_without_npz_suffix_is_never_reused
           fs fs' 9 12 projcache xfms 2 3 4 (Ok [lmask; rmask]) (Ok [lmask; rmask])
           "Nearest" "S1" "fullhead" [] "S1_fullhead_nearest" "fullhead.xfm" m
           eq_refl eq_refl H1 eq_refl H2).
Defined.

Lemma gaussian_needs_fresh_cache_witness :
  let fs : gmap string (@Mapper.file Q) :=
    {[ "fullhead.xfm"%string := Mapper.mk_file 5 ∅ ]} in
  let projcache := [Mapper.Lit "S1_"; Mapper.Field "xfmname"; Mapper.Lit "_";
                    Mapper.Field "projection"; Mapper.Lit ".npz"]%string in
  let xfms := [Mapper.Field "xfmname"; Mapper.Lit ".xfm"]%string in
  let kwargs := [("std", Mapper.VInt 2)]%string in
  (Mapper.cachefile_of projcache "fullhead" "Gaussian" kwargs
   = Ok "S1_fullhead_gaussian_std2.npz"%string /\
   Mapper.os_stat fs "fullhead.xfm" = Ok 5%Q /\
   missing_or_stale fs "S1_fullhead_gaussian_std2.npz" 5) /\
  Mapper.__init__ fs 9 projcache xfms (2, 3, 4)%Z (Gaussian._recache kwargs)
                  "Gaussian" "S1" "fullhead" false kwargs
  = Raise NotImplementedError.
Proof.
  intros fs projcache xfms kwargs.
  assert (Mapper.cachefile_of projcache "fullhead" "Gaussian" kwargs
          = Ok "S1_fullhead_gaussian_std2.npz"%string) as H1 by reflexivity.
  assert (Mapper.os_stat fs "fullhead.xfm" = Ok 5%Q) as H2 by reflexivity.
  assert (missing_or_stale fs "S1_fullhead_gaussian_std2.npz" 5) as H3
      by (left; reflexivity).
  assert (Forall (fun kv : string * Mapper.pyval => fst kv = "std"%string) kwargs) as H4
      by (repeat constructor).
  split; [exact (conj H1 (conj H2 H3))|].
  exact (gaussian_needs_fresh_cache
           fs 9 projcache xfms 2 3 4 "S1" "fullhead" false kwargs
           "S1_fullhead_gaussian_std2.npz" "fullhead.xfm" 5
           H1 eq_refl H2 H4 (or_intror H3)).
Defined.

Lemma backwards_index_array_witness :
  let empty (n : Z) := sparse.mk_csr ([] : list bool) [] (repeat 0%Z (Z.to_nat n + 1))
                                     (n, 8%Z) in
  let m := Mapper.mk_mapper (Mapper.mk_base None "S1" "fullhead" "c.npz" (2, 2, 2)%Z)
                            (empty 2%Z, empty 1%Z) 3 in
  (Mapper.nverts m = (2 + 1)%Z /\ Z.of_nat (length [0; 2]%Z) <> Mapper.nverts m /\
   Forall (fun i => - 2 <= i < Mapper.nverts m)%Z [0; 2]%Z) /\
  exists lvec rvec : list bool,
    Mapper.hemisphere_vectors m (Mapper.Single (Mapper.IntArr [0; 2]%Z))
    = Ok (Mapper.BoolArr lvec, Mapper.BoolArr rvec) /\
    length lvec = 2%nat /\ length rvec = 1%nat.
Proof.
  intros empty m.
  assert (Mapper.nverts m = (2 + 1)%Z) as H1 by reflexivity.
  assert (Z.of_nat (length [0; 2]%Z) <> Mapper.nverts m) as H2 by discriminate.
  assert (Forall (fun i => - 2 <= i < Mapper.nverts m)%Z [0; 2]%Z) as H3
      by (repeat constructor; simpl; lia).
  split; [exact (conj H1 (conj H2 H3))|].
  destruct (backwards_index_array_marks_vertices m [0; 2]%Z H1
              ltac:(simpl; lia) ltac:(simpl; lia) ltac:(discriminate) H2 H3)
    as (lvec & rvec & Hv & Hl & Hr & _).
  exists lvec, rvec. split; [exact Hv|split; [exact Hl|exact Hr]].
Defined.

Lemma backwards_pair_second_array_witness :
  let empty (n : Z) := sparse.mk_csr ([] : list bool) [] (repeat 0%Z (Z.to_nat n + 1))
                                     (n, 8%Z) in
  let m := Mapper.mk_mapper (Mapper.mk_base None "S1" "fullhead" "c.npz" (2, 2, 2)%Z)
                            (empty 2%Z, empty 1%Z) 3 in
  (Z.of_nat (length [0]%Z) <> 2%Z /\ Forall (fun i => - 2 <= i < 2)%Z [0]%Z /\
   Exists (fun i => ~ (- 1 <= i < 1)%Z) [5]%Z) /\
  Mapper.backwards (fun _ _ _ => Raise ValueError) m
                   (Mapper.Pair (Mapper.IntArr [0]%Z) (Mapper.IntArr [5]%Z))
  = Raise IndexError.
Proof.
  intros empty m.
  assert (Z.of_nat (length [0]%Z) <> 2%Z) as H1 by discriminate.
  assert (Forall (fun i => - 2 <= i < 2)%Z [0]%Z) as H2
      by (repeat constructor; simpl; lia).
  assert (Exists (fun i => ~ (- 1 <= i < 1)%Z) [5]%Z) as H3
      by (constructor; lia).
  split; [exact (conj H1 (conj H2 H3))|].
  exact (backwards_pair_second_array_unchecked
           (fun _ _ _ => Raise ValueError) m [0]%Z [5]%Z
           ltac:(simpl; lia) ltac:(simpl; lia) ltac:(discriminate) H1 H2 H3).
Defined.

Lemma renorm_vals_sums_to_one_witness :
  fold_left Rplus [1; 3]%R 0%R <> 0%R /\
  Fl.sum (Lanczos.renorm_vals (map Fin [1; 3]%R)) = Fin 1.
Proof.
  assert (fold_left Rplus [1; 3]%R 0%R <> 0%R) as H by (simpl; rlra).
  split; [exact H|]. exact (renorm_vals_sums_to_one [1; 3]%R H).
Defined.

Lemma convexnn_mask_shares_witness :
  let polyhedra := fun (_ : list point) (_ : list face) (_ : list point) =>
                     [([(0, 0, 0); (1, 1, 1)]%Q, @nil face)] in
  let inside := fun (_ : list point) (_ : point) => true in
  let rand := [(1 # 4, 1 # 4, 1 # 4); (3 # 4, 3 # 4, 3 # 4)]%Q in
  (length (polyhedra [] [] [(0, 0, 0)%Q]) <= length [(0, 0, 0)%Q])%nat /\
  exists mask,
    snd (ConvexPolyhedra._getmask polyhedra inside rand (ConvexNN._sample (2, 2, 2)%Z)
                                  (2, 2, 2)%Z [] [(0, 0, 0)%Q] [])
    = Done mask /\
    Permutation (sparse.getrow mask 0)
                (voxel_fractions (2, 2, 2)%Z
                   (inside_samples inside rand [(0, 0, 0); (1, 1, 1)]%Q)).
Proof.
  intros polyhedra inside rand.
  assert (length (polyhedra [] [] [(0, 0, 0)%Q]) <= length [(0, 0, 0)%Q])%nat as H
      by (simpl; lia).
  split; [exact H|].
  destruct (convexnn_mask_rows_hold_sample_shares
              polyhedra inside rand (2, 2, 2)%Z [] [(0, 0, 0)%Q] [] H)
    as (mask & Hcall & _ & Hrows & _).
  exists mask. split; [now rewrite Hcall|].
  exact (Hrows 0%nat [(0, 0, 0); (1, 1, 1)]%Q [] eq_refl).
Defined.

Lemma convexnn_mask_partial_witness :
  let polyhedra := fun (_ : list point) (_ : list face) (_ : list point) =>
                     [([(0, 0, 0); (1, 1, 1)]%Q, @nil face)] in
  let inside := fun (_ : list point) (_ : point) => true in
  let rand := [(1 # 4, 1 # 4, 1 # 4); (3 # 4, 3 # 4, 3 # 4)]%Q in
  (length (polyhedra [] [] [(0, 0, 0)%Q]) <= length [(0, 0, 0)%Q])%nat /\
  exists mask,
    snd (ConvexPolyhedra._getmask polyhedra inside rand (ConvexNN._sample (2, 2, 2)%Z)
                                  (2, 2, 2)%Z [] [(0, 0, 0)%Q] [])
    = Done mask /\
    partial_distribution (np.prod (2, 2, 2)%Z) (sparse.getrow mask 0).
Proof.
  intros polyhedra inside rand.
  assert (length (polyhedra [] [] [(0, 0, 0)%Q]) <= length [(0, 0, 0)%Q])%nat as H
      by (simpl; lia).
  split; [exact H|].
  destruct (convexnn_mask_rows_are_partial_distributions
              polyhedra inside rand (2, 2, 2)%Z [] [(0, 0, 0)%Q] [] H)
    as (mask & Hcall & Hrows).
  exists mask. split; [exact Hcall|]. apply Hrows. simpl. lia.
Defined.

Lemma convextrilin_getmask_witness :
  let polyhedra := fun (_ : list point) (_ : list face) (_ : list point) =>
                     [(@nil point, @nil face); ([(0, 0, 0); (1, 1, 1)]%Q, @nil face)] in
  let inside := fun (_ : list point) (_ : point) => true in
  Exists (fun p : list point * list face => fst p <> [])
         (polyhedra [] [] [(0, 0, 0); (1, 1, 1)]%Q) /\
  snd (ConvexPolyhedra._getmask polyhedra inside [(1 # 2, 1 # 2, 1 # 2)%Q]
                                (ConvexTrilin._sample (2, 2, 2)%Z)
                                (2, 2, 2)%Z [] [(0, 0, 0); (1, 1, 1)]%Q [])
  = Failed (Exn NameError).
Proof.
  intros polyhedra inside.
  assert (Exists (fun p : list point * list face => fst p <> [])
                 (polyhedra [] [] [(0, 0, 0); (1, 1, 1)]%Q)) as H
      by (right; left; discriminate).
  split; [exact H|].
  exact (convextrilin_getmask_raises_name_error
           polyhedra inside [(1 # 2, 1 # 2, 1 # 2)%Q] (2, 2, 2)%Z []
           [(0, 0, 0); (1, 1, 1)]%Q [] H).
Defined.

Lemma convexlanczos_getmask_witness :
  let polyhedra := fun (_ : list point) (_ : list face) (_ : list point) =>
                     [(@nil point, @nil face); ([(0, 0, 0); (1, 1, 1)]%Q, @nil face)] in
  let inside := fun (_ : list point) (_ : point) => true in
  Exists (fun p : list point * list face => fst p <> [])
         (polyhedra [] [] [(0, 0, 0); (1, 1, 1)]%Q) /\
  snd (ConvexPolyhedra._getmask polyhedra inside [(1 # 2, 1 # 2, 1 # 2)%Q]
                                (ConvexLanczos._sample (2, 2, 2)%Z)
                                (2, 2, 2)%Z [] [(0, 0, 0); (1, 1, 1)]%Q [])
  = Failed (Exn NotImplementedError).
Proof.
  intros polyhedra inside.
  assert (Exists (fun p : list point * list face => fst p <> [])
                 (polyhedra [] [] [(0, 0, 0); (1, 1, 1)]%Q)) as H
      by (right; left; discriminate).
  split; [exact H|].
  exact (convexlanczos_getmask_not_implemented
           polyhedra inside [(1 # 2, 1 # 2, 1 # 2)%Q] (2, 2, 2)%Z []
           [(0, 0, 0); (1, 1, 1)]%Q [] H).
Defined.

Lemma mask_is_union_witness :
  let lmask := sparse.mk_csr [1 # 2]%Q [1%Z] [0; 1]%Z (1, 2)%Z in
  let rmask := sparse.mk_csr [1 # 4]%Q [0%Z] [0; 1]%Z (1, 2)%Z in
  let m := Mapper.mk_mapper (Mapper.mk_base None "S1" "fullhead" "c.npz" (1, 1, 2)%Z)
                            (lmask, rmask) 2 in
  let number := fun q : Q => q in
  let reshapes := fun (size : Z) (shape : grid) => (np.prod shape =? size)%Z in
  (nonnegative number lmask /\ nonnegative number rmask) /\
  Mapper.mask number reshapes m = Ok (zip_with orb [false; true] [true; false]).
Proof.
  intros lmask rmask m number reshapes.
  assert (nonnegative number lmask) as H1 by (repeat constructor; discriminate).
  assert (nonnegative number rmask) as H2 by (repeat constructor; discriminate).
  split; [exact (conj H1 H2)|].
  exact (mask_is_union_of_hemimasks number reshapes m H1 H2 eq_refl).
Defined.

Lemma mask_marks_voxels_witness :
  let lmask := sparse.mk_csr [1 # 2]%Q [1%Z] [0; 1]%Z (1, 2)%Z in
  let rmask := sparse.mk_csr [0]%Q [0%Z] [0; 1]%Z (1, 2)%Z in
  let m := Mapper.mk_mapper (Mapper.mk_base None "S1" "fullhead" "c.npz" (1, 1, 2)%Z)
                            (lmask, rmask) 2 in
  let number := fun q : Q => q in
  let reshapes := fun (size : Z) (shape : grid) => (np.prod shape =? size)%Z in
  (nonnegative number lmask /\ nonnegative number rmask /\
   Mapper.mask number reshapes m = Ok [false; true]) /\
  length [false; true] = Z.to_nat 2.
Proof.
  intros lmask rmask m number reshapes.
  assert (nonnegative number lmask) as H1 by (repeat constructor; discriminate).
  assert (nonnegative number rmask) as H2 by (repeat constructor; discriminate).
  assert (Mapper.mask number reshapes m = Ok [false; true]) as H3 by reflexivity.
  split; [exact (conj H1 (conj H2 H3))|].
  exact (proj1 (mask_marks_voxels_with_positive_weight
                  number reshapes m [false; true] H1 H2 eq_refl H3)).
Defined.

Lemma keyword_for_parameterless_kernel_witness :
  let projcache := [Mapper.Lit "S1_"; Mapper.Field "xfmname"; Mapper.Lit "_";
                    Mapper.Field "projection"; Mapper.Lit ".npz"]%string in
  let xfms := [Mapper.Field "xfmname"; Mapper.Lit ".xfm"]%string in
  let kwargs := [("window", Mapper.VInt 3)]%string in
  let fid := [([(0, 0, 0)%Q], @nil face); ([(1, 1, 1)%Q], @nil face)] in
  (Mapper.cachefile_of projcache "fullhead" "Nearest" kwargs
   = Ok "S1_fullhead_nearest_window3.npz"%string /\
   Mapper.cachefile_of projcache "fullhead" "Trilinear" kwargs
   = Ok "S1_fullhead_trilinear_window3.npz"%string /\
   kwargs <> []) /\
  Mapper.__init__ ∅ 9 projcache xfms (2, 3, 4)%Z
                  (Rebuild.nearest (4, 3, 2)%Z (fun pts => pts) kwargs fid)
                  "Nearest" "S1" "fullhead" false kwargs
  = Raise TypeError.
Proof.
  intros projcache xfms kwargs fid.
  assert (Mapper.cachefile_of projcache "fullhead" "Nearest" kwargs
          = Ok "S1_fullhead_nearest_window3.npz"%string) as H1 by reflexivity.
  assert (Mapper.cachefile_of projcache "fullhead" "Trilinear" kwargs
          = Ok "S1_fullhead_trilinear_window3.npz"%string) as H2 by reflexivity.
  assert (kwargs <> []) as H3 by discriminate.
  split; [exact (conj H1 (conj H2 H3))|].
  exact (proj1 (keyword_for_parameterless_kernel_raises_type_error
                  ∅ ∅ 9 projcache xfms 2 3 4 (fun pts => pts) fid "S1" "fullhead" false
                  kwargs "S1_fullhead_nearest_window3.npz"
                  "S1_fullhead_trilinear_window3.npz" "fullhead.xfm"
                  H1 H2 eq_refl H3 (or_intror (conj eq_refl eq_refl)))).
Defined.

(** ** Projection back through the trilinear operator *)

Lemma Qsum_map_eq {A} (f g : A -> Q) (l : list A) :
  (forall x, In x l -> (f x == g x)%Q) -> (Qsum (map f l) == Qsum (map g l))%Q.
Proof.
  induction l as [|a l IH]; intros H; simpl; [reflexivity|].
  rewrite (H a) by now left. rewrite IH; [reflexivity|].
  intros x Hx. apply H. now right.
Qed.

Lemma Qsum_map_plus {A} (f g : A -> Q) (l : list A) :
  (Qsum (map (fun x => f x + g x) l) == Qsum (map f l) + Qsum (map g l))%Q.
Proof. induction l as [|a l IH]; simpl; [ring|]. rewrite IH. ring. Qed.

Lemma Qsum_map_scale {A} (c : Q) (f : A -> Q) (l : list A) :
  (Qsum (map (fun x => c * f x) l) == c * Qsum (map f l))%Q.
Proof. induction l as [|a l IH]; simpl; [ring|]. rewrite IH. ring. Qed.

Lemma Qsum_map_zero {A} (l : list A) : (Qsum (map (fun _ => 0) l) == 0)%Q.
Proof. induction l as [|a l IH]; simpl; [reflexivity|]. rewrite IH. ring. Qed.

Lemma Qsum_exchange {A B} (f : A -> B -> Q) (la : list A) (lb : list B) :
  (Qsum (map (fun b => Qsum (map (fun a => f a b) la)) lb)
   == Qsum (map (fun a => Qsum (map (fun b => f a b) lb)) la))%Q.
Proof.
  induction la as [|a la IH]; simpl.
  - apply Qsum_map_zero.
  - rewrite Qsum_map_plus, IH. reflexivity.
Qed.

Lemma Qsum_one_hot (k : Z) (w : Q) (n s : nat) :
  (Z.of_nat s <= k < Z.of_nat (s + n))%Z ->
  (Qsum (map (fun j : nat => if (k =? Z.of_nat j)%Z then w else 0) (seq s n)) == w)%Q.
Proof.
  revert s. induction n as [|n IH]; intros s Hk; [lia|]. simpl.
  destruct (Z.eqb_spec k (Z.of_nat s)) as [->|Hne].
  - assert (Qsum (map (fun j : nat => if (Z.of_nat s =? Z.of_nat j)%Z then w else 0)
                      (seq (S s) n)) == 0)%Q as ->; [|ring].
    rewrite <- (Qsum_map_zero (seq (S s) n)). apply Qsum_map_eq.
    intros j Hj. apply in_seq in Hj.
    destruct (Z.eqb_spec (Z.of_nat s) (Z.of_nat j)); [lia|reflexivity].
  - rewrite IH by lia. ring.
Qed.

(** The cells of a row add up to its stored entries where every entry is
    on a column of the matrix. *)
Lemma row_cells_sum (row : list (Z * Q)) (n : nat) :
  Forall (fun e => 0 <= fst e < Z.of_nat n)%Z row ->
  (Qsum (map (fun j : nat =>
                Qsum (map snd (List.filter (fun e => (fst e =? Z.of_nat j)%Z) row)))
             (seq 0 n))
   == Qsum (map snd row))%Q.
Proof.
  induction 1 as [|[k w] row Hk Hrow IH]; simpl.
  - apply Qsum_map_zero.
  - rewrite <- IH, <- (Qsum_one_hot k w n 0) by (simpl in Hk |- *; lia).
    rewrite <- Qsum_map_plus. apply Qsum_map_eq. intros j _.
    destruct (k =? Z.of_nat j)%Z; simpl; ring.
Qed.

Lemma map_snd_combine_seq {A} (l : list A) (s : nat) :
  map snd (combine (seq s (length l)) l) = l.
Proof.
  revert s. induction l as [|a l IH]; intros s; simpl; [reflexivity|].
  now rewrite IH.
Qed.

Lemma In_combine_seq {A} (l : list A) (s i : nat) (a : A) :
  In (i, a) (combine (seq s (length l)) l) -> (s <= i < s + length l)%nat.
Proof.
  intros H. apply in_combine_l in H. apply in_seq in H. exact H.
Qed.

Lemma trilinear_row_keys (n0 n1 n2 : Z) (coords : list point) (polys : list face)
      (v : nat) (p : point) :
  coords !! v = Some p -> (0 < n0)%Z -> (0 < n1)%Z -> (0 < n2)%Z ->
  Forall (fun e => 0 <= fst e < n0 * n1 * n2)%Z
         (sparse.getrow (Trilinear._getmask (n0, n1, n2) coords polys) v).
Proof.
  intros Hp H0 H1 H2. rewrite (trilinear_getrow _ _ _ _ _ Hp).
  apply (sum_duplicates_keys (fun j => 0 <= j < n0 * n1 * n2)%Z).
  pose proof (trilinear_corners_in_grid n0 n1 n2 p H0 H1 H2) as Hc.
  unfold np.prod in Hc.
  assert (map fst (combine (Trilinear.corners (n0, n1, n2) p) (Trilinear.weights p))
          = Trilinear.corners (n0, n1, n2) p) as Hk
      by (destruct p as [[x y] z]; reflexivity).
  rewrite <- Hk in Hc. rewrite Forall_forall in Hc. rewrite Forall_forall.
  intros e He. apply Hc. apply list_elem_of_In, in_map, list_elem_of_In. exact He.
Qed.

Lemma trilinear_row_total (shape : grid) (coords : list point) (polys : list face)
      (v : nat) (p : point) :
  coords !! v = Some p ->
  (Qsum (map snd (sparse.getrow (Trilinear._getmask shape coords polys) v)) == 1)%Q.
Proof.
  intros Hp. rewrite (trilinear_getrow _ _ _ _ _ Hp), sum_duplicates_Qsum.
  assert (map snd (combine (Trilinear.corners shape p) (Trilinear.weights p))
          = Trilinear.weights p) as ->
      by (destruct p as [[x y] z]; reflexivity).
  apply trilinear_weights_sum.
Qed.

(** X24.  Projection back through a trilinear operator keeps the total:
    for a vector with one number per vertex, the product of line 124 has
    one number per voxel, and these add up to the sum of the vector (lines
    123-124 with the operator of lines 189-220, on a grid with positive
    extents). *)
Theorem trilinear_back_projection_keeps_total
        (n0 n1 n2 : Z) (coords : list point) (polys : list face)
        (data : Mapper.array) :
  (0 < n0)%Z -> (0 < n1)%Z -> (0 < n2)%Z ->
  Mapper.alen data = Z.of_nat (length coords) ->
  exists volume : list Q,
    Mapper.proj data (Trilinear._getmask (n0, n1, n2) coords polys) = Ok volume /\
    length volume = Z.to_nat (n0 * n1 * n2) /\
    (Qsum volume == Qsum (Mapper.values data))%Q.
Proof.
  intros H0 H1 H2 Hlen. unfold Mapper.proj.
  set (m := Trilinear._getmask (n0, n1, n2) coords polys).
  assert (sparse.shape m = (Z.of_nat (length coords), (n0 * n1 * n2)%Z)) as Hshape
      by reflexivity.
  rewrite Hshape. cbn [fst snd]. rewrite Hlen, Z.eqb_refl.
  eexists. split; [reflexivity|]. split; [now rewrite length_map, length_seq|].
  unfold Mapper.alen in Hlen. apply Nat2Z.inj in Hlen.
  set (vs := Mapper.values data) in *.
  set (ivs := combine (seq 0 (length vs)) vs).
  set (cols := seq 0 (Z.to_nat (n0 * n1 * n2))).
  transitivity
    (Qsum (map (fun j : nat =>
                  Qsum (map (fun iv : nat * Q =>
                               (snd iv * sparse.get 0%Q Qplus m (fst iv) (Z.of_nat j))%Q)
                            ivs))
               cols)).
  { apply Qsum_map_eq. intros j _. apply total_Qsum. }
  rewrite (Qsum_exchange
             (fun (iv : nat * Q) (j : nat) =>
                (snd iv * sparse.get 0%Q Qplus m (fst iv) (Z.of_nat j))%Q) ivs cols).
  transitivity (Qsum (map snd ivs));
    [|unfold ivs; now rewrite map_snd_combine_seq].
  apply Qsum_map_eq. intros [i w] Hin. cbn [fst snd].
  apply In_combine_seq in Hin.
  assert (exists p, coords !! i = Some p) as [p Hp].
  { destruct (coords !! i) as [p|] eqn:E; [now exists p|].
    apply lookup_ge_None in E. lia. }
  rewrite Qsum_map_scale.
  assert (Qsum (map (fun j : nat => sparse.get 0%Q Qplus m i (Z.of_nat j)) cols) == 1)%Q
    as ->; [|ring].
  rewrite <- (trilinear_row_total (n0, n1, n2) coords polys i p Hp). fold m.
  rewrite <- (row_cells_sum (sparse.getrow m i) (Z.to_nat (n0 * n1 * n2))).
  - apply Qsum_map_eq. intros j _. unfold sparse.get. apply total_Qsum.
  - pose proof (trilinear_row_keys n0 n1 n2 coords polys i p Hp H0 H1 H2) as Hk.
    fold m in Hk. rewrite Forall_forall in Hk. rewrite Forall_forall.
    intros e He. apply Hk in He. lia.
Qed.

Lemma trilinear_back_projection_witness :
  ((0 < 2)%Z /\
   Mapper.alen (Mapper.FloatArr [3; 5]%Q)
   = Z.of_nat (length [(1 # 2, 0, 0); (1, 1, 1 # 4)]%Q)) /\
  exists volume : list Q,
    Mapper.proj (Mapper.FloatArr [3; 5]%Q)
                (Trilinear._getmask (2, 2, 2)%Z [(1 # 2, 0, 0); (1, 1, 1 # 4)]%Q [])
    = Ok volume /\
    length volume = Z.to_nat (2 * 2 * 2) /\
    (Qsum volume == Qsum (Mapper.values (Mapper.FloatArr [3; 5]%Q)))%Q.
Proof.
  split; [split; [lia|reflexivity]|].
  apply (trilinear_back_projection_keeps_total
           2 2 2 [(1 # 2, 0, 0); (1, 1, 1 # 4)]%Q [] (Mapper.FloatArr [3; 5]%Q));
    [lia|lia|lia|reflexivity].
Defined.
